(** * Data-structure analysis: Steensgaard driver and call-target finder

    A shallow embedding of [lib/DSA/Steensgaard.cpp] and
    [lib/DSA/CallTargets.cpp].  Functions of the IR are identified by
    their symbol name, instructions by their address. *)

From Stdlib Require Import Ascii String.
From stdpp Require Import gmap strings list fin_maps.

#[local] Set Warnings "-clear-no-such-hyp".


(** ** IR values shared by both passes *)

(** A [const Function*]; the symbol name is the identity. *)
Definition FuncId := string.

(** The called operand of a call or invoke instruction, as far as the
    passes inspect it with [isa<>] / [dyn_cast<>]. *)
Inductive Value : Type :=
| VFunction (f : FuncId)        (* llvm::Function *)
| VUndef                        (* llvm::UndefValue *)
| VInlineAsm                    (* llvm::InlineAsm *)
| VNull                         (* llvm::ConstantPointerNull *)
| VBitCast (v : Value)          (* a pointer cast of [v] *)
| VLocal (name : string).       (* any other SSA value *)

(** [Value::stripPointerCasts]. *)
Fixpoint stripPointerCasts (v : Value) : Value :=
  match v with
  | VBitCast v' => stripPointerCasts v'
  | _ => v
  end.

(** [dyn_cast<Function>(v)]. *)
Definition dyn_cast_Function (v : Value) : option FuncId :=
  match v with
  | VFunction f => Some f
  | _ => None
  end.

Definition isa_UndefValue (v : Value) : bool :=
  match v with VUndef => true | _ => false end.

Definition isa_InlineAsm (v : Value) : bool :=
  match v with VInlineAsm => true | _ => false end.

Definition isa_ConstantPointerNull (v : Value) : bool :=
  match v with VNull => true | _ => false end.

Definition isa_Function (v : Value) : bool :=
  match v with VFunction _ => true | _ => false end.

(** ** DS-node flag bits *)

(** Modelled from the spec: the flag enumeration of [DSNode.h], which is
    not part of the sources.  The flags are those listed for the DS-node,
    one bit each in the order of that list; only that the bits are
    distinct is used. *)
Module NodeTy.
Definition Incomplete : N := 1.
Definition External   : N := 2.
Definition AllocaBit  : N := 4.
Definition HeapBit    : N := 8.
Definition GlobalBit  : N := 16.
Definition UnknownBit : N := 32.
Definition Int2Ptr    : N := 64.
Definition Ptr2Int    : N := 128.
Definition Folded     : N := 256.
Definition Modified   : N := 512.
Definition Read       : N := 1024.
Definition Array      : N := 2048.
End NodeTy.

Definition hasFlag (flags bit : N) : bool := negb (N.land flags bit =? 0)%N.

Definition isIncompleteNode (flags : N) : bool := hasFlag flags NodeTy.Incomplete.
Definition isExternalNode (flags : N) : bool := hasFlag flags NodeTy.External.

(** ** An ordered map keyed by address ([std::map] iterates by key) *)

Section OrderedMap.
Context {V : Type}.

Fixpoint om_find (k : nat) (m : list (nat * V)) : option V :=
  match m with
  | [] => None
  | (k', v) :: m' =>
      if decide (k = k') then Some v
      else if decide (k < k') then None
      else om_find k m'
  end.

(** Insert or overwrite, keeping the keys ascending. *)
Fixpoint om_put (k : nat) (v : V) (m : list (nat * V)) : list (nat * V) :=
  match m with
  | [] => [(k, v)]
  | (k', v') :: m' =>
      if decide (k = k') then (k, v) :: m'
      else if decide (k < k') then (k, v) :: (k', v') :: m'
      else (k', v') :: om_put k v m'
  end.

Inductive om_sorted : list (nat * V) → Prop :=
| om_sorted_nil : om_sorted []
| om_sorted_cons k v m :
    Forall (λ e, k < e.1) m → om_sorted m → om_sorted ((k, v) :: m).
End OrderedMap.

(** ** The call-target finder ([lib/DSA/CallTargets.cpp]) *)

Module CallTargets.

Inductive Opcode := OpCall | OpInvoke | OpOther.

(** An instruction as the finder reads it.  [iAddr] is the address of
    the instruction object: call sites compare by it. *)
Record Instruction := {
  iAddr : nat;
  iOpcode : Opcode;
  iCalledValue : Value;      (* the called operand of a call / invoke *)
  iName : string;            (* getName() *)
  iText : string             (* the instruction as [operator<<] prints it *)
}.

Abbreviation BasicBlock := (list Instruction).

Record IRFunction := {
  fName : FuncId;
  fBlocks : list BasicBlock  (* no blocks: a declaration *)
}.

Definition isDeclaration (F : IRFunction) : bool :=
  match fBlocks F with [] => true | _ => false end.

Abbreviation Module_ := (list IRFunction).

(** [llvm::CallSite]: the instruction, from which the enclosing function
    is reached through [getParent()->getParent()]. *)
Record CallSite := {
  getInstruction : Instruction;
  getCaller : FuncId
}.

Definition getCalledValue (cs : CallSite) : Value :=
  iCalledValue (getInstruction cs).

(** [CallSite::getCalledFunction]: [dyn_cast<Function>] of the operand,
    no casts stripped. *)
Definition getCalledFunction (cs : CallSite) : option FuncId :=
  dyn_cast_Function (getCalledValue cs).

Definition csKey (cs : CallSite) : nat := iAddr (getInstruction cs).

(** What the finder asks of the analysis [T] it is instantiated with:
    the call graph, the scalar map of the globals graph and the node of
    a called value.  [DSCallGraph] and [DSGraph] are not part of the
    sources, so their answers are fields. *)
Record DSA := {
  callee_range : CallSite → list FuncId;     (* callee_begin(cs) .. callee_end(cs) *)
  scc_range : FuncId → list FuncId;          (* scc_begin(F) .. scc_end(F) *)
  sccLeader : FuncId → FuncId;
  getLeaderForGlobal : FuncId → FuncId;      (* SM.getLeaderForGlobal *)
  SM_find : FuncId → bool;                   (* SM.find(g) != SM.end() *)
  (* getDSGraph(caller)->getNodeForValue(v).getNode(): the flag word of
     the node, or [None] for a null node *)
  getNodeForValue : FuncId → Value → option N
}.

(** The members of the pass and its statistics counters. *)
Record CTF := {
  AllSites : list CallSite;
  IndMap : list (nat * (CallSite * list FuncId));
  CompleteSites : gset nat;
  DirCall : nat;
  IndCall : nat;
  CompleteInd : nat;
  CompleteEmpty : nat
}.

Definition CTF_init : CTF :=
  {| AllSites := []; IndMap := []; CompleteSites := ∅;
     DirCall := 0; IndCall := 0; CompleteInd := 0; CompleteEmpty := 0 |}.

Definition push_AllSites (cs : CallSite) (st : CTF) : CTF :=
  {| AllSites := AllSites st ++ [cs]; IndMap := IndMap st;
     CompleteSites := CompleteSites st; DirCall := DirCall st;
     IndCall := IndCall st; CompleteInd := CompleteInd st;
     CompleteEmpty := CompleteEmpty st |}.

Definition set_IndMap (m : list (nat * (CallSite * list FuncId))) (st : CTF) : CTF :=
  {| AllSites := AllSites st; IndMap := m;
     CompleteSites := CompleteSites st; DirCall := DirCall st;
     IndCall := IndCall st; CompleteInd := CompleteInd st;
     CompleteEmpty := CompleteEmpty st |}.

Definition insert_CompleteSites (cs : CallSite) (st : CTF) : CTF :=
  {| AllSites := AllSites st; IndMap := IndMap st;
     CompleteSites := {[csKey cs]} ∪ CompleteSites st; DirCall := DirCall st;
     IndCall := IndCall st; CompleteInd := CompleteInd st;
     CompleteEmpty := CompleteEmpty st |}.

Definition incr_DirCall (st : CTF) : CTF :=
  {| AllSites := AllSites st; IndMap := IndMap st;
     CompleteSites := CompleteSites st; DirCall := S (DirCall st);
     IndCall := IndCall st; CompleteInd := CompleteInd st;
     CompleteEmpty := CompleteEmpty st |}.

Definition incr_IndCall (st : CTF) : CTF :=
  {| AllSites := AllSites st; IndMap := IndMap st;
     CompleteSites := CompleteSites st; DirCall := DirCall st;
     IndCall := S (IndCall st); CompleteInd := CompleteInd st;
     CompleteEmpty := CompleteEmpty st |}.

Definition incr_CompleteInd (st : CTF) : CTF :=
  {| AllSites := AllSites st; IndMap := IndMap st;
     CompleteSites := CompleteSites st; DirCall := DirCall st;
     IndCall := IndCall st; CompleteInd := S (CompleteInd st);
     CompleteEmpty := CompleteEmpty st |}.

Definition incr_CompleteEmpty (st : CTF) : CTF :=
  {| AllSites := AllSites st; IndMap := IndMap st;
     CompleteSites := CompleteSites st; DirCall := DirCall st;
     IndCall := IndCall st; CompleteInd := CompleteInd st;
     CompleteEmpty := S (CompleteEmpty st) |}.

Definition vec_at (k : nat) (m : list (nat * (CallSite * list FuncId)))
  : list FuncId :=
  match om_find k m with
  | Some (_, v) => v
  | None => []
  end.

(** [IndMap[cs]] read as an rvalue: the vector, empty if there is none. *)
Definition IndMap_at (cs : CallSite) (st : CTF) : list FuncId :=
  vec_at (csKey cs) (IndMap st).

(** [IndMap[cs]] as [operator[]] leaves the map: an absent key is bound
    to an empty vector. *)
Definition IndMap_touch (cs : CallSite) (st : CTF) : CTF :=
  match om_find (csKey cs) (IndMap st) with
  | Some _ => st
  | None => set_IndMap (om_put (csKey cs) (cs, []) (IndMap st)) st
  end.

(** [IndMap[cs].push_back(F)]. *)
Definition IndMap_push_back (cs : CallSite) (F : FuncId) (st : CTF) : CTF :=
  set_IndMap (om_put (csKey cs) (cs, IndMap_at cs st ++ [F]) (IndMap st)) st.

(** The body shared by the two SCC loops: for every member of the SCC
    whose leader is bound in the scalar map, [IndMap[cs].push_back]. *)
Definition push_scc (T : DSA) (cs : CallSite) (F : FuncId) (st : CTF) : CTF :=
  foldl (λ st f, if SM_find T (getLeaderForGlobal T f)
                 then IndMap_push_back cs f st else st)
        st (scc_range T F).

(** Modelled from the spec: [CallTargetFinder::isComplete] of
    [CallTargets.h], which is not part of the sources; [isComplete(cs)]
    is membership in the set of complete sites. *)
Definition isComplete (cs : CallSite) (st : CTF) : bool :=
  bool_decide (csKey cs ∈ CompleteSites st).

(** The body of the innermost loop of [findIndTargets] for one call or
    invoke instruction.  [None] is the failed assertion on the node. *)
Definition visitCallSite (T : DSA) (cs : CallSite) (st : CTF) : option CTF :=
  let st := push_AllSites cs st in
  let CF := getCalledFunction cs in
  if isa_UndefValue (getCalledValue cs) then Some st
  else if isa_InlineAsm (getCalledValue cs) then Some st
  else
    let CF := match CF with
              | Some F => Some F
              | None => dyn_cast_Function (stripPointerCasts (getCalledValue cs))
              end in
    match CF with
    | None =>
        let calledValue := stripPointerCasts (getCalledValue cs) in
        if isa_ConstantPointerNull calledValue then
          Some (insert_CompleteSites cs (incr_DirCall st))
        else
          let st := incr_IndCall st in
          let st := foldl (λ st F, push_scc T cs F st) st (callee_range T cs) in
          let F1 := sccLeader T (getCaller cs) in
          let st := push_scc T cs F1 st in
          match getNodeForValue T (getCaller cs) (getCalledValue cs) with
          | None => None
          | Some N =>
              let open := negb (isIncompleteNode N) && negb (isExternalNode N) in
              let st :=
                if open then
                  let st := IndMap_touch cs st in
                  if negb (length (IndMap_at cs st) =? 0)
                  then incr_CompleteInd (insert_CompleteSites cs st)
                  else st
                else st in
              let st :=
                if open then
                  let st := IndMap_touch cs st in
                  if length (IndMap_at cs st) =? 0
                  then incr_CompleteEmpty st
                  else st
                else st in
              Some st
          end
    | Some CF =>
        Some (insert_CompleteSites cs (IndMap_push_back cs CF (incr_DirCall st)))
    end.

Definition isCallOrInvoke (B : Instruction) : bool :=
  match iOpcode B with OpCall | OpInvoke => true | OpOther => false end.

(** The loop over the instructions of one basic block. *)
Fixpoint visitBlock (T : DSA) (Fn : IRFunction) (F : BasicBlock) (st : CTF)
  : option CTF :=
  match F with
  | [] => Some st
  | B :: rest =>
      if isCallOrInvoke B then
        match visitCallSite T {| getInstruction := B; getCaller := fName Fn |} st with
        | Some st' => visitBlock T Fn rest st'
        | None => None
        end
      else visitBlock T Fn rest st
  end.

(** The loop over the basic blocks of one function. *)
Fixpoint visitBlocks (T : DSA) (Fn : IRFunction) (Fs : list BasicBlock) (st : CTF)
  : option CTF :=
  match Fs with
  | [] => Some st
  | F :: rest =>
      match visitBlock T Fn F st with
      | Some st' => visitBlocks T Fn rest st'
      | None => None
      end
  end.

(** [CallTargetFinder::findIndTargets]. *)
Fixpoint findIndTargets (T : DSA) (M : Module_) (st : CTF) : option CTF :=
  match M with
  | [] => Some st
  | Fn :: rest =>
      if negb (isDeclaration Fn) then
        match visitBlocks T Fn (fBlocks Fn) st with
        | Some st' => findIndTargets T rest st'
        | None => None
        end
      else findIndTargets T rest st
  end.

(** [CallTargetFinder::runOnModule]. *)
Definition runOnModule (T : DSA) (M : Module_) (st : CTF) : option (bool * CTF) :=
  match findIndTargets T M st with
  | Some st' => Some (false, st')
  | None => None
  end.

(** *** The textual report *)

Definition hexDigit (d : nat) : ascii :=
  nth d (list_ascii_of_string "0123456789abcdef") "0"%char.

Fixpoint write_hex_aux (fuel n : nat) (acc : string) : string :=
  match fuel with
  | 0 => acc
  | S fuel' =>
      let acc' := String (hexDigit (n mod 16)) acc in
      if n / 16 =? 0 then acc' else write_hex_aux fuel' (n / 16) acc'
  end.

(** [raw_ostream << const void*]. *)
Definition write_ptr (p : nat) : string :=
  "0x" +:+ write_hex_aux (S p) p "".

(** The inner loop of [print]: the names of the candidates, each after
    a blank. *)
Fixpoint print_names (O : string) (v : list FuncId) : string :=
  match v with
  | [] => O
  | i :: rest => print_names (O +:+ " " +:+ i) rest
  end.

(** The loop of [print] over [IndMap], [O] being what the stream holds. *)
Fixpoint print_entries (st : CTF) (O : string)
    (m : list (nat * (CallSite * list FuncId))) : string :=
  match m with
  | [] => O
  | (_, (cs, v)) :: rest =>
      if bool_decide (is_Some (getCalledFunction cs)) then
        print_entries st O rest    (* only print indirect *)
      else if isa_Function (stripPointerCasts (getCalledValue cs)) then
        print_entries st O rest
      else
        let O :=
          if negb (isComplete cs st) then
            let O := O +:+ "* " in
            let O := O +:+ write_ptr (iAddr (getInstruction cs)) +:+ " " in
            O +:+ getCaller cs +:+ " " +:+ iName (getInstruction cs) +:+ " "
          else O in
        let O := O +:+ iText (getInstruction cs) +:+ ":" in
        let O := print_names O v in
        print_entries st (O +:+ String "010"%char "") rest
  end.

Definition report_header : string :=
  "[* = incomplete] CS: func list" +:+ String "010"%char "".

(** [CallTargetFinder::print]. *)
Definition print (st : CTF) : string :=
  print_entries st ("" +:+ report_header) (IndMap st).

(** *** The call sites of a module, in the order the finder visits them *)

Definition blockCallSites (Fn : IRFunction) (F : BasicBlock) : list CallSite :=
  (λ B, {| getInstruction := B; getCaller := fName Fn |}) <$> filter (λ B, isCallOrInvoke B = true) F.

Definition functionCallSites (Fn : IRFunction) : list CallSite :=
  fBlocks Fn ≫= blockCallSites Fn.

Definition moduleCallSites (M : Module_) : list CallSite :=
  filter (λ Fn, isDeclaration Fn = false) M ≫= functionCallSites.

(** The finder run over a list of sites. *)
Fixpoint visitSites (T : DSA) (l : list CallSite) (st : CTF) : option CTF :=
  match l with
  | [] => Some st
  | cs :: rest =>
      match visitCallSite T cs st with
      | Some st' => visitSites T rest st'
      | None => None
      end
  end.

(** *** Vocabulary for the statements

    The sites the finder classifies as direct, as calls of null, and as
    indirect. *)
Definition isSkippedSite (cs : CallSite) : bool :=
  isa_UndefValue (getCalledValue cs) || isa_InlineAsm (getCalledValue cs).

Definition isDirectSite (cs : CallSite) : bool :=
  isa_Function (stripPointerCasts (getCalledValue cs)).

Definition isNullSite (cs : CallSite) : bool :=
  negb (isSkippedSite cs) && isa_ConstantPointerNull (stripPointerCasts (getCalledValue cs)).

Definition isIndirectSite (cs : CallSite) : bool :=
  negb (isSkippedSite cs) && negb (isDirectSite cs)
  && negb (isa_ConstantPointerNull (stripPointerCasts (getCalledValue cs))).

(** The members of the SCC of [F] whose leader is bound in the scalar
    map of the globals graph. *)
Definition scc_in_SM (T : DSA) (F : FuncId) : list FuncId :=
  filter (λ f, SM_find T (getLeaderForGlobal T f) = true) (scc_range T F).

(** The candidate list of an indirect site: the SCCs of its callees in
    the call graph, then the SCC of its caller. *)
Definition candidates (T : DSA) (cs : CallSite) : list FuncId :=
  (callee_range T cs ≫= scc_in_SM T) ++ scc_in_SM T (sccLeader T (getCaller cs)).

(** Whether the node of the called value is neither incomplete nor
    external. *)
Definition nodeIsClosed (T : DSA) (cs : CallSite) : bool :=
  match getNodeForValue T (getCaller cs) (getCalledValue cs) with
  | Some N => negb (isIncompleteNode N) && negb (isExternalNode N)
  | None => false
  end.

(** The members other than [IndMap]. *)
Definition frame (st : CTF) : list CallSite * gset nat * (nat * nat * nat * nat) :=
  (AllSites st, CompleteSites st, (DirCall st, IndCall st, CompleteInd st, CompleteEmpty st)).

(** The state of an indirect site when its node is looked up. *)
Definition afterCandidates (T : DSA) (cs : CallSite) (st : CTF) : CTF :=
  push_scc T cs (sccLeader T (getCaller cs))
    (foldl (λ st F, push_scc T cs F st) (incr_IndCall (push_AllSites cs st))
           (callee_range T cs)).

(** The two completeness tests at the end of the indirect branch. *)
Definition finishIndirect (closed : bool) (cs : CallSite) (st : CTF) : CTF :=
  let st :=
    if closed then
      let st := IndMap_touch cs st in
      if negb (length (IndMap_at cs st) =? 0)
      then incr_CompleteInd (insert_CompleteSites cs st)
      else st
    else st in
  if closed then
    let st := IndMap_touch cs st in
    if length (IndMap_at cs st) =? 0
    then incr_CompleteEmpty st
    else st
  else st.

(** What a visit of [cs] appends to [IndMap[cs]]. *)
Definition added (T : DSA) (cs : CallSite) : list FuncId :=
  if isSkippedSite cs then []
  else match dyn_cast_Function (stripPointerCasts (getCalledValue cs)) with
       | Some CF => [CF]
       | None =>
           if isa_ConstantPointerNull (stripPointerCasts (getCalledValue cs))
           then [] else candidates T cs
       end.

(** Whether a visit of [cs] inserts it into [CompleteSites], [prior]
    being what [IndMap[cs]] held before. *)
Definition marks (T : DSA) (cs : CallSite) (prior : list FuncId) : bool :=
  negb (isSkippedSite cs)
  && (isDirectSite cs
      || isa_ConstantPointerNull (stripPointerCasts (getCalledValue cs))
      || (nodeIsClosed T cs && negb (length (prior ++ candidates T cs) =? 0))).

(** Whether a visit of [cs] increments [CompleteEmpty]. *)
Definition countsEmpty (T : DSA) (cs : CallSite) (prior : list FuncId) : bool :=
  isIndirectSite cs && nodeIsClosed T cs && (length (prior ++ candidates T cs) =? 0).

(** The candidate names of one report line. *)
Definition names_text (v : list FuncId) : string :=
  foldr (λ i acc, " " +:+ i +:+ acc) "" v.

(** The line [print] writes for an entry of [IndMap] it does not skip. *)
Definition site_line (st : CTF) (e : CallSite * list FuncId) : string :=
  (if isComplete e.1 st then ""
   else "* " +:+ write_ptr (iAddr (getInstruction e.1)) +:+ " "
        +:+ getCaller e.1 +:+ " " +:+ iName (getInstruction e.1) +:+ " ")
  +:+ iText (getInstruction e.1) +:+ ":" +:+ names_text e.2 +:+ String "010"%char "".

(** The entries of [IndMap] that [print] does not skip: those whose
    called value is not a function once pointer casts are stripped. *)
Definition reported_entries (st : CTF) : list (CallSite * list FuncId) :=
  filter (λ e, isDirectSite e.1 = false) (IndMap st).*2.

Definition flatten (lines : list string) : string :=
  foldr String.append "" lines.

(** The number of line ends in a report. *)
Fixpoint count_lines (s : string) : nat :=
  match s with
  | EmptyString => 0
  | String c s' => (if Ascii.eqb c "010"%char then 1 else 0) + count_lines s'
  end.

(** The claim that the report has the header and one line for each call
    site of the module. *)
Definition one_line_per_site (T : DSA) (M : Module_) : Prop :=
  ∀ st', findIndTargets T M CTF_init = Some st' →
         count_lines (print st') = 1 + length (moduleCallSites M).

(** The claim that sites calling a function, null or undef end up in
    [CompleteSites]. *)
Definition trivial_sites_complete (T : DSA) (M : Module_) : Prop :=
  ∀ st' cs, findIndTargets T M CTF_init = Some st' → cs ∈ moduleCallSites M →
            isDirectSite cs = true
            ∨ isa_ConstantPointerNull (getCalledValue cs) = true
            ∨ isa_UndefValue (getCalledValue cs) = true →
            isComplete cs st' = true.

(** *** Example modules *)

Definition call_inst (addr : nat) (v : Value) (name text : string) : Instruction :=
  {| iAddr := addr; iOpcode := OpCall; iCalledValue := v;
     iName := name; iText := text |}.

Definition other_inst (addr : nat) (name text : string) : Instruction :=
  {| iAddr := addr; iOpcode := OpOther; iCalledValue := VLocal "";
     iName := name; iText := text |}.

(** The module of the test [fp2.ll]: [@call] calls through its
    parameter, [@main] calls [@call] directly. *)
Definition fp2_cval : Instruction :=
  call_inst 16 (VLocal "fp") "cval" "  %cval = call i8* %fp(i8* %arg)".

Definition fp2_mval2 : Instruction :=
  call_inst 48 (VFunction "call") "mval2"
            "  %mval2 = call i8* @call(i8* (i8*)* @foo, i8* %mval)".

Definition fp2_module : Module_ :=
  [ {| fName := "call";
       fBlocks := [[fp2_cval; other_inst 24 "" "  ret i8* %cval"]] |};
    {| fName := "main";
       fBlocks := [[other_inst 40 "mval" "  %mval = alloca i8"; fp2_mval2;
                    other_inst 56 "" "  ret i64 0"]] |};
    {| fName := "foo"; fBlocks := [[other_inst 72 "" "  ret i8* %fval"]] |} ].

(** An analysis result for it that resolves [%fp] to [@foo], with every
    function its own SCC and only [@foo] bound in the scalar map. *)
Definition fp2_DSA : DSA :=
  {| callee_range := λ cs, if decide (csKey cs = 16) then ["foo"] else [];
     scc_range := λ F, [F];
     sccLeader := λ F, F;
     getLeaderForGlobal := λ F, F;
     SM_find := λ g, bool_decide (g = "foo");
     getNodeForValue := λ _ _, Some 0%N |}.

(** A module with one site of every kind. *)
Definition sample_sites : list Instruction :=
  [ call_inst 1 (VFunction "foo") "a" "  %a = call i8* @foo()";
    call_inst 2 (VBitCast (VFunction "foo")) "b"
              "  %b = call i32 bitcast (i8* ()* @foo to i32 ()*)()";
    call_inst 3 VNull "c" "  %c = call i8* null()";
    call_inst 4 VUndef "d" "  %d = call i8* undef()";
    call_inst 5 VInlineAsm "" "  call void asm sideeffect ...";
    call_inst 6 (VLocal "fp") "e" "  %e = call i8* %fp()";
    call_inst 7 (VLocal "gp") "f" "  %f = call i8* %gp()";
    call_inst 8 (VLocal "hp") "g" "  %g = call i8* %hp()";
    other_inst 9 "" "  ret void" ].

Definition sample_module : Module_ :=
  [ {| fName := "ext"; fBlocks := [] |};
    {| fName := "main"; fBlocks := [sample_sites] |};
    {| fName := "foo"; fBlocks := [[other_inst 10 "" "  ret i8* null"]] |} ].

(** [%fp] and [%hp] resolve to [@foo]; the node of [%hp] is incomplete,
    the node of [%gp] holds no function. *)
Definition sample_DSA : DSA :=
  {| callee_range := λ cs, if bool_decide (csKey cs = 6 ∨ csKey cs = 8)
                           then ["foo"] else [];
     scc_range := λ F, [F];
     sccLeader := λ F, F;
     getLeaderForGlobal := λ F, F;
     SM_find := λ g, bool_decide (g = "foo");
     getNodeForValue := λ _ v, match v with
                               | VLocal "hp" => Some NodeTy.Incomplete
                               | _ => Some 0%N
                               end |}.

Definition sample_site (n : nat) : option CallSite :=
  moduleCallSites sample_module !! n.

(** *** Vocabulary for further statements *)

(** Whether a visit of [cs] leaves an entry for it in [IndMap]: a
    direct site always, an indirect site when it has a candidate or its
    node is neither incomplete nor external. *)
Definition hasEntry (T : DSA) (cs : CallSite) : bool :=
  isDirectSite cs
  || (isIndirectSite cs
      && (negb (length (candidates T cs) =? 0) || nodeIsClosed T cs)).

(** The entry of a freshly visited site. *)
Definition entryOf (T : DSA) (cs : CallSite) : option (CallSite * list FuncId) :=
  if hasEntry T cs then Some (cs, added T cs) else None.

(** The sites on which the assertion of [findIndTargets] fails. *)
Definition assertionFails (T : DSA) (cs : CallSite) : Prop :=
  isIndirectSite cs = true
  ∧ getNodeForValue T (getCaller cs) (getCalledValue cs) = None.

(** No line end in a string. *)
Definition one_line (s : string) : Prop := count_lines s = 0.

End CallTargets.

(** ** The Steensgaard driver ([lib/DSA/Steensgaard.cpp]) *)

Module Steens.

(** *** DS-nodes, handles and graphs

    [DSNode.h], [DSGraph.h] and their implementation are not part of
    the sources; the data model and the graph operations below follow
    the design document.  A graph owns an arena of nodes named by their
    address.  Handles of this model point at offset 0 of their node, so
    the offset delta of a forwarding link is 0 and a node is never
    folded; the type record of a node is left out. *)

Abbreviation NodeId := nat.

Inductive GlobalValue : Type :=
| GFunction (f : FuncId)
| GVariable (name : string).

#[global] Instance GlobalValue_eq_dec : EqDecision GlobalValue.
Proof. solve_decision. Defined.

(** Modelled from the spec: the DS-node of [DSNode.h], with its size,
    flags, edge map, globals list and forwarding pointer. *)
Record DSNode := {
  Size : N;
  NodeType : N;                      (* the flag bits *)
  Links : gmap N NodeId;             (* edge map: byte offset to target *)
  Globals : list GlobalValue;
  Forward : option NodeId            (* forwarding pointer, None: representative *)
}.

(** A handle: a node, or the null handle. *)
Abbreviation DSNodeHandle := (option NodeId).

Abbreviation NodeStore := (gmap NodeId DSNode).

(** A value of the scalar map: a local [(function, name)] or a global. *)
Abbreviation SValue := (string * string + string)%type.

Definition local (f x : string) : SValue := inl (f, x).
Definition global (g : string) : SValue := inr g.

(** Modelled from the spec: the call-site record of [DSGraph.h]; a
    direct site records its callee function, an indirect one the handle
    of the callee node. *)
Record DSCallSite := {
  Site : nat;                        (* the call instruction *)
  CalleeF : option FuncId;           (* direct call: the callee *)
  CalleeN : DSNodeHandle;            (* indirect call: the callee node *)
  RetVal : DSNodeHandle;
  VarArgVal : DSNodeHandle;
  CallArgs : list DSNodeHandle       (* the pointer arguments *)
}.

Definition isDirectCall (CS : DSCallSite) : bool :=
  match CalleeF CS with Some _ => true | None => false end.

(** Modelled from the spec: the graph of [DSGraph.h]: node set, scalar
    map, return and vararg nodes, call-site list. *)
Record DSGraph := {
  Nodes : NodeStore;
  ScalarMap : gmap SValue DSNodeHandle;
  ReturnNodes : gmap FuncId DSNodeHandle;
  VANodes : gmap FuncId DSNodeHandle;
  FunctionCalls : list DSCallSite
}.

Definition set_Nodes (nodes : NodeStore) (G : DSGraph) : DSGraph :=
  {| Nodes := nodes; ScalarMap := ScalarMap G; ReturnNodes := ReturnNodes G;
     VANodes := VANodes G; FunctionCalls := FunctionCalls G |}.

Definition emptyGraph : DSGraph :=
  {| Nodes := ∅; ScalarMap := ∅; ReturnNodes := ∅; VANodes := ∅;
     FunctionCalls := [] |}.

(** *** Normalisation *)

(** Modelled from the spec: [DSNodeHandle::getNode], not part of the
    sources.  A handle is read by following the forwarding chain of its
    node to the representative; [fuel] bounds the links followed. *)
Fixpoint getNode_fuel (fuel : nat) (nodes : NodeStore) (n : NodeId) : NodeId :=
  match fuel with
  | 0 => n
  | S fuel' =>
      match nodes !! n with
      | Some node =>
          match Forward node with
          | Some t => getNode_fuel fuel' nodes t
          | None => n
          end
      | None => n
      end
  end.

(** A chain never has more links than the arena has nodes. *)
Definition getNode (nodes : NodeStore) (n : NodeId) : NodeId :=
  getNode_fuel (size nodes) nodes n.

(** *** Merging

    [merge(h1, h2)] normalises both handles; the same representative:
    done.  Otherwise the larger node is the representative [r] (on a
    tie the first), the other one [s]: flags and globals of [s] are
    united into [r], every edge of [s] is merged with the edge of [r]
    at that offset or installed if [r] has none, and [s] is forwarded
    to [r] and gives up its edges and globals. *)

(** The union of two globals lists, in insertion order and without
    duplicates. *)
Definition unionGlobals (l k : list GlobalValue) : list GlobalValue :=
  l ++ list_difference k l.

(** The pairs of targets that the edges of [s] add to the work of a
    merge into [r]. *)
Definition edgeWork (Nr Ns : DSNode) : list (NodeId * NodeId) :=
  omap (λ e, match Links Nr !! e.1 with
             | Some t => Some (t, e.2)
             | None => None
             end)
       (map_to_list (Links Ns)).

(** The representative after the merge. *)
Definition mergedInto (Nr Ns : DSNode) : DSNode :=
  {| Size := Size Nr;
     NodeType := N.lor (NodeType Nr) (NodeType Ns);
     Links := Links Nr ∪ Links Ns;
     Globals := unionGlobals (Globals Nr) (Globals Ns);
     Forward := None |}.

(** The merged-away node after the merge. *)
Definition forwardedTo (r : NodeId) (Ns : DSNode) : DSNode :=
  {| Size := Size Ns; NodeType := NodeType Ns; Links := ∅; Globals := [];
     Forward := Some r |}.

(** Modelled from the spec: one step of the merge of [DSNode.cpp], which
    is not part of the sources.  [None] when both handles normalise to
    one node (or to none), else the new store and the pairs of edge
    targets still to merge. *)
Definition mergeStep (nodes : NodeStore) (a b : NodeId)
  : option (NodeStore * list (NodeId * NodeId)) :=
  let n1 := getNode nodes a in
  let n2 := getNode nodes b in
  if decide (n1 = n2) then None
  else
    match nodes !! n1, nodes !! n2 with
    | Some N1, Some N2 =>
        let '(r, Nr, s, Ns) :=
          if (Size N2 <=? Size N1)%N then (n1, N1, n2, N2) else (n2, N2, n1, N1) in
        Some (<[s := forwardedTo r Ns]> (<[r := mergedInto Nr Ns]> nodes),
              edgeWork Nr Ns)
    | _, _ => None
    end.

(** Modelled from the spec: the recursion of the merge through the
    edges, as a work list.  Every unification forwards one more node,
    which [fuel] counts. *)
Fixpoint mergeLoop (fuel : nat) : NodeStore → list (NodeId * NodeId) → option NodeStore :=
  fix go (nodes : NodeStore) (work : list (NodeId * NodeId)) {struct work} :=
    match work with
    | [] => Some nodes
    | (a, b) :: rest =>
        match mergeStep nodes a b with
        | None => go nodes rest
        | Some (nodes', pending) =>
            match fuel with
            | 0 => None
            | S fuel' => mergeLoop fuel' nodes' (pending ++ rest)
            end
        end
    end.

(** Modelled from the spec: [DSNodeHandle::mergeWith], not part of the
    sources; a null handle has nothing to merge. *)
Definition mergeWith (nodes : NodeStore) (h1 h2 : DSNodeHandle) : option NodeStore :=
  match h1, h2 with
  | Some a, Some b => mergeLoop (size nodes) nodes [(a, b)]
  | _, _ => Some nodes
  end.

(** *** The module and the per-function information the driver reads *)

Record FunctionInfo := {
  fnName : FuncId;
  fnIsDeclaration : bool;
  fnHasInternalLinkage : bool;
  fnPtrArgs : list string            (* the pointer-typed formals, in order *)
}.

Record IRModule := {
  mFunctions : list FunctionInfo;
  (* functionIsCallable(CS.getCallSite(), F) of the base class *)
  functionIsCallable : nat → FuncId → bool
}.

Definition findFunction (M : IRModule) (F : FuncId) : option FunctionInfo :=
  list_find (λ fi, fnName fi = F) (mFunctions M) ≫= λ p, Some p.2.

(** [F->isDeclaration()]; a function the module does not list has no
    body. *)
Definition isDeclaration (M : IRModule) (F : FuncId) : bool :=
  match findFunction M F with
  | Some fi => fnIsDeclaration fi
  | None => true
  end.

(** *** [mergeInGraph] *)

(** The handle a map binds to a key, null if it binds none. *)
Definition handleOf {K} `{Countable K} (m : gmap K DSNodeHandle) (k : K)
  : DSNodeHandle :=
  match m !! k with Some h => h | None => None end.

(** Formals and actuals in order; trailing extras of either side go
    with the vararg handle of the other side. *)
Fixpoint argPairs (formals actuals : list DSNodeHandle) (vaF vaCS : DSNodeHandle)
  : list (DSNodeHandle * DSNodeHandle) :=
  match formals, actuals with
  | f :: fs, a :: as_ => (f, a) :: argPairs fs as_ vaF vaCS
  | [], _ => (λ a, (vaF, a)) <$> actuals
  | _, [] => (λ f, (f, vaCS)) <$> formals
  end.

Fixpoint mergeAll (nodes : NodeStore) (pairs : list (DSNodeHandle * DSNodeHandle))
  : option NodeStore :=
  match pairs with
  | [] => Some nodes
  | (h1, h2) :: rest =>
      match mergeWith nodes h1 h2 with
      | Some nodes' => mergeAll nodes' rest
      | None => None
      end
  end.

(** The handles [mergeInGraph] merges for a site and a callee: return
    with return, vararg with vararg, formals with actuals. *)
Definition callBindings (M : IRModule) (G : DSGraph) (CS : DSCallSite) (F : FuncId)
  : list (DSNodeHandle * DSNodeHandle) :=
  let retF := handleOf (ReturnNodes G) F in
  let vaF := handleOf (VANodes G) F in
  let formals :=
    match findFunction M F with
    | Some fi => (λ x, handleOf (ScalarMap G) (local F x)) <$> fnPtrArgs fi
    | None => []
    end in
  (retF, RetVal CS) :: (vaF, VarArgVal CS)
  :: argPairs formals (CallArgs CS) vaF (VarArgVal CS).

(** Modelled from the spec: [DSGraph::mergeInGraph], not part of the
    sources, for the case the driver uses: the callee graph is the
    graph itself, so nothing is cloned and the handles of the callee
    are merged in place with those of the site. *)
Definition mergeInGraph (M : IRModule) (G : DSGraph) (CS : DSCallSite) (F : FuncId)
  : option DSGraph :=
  match mergeAll (Nodes G) (callBindings M G CS F) with
  | Some nodes' => Some (set_Nodes nodes' G)
  | None => None
  end.

(** *** The driver *)

Abbreviation FuncSet := (gset FuncId).

(** The functions of the globals list of a node. *)
Definition functionsOf (node : DSNode) : list FuncId :=
  omap (λ g, match g with GFunction f => Some f | GVariable _ => None end)
       (Globals node).

(** Modelled from the spec: [DSNode::addFullFunctionSet], not part of
    the sources; the functions of the globals list of the node are
    added to the set. *)
Definition addFullFunctionSet (node : DSNode) (Callees : FuncSet) : FuncSet :=
  Callees ∪ list_to_set (functionsOf node).

(** Modelled from the spec: [DSCallSite::getCalleeNode], not part of
    the sources; the node the callee handle normalises to. *)
Definition getCalleeNode (G : DSGraph) (CS : DSCallSite) : option DSNode :=
  match CalleeN CS with
  | Some n => Nodes G !! getNode (Nodes G) n
  | None => None
  end.

(** The filter loop of [getAllCallees]: the iterator walks the sorted
    vector and erases what is not callable from the site. *)
Fixpoint eraseUncallable (M : IRModule) (CS : DSCallSite) (It : list FuncId)
  : list FuncId :=
  match It with
  | [] => []
  | F :: rest =>
      if functionIsCallable M (Site CS) F
      then F :: eraseUncallable M CS rest
      else eraseUncallable M CS rest
  end.

(** [SteensgaardDataStructures::getAllCallees]. *)
Definition getAllCallees (M : IRModule) (G : DSGraph) (CS : DSCallSite)
    (Callees : FuncSet) : FuncSet :=
  match CalleeF CS with
  | Some F =>
      if negb (isDeclaration M F) then {[F]} ∪ Callees else Callees
  | None =>
      let TempCallees : FuncSet :=
        match getCalleeNode G CS with
        | Some node => addFullFunctionSet node ∅
        | None => ∅
        end in
      let TempCallees := eraseUncallable M CS (elements TempCallees) in
      Callees ∪ list_to_set TempCallees
  end.

(** The members of the pass: the result graph and the per-site callee
    sets, keyed by the position of the site in the call list of the
    graph (the address of the list element). *)
Record SteensgaardDataStructures := {
  ResultGraph : DSGraph;
  CallGraph : gmap nat FuncSet
}.

(** The loop of [buildCallGraph] from the site at position [i] on. *)
Fixpoint buildCallGraph_from (M : IRModule) (G : DSGraph) (i : nat)
    (Calls : list DSCallSite) (CG : gmap nat FuncSet) (changed : bool)
  : bool * gmap nat FuncSet :=
  match Calls with
  | [] => (changed, CG)
  | CurCall :: rest =>
      let Callees := getAllCallees M G CurCall ∅ in
      let OldCallees := default ∅ (CG !! i) in
      let changed := changed || negb (bool_decide (OldCallees = Callees)) in
      buildCallGraph_from M G (S i) rest (<[i := Callees]> CG) changed
  end.

(** [SteensgaardDataStructures::buildCallGraph]. *)
Definition buildCallGraph (M : IRModule) (st : SteensgaardDataStructures)
  : bool * SteensgaardDataStructures :=
  let '(changed, CG) :=
    buildCallGraph_from M (ResultGraph st) 0 (FunctionCalls (ResultGraph st))
                        (CallGraph st) false in
  (changed, {| ResultGraph := ResultGraph st; CallGraph := CG |}).

(** The loop over the targets of one site in the body of the fixpoint
    loop. *)
Fixpoint mergeTargets (M : IRModule) (G : DSGraph) (CurCall : DSCallSite)
    (CallTargets : list FuncId) : option DSGraph :=
  match CallTargets with
  | [] => Some G
  | F :: rest =>
      if negb (isDeclaration M F) then
        match mergeInGraph M G CurCall F with
        | Some G' => mergeTargets M G' CurCall rest
        | None => None
        end
      else mergeTargets M G CurCall rest
  end.

(** The loop over the call sites in the body of the fixpoint loop. *)
Fixpoint mergeCalls (M : IRModule) (CG : gmap nat FuncSet) (G : DSGraph) (i : nat)
    (Calls : list DSCallSite) : option DSGraph :=
  match Calls with
  | [] => Some G
  | CurCall :: rest =>
      let CallTargets := default ∅ (CG !! i) in
      match mergeTargets M G CurCall (elements CallTargets) with
      | Some G' => mergeCalls M CG G' (S i) rest
      | None => None
      end
  end.

(** The body of the [while] loop of [runOnModuleInternal]. *)
Definition loopBody (M : IRModule) (st : SteensgaardDataStructures)
  : option SteensgaardDataStructures :=
  match mergeCalls M (CallGraph st) (ResultGraph st) 0
                   (FunctionCalls (ResultGraph st)) with
  | Some G => Some {| ResultGraph := G; CallGraph := CallGraph st |}
  | None => None
  end.

(** [while (buildCallGraph()) { ... }]: the loop has no bound of its
    own; [fuel] bounds the number of times its condition is
    evaluated. *)
Fixpoint fixpointLoop (fuel : nat) (M : IRModule) (st : SteensgaardDataStructures)
  : option SteensgaardDataStructures :=
  match fuel with
  | 0 => None
  | S fuel' =>
      let '(changed, st1) := buildCallGraph M st in
      if changed then
        match loopBody M st1 with
        | Some st2 => fixpointLoop fuel' M st2
        | None => None
        end
      else Some st1
  end.

(** *** Vocabulary for the statements *)

(** The forwarding pointer of a node of the store. *)
Definition fwd (nodes : NodeStore) (n : NodeId) : option NodeId :=
  nodes !! n ≫= Forward.

(** [chain nodes n r k]: following [k] forwarding links from [n] ends
    in [r], which is not forwarded. *)
Inductive chain (nodes : NodeStore) : NodeId → NodeId → nat → Prop :=
| chain_end n : fwd nodes n = None → chain nodes n n 0
| chain_step n t r k :
    fwd nodes n = Some t → chain nodes t r k → chain nodes n r (S k).

(** The number of forwarded nodes. *)
Definition nfwd (nodes : NodeStore) : nat :=
  size (filter (λ e, is_Some (Forward e.2)) nodes).

(** A store is well formed when forwarding has no cycle: every chain
    ends, within as many links as there are forwarded nodes. *)
Definition WF (nodes : NodeStore) : Prop :=
  ∀ n, ∃ r k, chain nodes n r k ∧ k ≤ nfwd nodes.

(** The store after [s] has been merged into [r]. *)
Definition unified (nodes : NodeStore) (r s : NodeId) (Nr Ns : DSNode) : NodeStore :=
  <[s := forwardedTo r Ns]> (<[r := mergedInto Nr Ns]> nodes).

(** The functions of the node a handle normalises to. *)
Definition funcsAt (nodes : NodeStore) (n : NodeId) : FuncSet :=
  match nodes !! getNode nodes n with
  | Some node => list_to_set (functionsOf node)
  | None => ∅
  end.

(** Every handle reaches at least the functions it reached before. *)
Definition grows (nodes nodes' : NodeStore) : Prop :=
  ∀ n, funcsAt nodes n ⊆ funcsAt nodes' n.

(** Every function of a globals list is in [U]. *)
Definition bounded (U : FuncSet) (nodes : NodeStore) : Prop :=
  ∀ n node, nodes !! n = Some node → list_to_set (functionsOf node) ⊆ U.

(** What merging does to a store: it stays well formed, handles reach
    more functions, and no function appears from nowhere. *)
Definition extends (nodes nodes' : NodeStore) : Prop :=
  WF nodes' ∧ grows nodes nodes' ∧ (∀ U, bounded U nodes → bounded U nodes').

(** All functions of all globals lists of a store. *)
Definition allFunctions (nodes : NodeStore) : FuncSet :=
  ⋃ ((λ e, list_to_set (functionsOf e.2)) <$> map_to_list nodes).

(** The sum of the sizes of the callee sets of the first [n] sites. *)
Definition totalCallees (CG : gmap nat FuncSet) (n : nat) : nat :=
  sum_list ((λ i, size (default ∅ (CG !! i))) <$> seq 0 n).

(** The state at the head of the fixpoint loop before its condition is
    evaluated for the [k]-th time (counting from 0), if the loop gets
    there. *)
Fixpoint loopHead (k : nat) (M : IRModule) (st : SteensgaardDataStructures)
  : option SteensgaardDataStructures :=
  match k with
  | 0 => Some st
  | S k' =>
      match loopHead k' M st with
      | Some st' =>
          let '(changed, st1) := buildCallGraph M st' in
          if changed then loopBody M st1 else None
      | None => None
      end
  end.

(** The callee set of the site at position [i] as the [k]-th
    evaluation of [buildCallGraph] computes it. *)
Definition calleesAt (k : nat) (M : IRModule) (st : SteensgaardDataStructures)
    (i : nat) : option FuncSet :=
  match loopHead k M st with
  | Some st' => CallGraph (buildCallGraph M st').2 !! i
  | None => None
  end.

(** The candidate set in the words of the design: the called function
    minus declarations for a direct site, the functions of the globals
    of the callee node that are callable from the site otherwise. *)
Definition candidateSet (M : IRModule) (G : DSGraph) (CS : DSCallSite) : FuncSet :=
  match CalleeF CS with
  | Some F => filter (λ F, isDeclaration M F = false) ({[F]} : FuncSet)
  | None =>
      match getCalleeNode G CS with
      | Some node =>
          filter (λ F, functionIsCallable M (Site CS) F = true)
                 (list_to_set (functionsOf node) : FuncSet)
      | None => ∅
      end
  end.

(** The invariant of the fixpoint loop from its second round on: the
    stored callee sets are below the ones the graph now gives. *)
Definition loopInv (M : IRModule) (U : FuncSet) (st : SteensgaardDataStructures)
  : Prop :=
  WF (Nodes (ResultGraph st))
  ∧ bounded U (Nodes (ResultGraph st))
  ∧ ∀ j CS, FunctionCalls (ResultGraph st) !! j = Some CS →
            default ∅ (CallGraph st !! j) ⊆ candidateSet M (ResultGraph st) CS.

(** Modelled from the spec: [DSGraph::spliceFrom], not part of the
    sources; every node and every map entry of [RHS] moves into the
    graph.  Nodes keep their addresses, so the node set is the disjoint
    union. *)
Definition spliceFrom (G RHS : DSGraph) : DSGraph :=
  {| Nodes := Nodes G ∪ Nodes RHS;
     ScalarMap := ScalarMap G ∪ ScalarMap RHS;
     ReturnNodes := ReturnNodes G ∪ ReturnNodes RHS;
     VANodes := VANodes G ∪ VANodes RHS;
     FunctionCalls := FunctionCalls G ++ FunctionCalls RHS |}.

(** The loop of [runOnModuleInternal] over the functions of the
    module; [DS] is the analysis the local graphs come from. *)
Definition spliceLocalGraphs (M : IRModule) (DS : FuncId → DSGraph) : DSGraph :=
  foldl (λ G fi, if negb (fnIsDeclaration fi)
                 then spliceFrom G (DS (fnName fi)) else G)
        emptyGraph (mFunctions M).

Definition hasInternalLinkage (M : IRModule) (F : FuncId) : bool :=
  match findFunction M F with
  | Some fi => fnHasInternalLinkage fi
  | None => false
  end.

(** The loop that erases the return nodes of the functions with
    internal linkage. *)
Definition eraseInternalReturnNodes (M : IRModule) (G : DSGraph) : DSGraph :=
  {| Nodes := Nodes G; ScalarMap := ScalarMap G;
     ReturnNodes := filter (λ e, hasInternalLinkage M e.1 = false) (ReturnNodes G);
     VANodes := VANodes G; FunctionCalls := FunctionCalls G |}.

(** [SteensgaardDataStructures::runOnModuleInternal]: the splice of the
    local graphs, the fixpoint loop, the erasure of internal return
    nodes, [CallGraph.clear()] and [return false].  The passes over the
    flags, the dead-node sweeps, the globals graph and the exported
    call graph read and write parts of the graph that none of the
    statements below depends on, and are left out. *)
Definition runOnModuleInternal (fuel : nat) (M : IRModule) (DS : FuncId → DSGraph)
  : option (bool * SteensgaardDataStructures) :=
  let st := {| ResultGraph := spliceLocalGraphs M DS; CallGraph := ∅ |} in
  match fixpointLoop fuel M st with
  | Some st' =>
      Some (false, {| ResultGraph := eraseInternalReturnNodes M (ResultGraph st');
                      CallGraph := ∅ |})
  | None => None
  end.

(** [SteensgaardDataStructures::runOnModule]: [init] takes the graphs
    of the analysis [DS] over, then the pass proper runs. *)
Definition runOnModule (fuel : nat) (M : IRModule) (DS : FuncId → DSGraph)
  : option (bool * SteensgaardDataStructures) :=
  runOnModuleInternal fuel M DS.

(** Modelled from the spec: the test predicate
    [-check-same-node=A:x,B:y], whose code is not part of the sources;
    the scalar-map handles of the two locals normalise to the same
    node. *)
Definition sameNode (G : DSGraph) (v1 v2 : SValue) : bool :=
  match handleOf (ScalarMap G) v1, handleOf (ScalarMap G) v2 with
  | Some n1, Some n2 =>
      bool_decide (getNode (Nodes G) n1 = getNode (Nodes G) n2)
  | _, _ => false
  end.

(** *** The module of [fp2.ll] *)

Definition plainNode (size flags : N) (globals : list GlobalValue) : DSNode :=
  {| Size := size; NodeType := flags; Links := ∅; Globals := globals;
     Forward := None |}.

Definition fp2_module : IRModule :=
  {| mFunctions :=
       [ {| fnName := "call"; fnIsDeclaration := false;
            fnHasInternalLinkage := true; fnPtrArgs := ["fp"; "arg"] |};
         {| fnName := "main"; fnIsDeclaration := false;
            fnHasInternalLinkage := false; fnPtrArgs := ["argv"] |};
         {| fnName := "foo"; fnIsDeclaration := false;
            fnHasInternalLinkage := true; fnPtrArgs := ["fval"] |} ];
     (* the one indirect site, the call of %fp in @call at 16, can call
        the functions that take and return one byte pointer *)
     functionIsCallable := (λ site F, bool_decide (site = 16 ∧ F = "foo")) |}.

(** Modelled from the spec: the graphs the local analysis, which is
    not part of the sources, delivers for the three functions: a node
    for every pointer value, a call-site record for every call, the
    returned value as return node, and in [@main] a node for the
    address of [@foo]. *)
Definition fp2_local (F : FuncId) : DSGraph :=
  if decide (F = "call") then
    {| Nodes := {[ 1 := plainNode 0 0 []; 2 := plainNode 0 0 [];
                   3 := plainNode 0 0 [] ]};
       ScalarMap := {[ local "call" "fp" := Some 1; local "call" "arg" := Some 2;
                       local "call" "cval" := Some 3 ]};
       ReturnNodes := {[ "call" := Some 3 ]};
       VANodes := ∅;
       FunctionCalls := [ {| Site := 16; CalleeF := None; CalleeN := Some 1;
                             RetVal := Some 3; VarArgVal := None;
                             CallArgs := [Some 2] |} ] |}
  else if decide (F = "main") then
    {| Nodes := {[ 4 := plainNode 1 NodeTy.AllocaBit []; 5 := plainNode 0 0 [];
                   6 := plainNode 0 NodeTy.GlobalBit [GFunction "foo"];
                   7 := plainNode 0 0 [] ]};
       ScalarMap := {[ local "main" "mval" := Some 4; local "main" "mval2" := Some 5;
                       global "foo" := Some 6; local "main" "argv" := Some 7 ]};
       ReturnNodes := {[ "main" := None ]};
       VANodes := ∅;
       FunctionCalls := [ {| Site := 48; CalleeF := Some "call"; CalleeN := None;
                             RetVal := Some 5; VarArgVal := None;
                             CallArgs := [Some 6; Some 4] |} ] |}
  else if decide (F = "foo") then
    {| Nodes := {[ 8 := plainNode 0 0 [] ]};
       ScalarMap := {[ local "foo" "fval" := Some 8 ]};
       ReturnNodes := {[ "foo" := Some 8 ]};
       VANodes := ∅;
       FunctionCalls := [] |}
  else emptyGraph.

(** Two nodes with a pointer field each, to distinct targets. *)
Definition two_cells : NodeStore :=
  {[ 1 := {| Size := 8; NodeType := 0; Links := {[ 0%N := 3 ]}; Globals := [];
             Forward := None |};
     2 := {| Size := 8; NodeType := 0; Links := {[ 0%N := 4 ]}; Globals := [];
             Forward := None |};
     3 := plainNode 1 0 [GFunction "f"];
     4 := plainNode 1 0 [GFunction "g"] ]}.

(** The pass state at the head of the fixpoint loop for [fp2.ll]. *)
Definition fp2_start : SteensgaardDataStructures :=
  {| ResultGraph := spliceLocalGraphs fp2_module fp2_local; CallGraph := ∅ |}.

(** *** Vocabulary for the statements about merging *)

(** A handle is null or names a node of the store. *)
Definition validHandle (nodes : NodeStore) (h : DSNodeHandle) : Prop :=
  ∀ n, h = Some n → n ∈ dom nodes.

#[global] Instance validHandle_dec nodes h : Decision (validHandle nodes h).
Proof.
  refine (match h with
          | Some n => cast_if (decide (n ∈ dom nodes))
          | None => left _
          end); unfold validHandle; naive_solver.
Defined.

(** Every forwarding pointer and every edge of the store leads to a
    node of the store. *)
Definition closed (nodes : NodeStore) : Prop :=
  map_Forall (λ _ node,
                validHandle nodes (Forward node)
                ∧ map_Forall (λ _ t, t ∈ dom nodes) (Links node))
             nodes.

#[global] Instance closed_dec nodes : Decision (closed nodes).
Proof. unfold closed. apply _. Defined.

(** The handles of the maps and of the call-site records of a graph
    name nodes of the graph. *)
Definition validGraph (G : DSGraph) : Prop :=
  map_Forall (λ _ h, validHandle (Nodes G) h) (ScalarMap G)
  ∧ map_Forall (λ _ h, validHandle (Nodes G) h) (ReturnNodes G)
  ∧ map_Forall (λ _ h, validHandle (Nodes G) h) (VANodes G)
  ∧ Forall (λ CS, validHandle (Nodes G) (RetVal CS)
                  ∧ validHandle (Nodes G) (VarArgVal CS)
                  ∧ Forall (validHandle (Nodes G)) (CallArgs CS))
           (FunctionCalls G).

#[global] Instance validGraph_dec G : Decision (validGraph G).
Proof. unfold validGraph. apply _. Defined.

(** Two handles that are not null normalise to the same node. *)
Definition merged (nodes : NodeStore) (h1 h2 : DSNodeHandle) : Prop :=
  ∀ a b, h1 = Some a → h2 = Some b → getNode nodes a = getNode nodes b.

Definition pairsValid (nodes : NodeStore)
    (pairs : list (DSNodeHandle * DSNodeHandle)) : Prop :=
  ∀ h1 h2, (h1, h2) ∈ pairs → validHandle nodes h1 ∧ validHandle nodes h2.

Definition pairsMerged (nodes : NodeStore)
    (pairs : list (DSNodeHandle * DSNodeHandle)) : Prop :=
  ∀ h1 h2, (h1, h2) ∈ pairs → merged nodes h1 h2.

(** The second store has the nodes of the first, and what normalised
    to one node in the first still does in the second. *)
Definition coarser (nodes nodes' : NodeStore) : Prop :=
  dom nodes' = dom nodes
  ∧ ∀ a b, getNode nodes a = getNode nodes b → getNode nodes' a = getNode nodes' b.

(** The stored callee sets have been merged: for every site and every
    function with a body in its stored set, the handles
    [mergeInGraph] binds normalise to the same nodes. *)
Definition calleesMerged (M : IRModule) (st : SteensgaardDataStructures) : Prop :=
  ∀ j CS F, FunctionCalls (ResultGraph st) !! j = Some CS →
            F ∈ default ∅ (CallGraph st !! j) → isDeclaration M F = false →
            pairsMerged (Nodes (ResultGraph st))
                        (callBindings M (ResultGraph st) CS F).

(** *** [ResolveFunctionCall] of the older driver

    The copy of the driver that [lib/DSA/Basic.cpp] carries resolves a
    call with a function of its own instead of [mergeInGraph]. *)

Definition isNull (h : DSNodeHandle) : bool :=
  match h with Some _ => false | None => true end.

(** The loop over the formals [AI] of [F]: a formal the scalar map
    binds is merged with the pointer argument at [PtrArgIdx], which
    then advances; the loop ends with the formals or with the pointer
    arguments.  [ptrArgs] are the pointer arguments from [PtrArgIdx]
    on. *)
Fixpoint resolveArgs (ValMap : gmap SValue DSNodeHandle) (F : FuncId)
    (formals : list string) (ptrArgs : list DSNodeHandle) (nodes : NodeStore)
  : option NodeStore :=
  match formals with
  | [] => Some nodes
  | AI :: formals' =>
      match ptrArgs with
      | [] => Some nodes
      | p :: ptrArgs' =>
          match ValMap !! local F AI with
          | Some h =>
              match mergeWith nodes h p with
              | Some nodes' => resolveArgs ValMap F formals' ptrArgs' nodes'
              | None => None
              end
          | None => resolveArgs ValMap F formals' ptrArgs nodes
          end
      end
  end.

(** [SteensgaardDataStructures::ResolveFunctionCall]; [formals] are
    the names of all formals of [F], in order. *)
Definition ResolveFunctionCall (G : DSGraph) (F : FuncId) (formals : list string)
    (Call : DSCallSite) : option DSGraph :=
  let ValMap := ScalarMap G in
  let RetVal_ := handleOf (ReturnNodes G) F in
  let nodes1 :=
    if negb (isNull (RetVal Call)) && negb (isNull RetVal_)
    then mergeWith (Nodes G) RetVal_ (RetVal Call)
    else Some (Nodes G) in
  match nodes1 with
  | None => None
  | Some nodes1 =>
      let VAVal := handleOf (VANodes G) F in
      let nodes2 :=
        if negb (isNull (VarArgVal Call)) && negb (isNull VAVal)
        then mergeWith nodes1 VAVal (VarArgVal Call)
        else Some nodes1 in
      match nodes2 with
      | None => None
      | Some nodes2 =>
          match resolveArgs ValMap F formals (CallArgs Call) nodes2 with
          | Some nodes3 => Some (set_Nodes nodes3 G)
          | None => None
          end
      end
  end.

(** The handles the scalar map binds to the formals of [F], in
    order. *)
Definition boundFormals (ValMap : gmap SValue DSNodeHandle) (F : FuncId)
    (formals : list string) : list DSNodeHandle :=
  omap (λ AI, ValMap !! local F AI) formals.

(** *** More examples *)

(** The graph of [@main] of [fp2.ll] alone: its one call is direct. *)
Definition direct_only_start : SteensgaardDataStructures :=
  {| ResultGraph := fp2_local "main"; CallGraph := ∅ |}.

(** A site whose callee node holds a function the module only
    declares, with that function as its stored callee set. *)
Definition declared_only_state : SteensgaardDataStructures :=
  {| ResultGraph :=
       {| Nodes := {[ 1 := plainNode 0 NodeTy.GlobalBit [GFunction "printf"];
                      2 := plainNode 0 0 [] ]};
          ScalarMap := {[ local "main" "fp" := Some 1 ]};
          ReturnNodes := {[ "main" := None ]};
          VANodes := ∅;
          FunctionCalls := [ {| Site := 8; CalleeF := None; CalleeN := Some 1;
                                RetVal := Some 2; VarArgVal := None;
                                CallArgs := [] |} ] |};
     CallGraph := {[ 0 := {["printf"]} ]} |}.

(** The call-site record of the indirect call of [fp2.ll]. *)
Definition fp2_indirect_site : DSCallSite :=
  {| Site := 16; CalleeF := None; CalleeN := Some 1; RetVal := Some 3;
     VarArgVal := None; CallArgs := [Some 2] |}.

End Steens.
(** ** Facts about the ordered map *)

Section OrderedMapFacts.
Context {V : Type}.
Implicit Types (m : list (nat * V)) (v : V).

Lemma om_put_keys k v m e :
  e ∈ om_put k v m → e = (k, v) ∨ e ∈ m.
Proof.
  induction m as [|[k' v'] m IH]; simpl.
  - intros ->%list_elem_of_singleton. by left.
  - repeat case_decide; rewrite !elem_of_cons; intuition auto.
Qed.

Lemma om_put_sorted k v m : om_sorted m → om_sorted (om_put k v m).
Proof.
  induction 1 as [|k' v' m Hall Hs IH]; simpl.
  - constructor; [constructor | constructor].
  - repeat case_decide; subst.
    + by constructor.
    + constructor; [|by constructor].
      constructor; [done|].
      eapply Forall_impl; [exact Hall|]. simpl. lia.
    + constructor; [|done].
      apply Forall_forall. intros e [->|He]%om_put_keys; simpl.
      * lia.
      * by eapply (proj1 (Forall_forall _ _) Hall).
Qed.

Lemma om_find_put_eq k v m : om_find k (om_put k v m) = Some v.
Proof.
  induction m as [|[k' v'] m IH]; simpl.
  - by rewrite decide_True.
  - repeat case_decide; simpl; repeat case_decide; try done; lia.
Qed.

Lemma om_find_put_ne k k' v m :
  k ≠ k' → om_find k' (om_put k v m) = om_find k' m.
Proof.
  intros Hne. induction m as [|[k2 v2] m IH]; simpl.
  - repeat case_decide; done || lia.
  - repeat (case_decide; simpl); try done; try lia.
    all: subst; try lia.
Qed.
End OrderedMapFacts.

(** ** Facts about the call-target finder *)

Module CallTargetsFacts.
Import CallTargets.

(** *** The finder is a fold over the call sites of the module *)

Lemma visitSites_app T l1 l2 st :
  visitSites T (l1 ++ l2) st = visitSites T l1 st ≫= visitSites T l2.
Proof.
  revert st. induction l1 as [|cs l1 IH]; intros st; simpl; [done|].
  destruct (visitCallSite T cs st); simpl; [apply IH | done].
Qed.

Lemma visitBlock_visitSites T Fn F st :
  visitBlock T Fn F st = visitSites T (blockCallSites Fn F) st.
Proof.
  revert st. unfold blockCallSites.
  induction F as [|B F IH]; intros st; [done|].
  rewrite filter_cons. cbn [visitBlock]. destruct (isCallOrInvoke B) eqn:HB.
  - rewrite decide_True by done. cbn [fmap list_fmap visitSites].
    destruct (visitCallSite _ _ _); [apply IH | done].
  - rewrite decide_False by done. apply IH.
Qed.

Lemma visitBlocks_visitSites T Fn Fs st :
  visitBlocks T Fn Fs st = visitSites T (Fs ≫= blockCallSites Fn) st.
Proof.
  revert st. induction Fs as [|F Fs IH]; intros st; simpl; [done|].
  rewrite visitSites_app, visitBlock_visitSites.
  destruct (visitSites T (blockCallSites Fn F) st); simpl; [apply IH | done].
Qed.

Lemma findIndTargets_visitSites T M st :
  findIndTargets T M st = visitSites T (moduleCallSites M) st.
Proof.
  revert st. unfold moduleCallSites.
  induction M as [|Fn M IH]; intros st; [done|].
  rewrite filter_cons. cbn [findIndTargets].
  destruct (isDeclaration Fn) eqn:HD; cbn [negb].
  - rewrite decide_False by done. apply IH.
  - rewrite decide_True by done. rewrite bind_cons.
    rewrite visitSites_app, visitBlocks_visitSites. unfold functionCallSites.
    destruct (visitSites T _ st); simpl; [apply IH | done].
Qed.

(** *** What one visit does to the members of the pass *)

Lemma vec_at_put k k' cs v m :
  vec_at k' (om_put k (cs, v) m) = if decide (k = k') then v else vec_at k' m.
Proof.
  unfold vec_at. case_decide as Hk.
  - subst. by rewrite om_find_put_eq.
  - by rewrite om_find_put_ne.
Qed.

Lemma IndMap_push_back_at k cs F st :
  vec_at k (IndMap (IndMap_push_back cs F st))
  = if decide (csKey cs = k) then vec_at k (IndMap st) ++ [F] else vec_at k (IndMap st).
Proof.
  unfold IndMap_push_back, IndMap_at. simpl. rewrite vec_at_put.
  case_decide; by subst.
Qed.

Lemma IndMap_touch_at k cs st :
  vec_at k (IndMap (IndMap_touch cs st)) = vec_at k (IndMap st).
Proof.
  unfold IndMap_touch. destruct (om_find (csKey cs) (IndMap st)) eqn:Hf; [done|].
  simpl. rewrite vec_at_put. case_decide; [|done].
  subst. unfold vec_at. by rewrite Hf.
Qed.

Lemma IndMap_touch_frame cs st : frame (IndMap_touch cs st) = frame st.
Proof. unfold IndMap_touch. by destruct (om_find _ _). Qed.

Lemma push_scc_at k T cs F st :
  vec_at k (IndMap (push_scc T cs F st))
  = if decide (csKey cs = k) then vec_at k (IndMap st) ++ scc_in_SM T F
    else vec_at k (IndMap st).
Proof.
  unfold push_scc, scc_in_SM. revert st.
  induction (scc_range T F) as [|f l IH]; intros st; simpl.
  - case_decide; [by rewrite app_nil_r | done].
  - rewrite IH, filter_cons. simpl.
    destruct (SM_find T (getLeaderForGlobal T f)) eqn:Hf.
    + rewrite IndMap_push_back_at.
      repeat case_decide; try done. by rewrite <-app_assoc.
    + repeat case_decide; done.
Qed.

Lemma push_scc_frame T cs F st : frame (push_scc T cs F st) = frame st.
Proof.
  unfold push_scc. revert st.
  induction (scc_range T F) as [|f l IH]; intros st; simpl; [done|].
  rewrite IH. destruct (SM_find _ _); reflexivity.
Qed.

Lemma push_callees_at k T cs l st :
  vec_at k (IndMap (foldl (λ st F, push_scc T cs F st) st l))
  = if decide (csKey cs = k) then vec_at k (IndMap st) ++ (l ≫= scc_in_SM T)
    else vec_at k (IndMap st).
Proof.
  revert st. induction l as [|F l IH]; intros st; simpl.
  - case_decide; [by rewrite app_nil_r | done].
  - rewrite IH, push_scc_at. case_decide; [by rewrite <-app_assoc | done].
Qed.

Lemma push_callees_frame T cs l st :
  frame (foldl (λ st F, push_scc T cs F st) st l) = frame st.
Proof.
  revert st. induction l as [|F l IH]; intros st; simpl; [done|].
  by rewrite IH, push_scc_frame.
Qed.

Lemma afterCandidates_at k T cs st :
  vec_at k (IndMap (afterCandidates T cs st))
  = if decide (csKey cs = k) then vec_at k (IndMap st) ++ candidates T cs
    else vec_at k (IndMap st).
Proof.
  unfold afterCandidates, candidates. rewrite push_scc_at, push_callees_at. simpl.
  case_decide; [by rewrite <-app_assoc | done].
Qed.

Lemma afterCandidates_frame T cs st :
  frame (afterCandidates T cs st) = frame (incr_IndCall (push_AllSites cs st)).
Proof. unfold afterCandidates. by rewrite push_scc_frame, push_callees_frame. Qed.

Lemma called_function_strip cs :
  match getCalledFunction cs with
  | Some F => Some F
  | None => dyn_cast_Function (stripPointerCasts (getCalledValue cs))
  end = dyn_cast_Function (stripPointerCasts (getCalledValue cs)).
Proof. unfold getCalledFunction. by destruct (getCalledValue cs). Qed.

Lemma visitCallSite_eq T cs st :
  visitCallSite T cs st =
  if isSkippedSite cs then Some (push_AllSites cs st)
  else
    match dyn_cast_Function (stripPointerCasts (getCalledValue cs)) with
    | Some CF =>
        Some (insert_CompleteSites cs
                (IndMap_push_back cs CF (incr_DirCall (push_AllSites cs st))))
    | None =>
        if isa_ConstantPointerNull (stripPointerCasts (getCalledValue cs))
        then Some (insert_CompleteSites cs (incr_DirCall (push_AllSites cs st)))
        else
          match getNodeForValue T (getCaller cs) (getCalledValue cs) with
          | None => None
          | Some N =>
              Some (finishIndirect (negb (isIncompleteNode N) && negb (isExternalNode N))
                      cs (afterCandidates T cs st))
          end
    end.
Proof.
  unfold visitCallSite, isSkippedSite. rewrite called_function_strip.
  destruct (isa_UndefValue _); [done|].
  destruct (isa_InlineAsm _); [done|]. simpl.
  destruct (dyn_cast_Function _); [done|].
  destruct (isa_ConstantPointerNull _); [done|].
  destruct (getNodeForValue _ _ _); done.
Qed.

Lemma finishIndirect_at k closed cs st :
  vec_at k (IndMap (finishIndirect closed cs st)) = vec_at k (IndMap st).
Proof.
  unfold finishIndirect.
  destruct closed; [|done].
  repeat match goal with
         | |- context [if ?b then _ else _] => destruct b
         end; repeat (simpl; rewrite ?IndMap_touch_at); done.
Qed.

Lemma IndMap_touch_touch cs st :
  IndMap_at cs (IndMap_touch cs st) = IndMap_at cs st.
Proof. apply IndMap_touch_at. Qed.

Lemma frame_CompleteSites st st' :
  frame st = frame st' → CompleteSites st = CompleteSites st'.
Proof. unfold frame. by intros [=]. Qed.

Lemma frame_CompleteEmpty st st' :
  frame st = frame st' → CompleteEmpty st = CompleteEmpty st'.
Proof. unfold frame. by intros [=]. Qed.

Lemma finishIndirect_CompleteSites closed cs st :
  CompleteSites (finishIndirect closed cs st)
  = if closed && negb (length (IndMap_at cs st) =? 0)
    then {[csKey cs]} ∪ CompleteSites st else CompleteSites st.
Proof.
  unfold finishIndirect. destruct closed; [|done]. cbn [andb].
  destruct (length (IndMap_at cs st) =? 0) eqn:Hlen;
    rewrite !IndMap_touch_touch, Hlen; cbn [negb].
  - rewrite !IndMap_touch_touch, Hlen. cbn [CompleteSites incr_CompleteEmpty].
    by rewrite !(frame_CompleteSites _ _ (IndMap_touch_frame _ _)).
  - unfold IndMap_at at 1. cbn [IndMap incr_CompleteInd insert_CompleteSites].
    fold (IndMap_at cs (IndMap_touch cs st)). rewrite IndMap_touch_touch, Hlen.
    rewrite (frame_CompleteSites _ _ (IndMap_touch_frame _ _)).
    cbn [CompleteSites incr_CompleteInd insert_CompleteSites].
    by rewrite (frame_CompleteSites _ _ (IndMap_touch_frame _ _)).
Qed.

Lemma finishIndirect_CompleteEmpty closed cs st :
  CompleteEmpty (finishIndirect closed cs st)
  = if closed && (length (IndMap_at cs st) =? 0)
    then S (CompleteEmpty st) else CompleteEmpty st.
Proof.
  unfold finishIndirect. destruct closed; [|done]. cbn [andb].
  destruct (length (IndMap_at cs st) =? 0) eqn:Hlen;
    rewrite !IndMap_touch_touch, Hlen; cbn [negb].
  - rewrite !IndMap_touch_touch, Hlen. cbn [CompleteEmpty incr_CompleteEmpty].
    by rewrite !(frame_CompleteEmpty _ _ (IndMap_touch_frame _ _)).
  - unfold IndMap_at at 1. cbn [IndMap incr_CompleteInd insert_CompleteSites].
    fold (IndMap_at cs (IndMap_touch cs st)). rewrite IndMap_touch_touch, Hlen.
    rewrite (frame_CompleteEmpty _ _ (IndMap_touch_frame _ _)).
    cbn [CompleteEmpty incr_CompleteInd insert_CompleteSites].
    by rewrite (frame_CompleteEmpty _ _ (IndMap_touch_frame _ _)).
Qed.

Lemma direct_not_skipped cs : isDirectSite cs = true → isSkippedSite cs = false.
Proof. unfold isDirectSite, isSkippedSite. by destruct (getCalledValue cs). Qed.

Lemma direct_dyn_cast cs :
  isDirectSite cs
  = match dyn_cast_Function (stripPointerCasts (getCalledValue cs)) with
    | Some _ => true
    | None => false
    end.
Proof. unfold isDirectSite. by destruct (stripPointerCasts _). Qed.

Lemma visit_at T cs st st' k :
  visitCallSite T cs st = Some st' →
  vec_at k (IndMap st')
  = if decide (csKey cs = k) then vec_at k (IndMap st) ++ added T cs
    else vec_at k (IndMap st).
Proof.
  rewrite visitCallSite_eq. unfold added.
  destruct (isSkippedSite cs).
  { intros [= <-]. simpl. case_decide; by rewrite ?app_nil_r. }
  destruct (dyn_cast_Function _).
  { intros [= <-]. cbn [IndMap insert_CompleteSites].
    by rewrite IndMap_push_back_at. }
  destruct (isa_ConstantPointerNull _).
  { intros [= <-]. simpl. case_decide; by rewrite ?app_nil_r. }
  destruct (getNodeForValue _ _ _); [|done].
  intros [= <-]. by rewrite finishIndirect_at, afterCandidates_at.
Qed.

Lemma visit_CompleteSites T cs st st' :
  visitCallSite T cs st = Some st' →
  CompleteSites st'
  = if marks T cs (IndMap_at cs st) then {[csKey cs]} ∪ CompleteSites st
    else CompleteSites st.
Proof.
  rewrite visitCallSite_eq. unfold marks, nodeIsClosed.
  rewrite direct_dyn_cast.
  destruct (isSkippedSite cs); [by intros [= <-]|].
  destruct (dyn_cast_Function _); [by intros [= <-]|].
  destruct (isa_ConstantPointerNull _); [by intros [= <-]|].
  destruct (getNodeForValue _ _ _) as [N|]; [|done].
  intros [= <-]. rewrite finishIndirect_CompleteSites. simpl.
  unfold IndMap_at. rewrite afterCandidates_at, decide_True by done.
  by rewrite (frame_CompleteSites _ _ (afterCandidates_frame _ _ _)).
Qed.

Lemma visit_CompleteEmpty T cs st st' :
  visitCallSite T cs st = Some st' →
  CompleteEmpty st'
  = if countsEmpty T cs (IndMap_at cs st) then S (CompleteEmpty st)
    else CompleteEmpty st.
Proof.
  rewrite visitCallSite_eq. unfold countsEmpty, isIndirectSite, nodeIsClosed.
  rewrite direct_dyn_cast.
  destruct (isSkippedSite cs); [by intros [= <-]|].
  destruct (dyn_cast_Function _); [by intros [= <-]|].
  destruct (isa_ConstantPointerNull _); [by intros [= <-]|].
  destruct (getNodeForValue _ _ _) as [N|]; [|done].
  intros [= <-]. rewrite finishIndirect_CompleteEmpty. simpl.
  unfold IndMap_at. rewrite afterCandidates_at, decide_True by done.
  by rewrite (frame_CompleteEmpty _ _ (afterCandidates_frame _ _ _)).
Qed.

(** *** A run over a list of sites *)

Lemma visitSites_mono T l st st' :
  visitSites T l st = Some st' →
  CompleteSites st ⊆ CompleteSites st'
  ∧ ∀ k, vec_at k (IndMap st) `prefix_of` vec_at k (IndMap st').
Proof.
  revert st. induction l as [|cs l IH]; intros st; simpl.
  - by intros [= <-].
  - destruct (visitCallSite T cs st) as [st1|] eqn:Hv; [|done].
    intros [Hsub Hpre]%IH. split.
    + rewrite (visit_CompleteSites _ _ _ _ Hv) in Hsub.
      destruct (marks _ _ _); set_solver.
    + intros k. etrans; [|apply Hpre].
      rewrite (visit_at _ _ _ _ k Hv). case_decide; [|done].
      by apply prefix_app_r.
Qed.

Lemma visitSites_other T l st st' k :
  visitSites T l st = Some st' → k ∉ csKey <$> l →
  vec_at k (IndMap st') = vec_at k (IndMap st)
  ∧ (k ∈ CompleteSites st' ↔ k ∈ CompleteSites st).
Proof.
  revert st. induction l as [|cs l IH]; intros st; simpl.
  - by intros [= <-].
  - destruct (visitCallSite T cs st) as [st1|] eqn:Hv; [|done].
    intros Hrun [Hne Hnin]%not_elem_of_cons.
    destruct (IH _ Hrun Hnin) as [-> ->].
    rewrite (visit_at _ _ _ _ k Hv), decide_False by done.
    rewrite (visit_CompleteSites _ _ _ _ Hv).
    split; [done|]. destruct (marks _ _ _); set_solver.
Qed.

Lemma visitSites_nodup T l st st' cs :
  NoDup (csKey <$> l) → cs ∈ l → visitSites T l st = Some st' →
  IndMap_at cs st' = IndMap_at cs st ++ added T cs
  ∧ (csKey cs ∈ CompleteSites st'
     ↔ csKey cs ∈ CompleteSites st ∨ marks T cs (IndMap_at cs st) = true).
Proof.
  revert st. induction l as [|c l IH]; intros st Hnd Hin; simpl.
  { by apply elem_of_nil in Hin. }
  destruct (visitCallSite T c st) as [st1|] eqn:Hv; [|done]. intros Hrun.
  rewrite fmap_cons in Hnd. apply NoDup_cons in Hnd as [Hfresh Hnd].
  apply elem_of_cons in Hin as [->|Hin].
  - destruct (visitSites_other _ _ _ _ _ Hrun Hfresh) as [Hvec HCS].
    unfold IndMap_at. rewrite Hvec, HCS.
    rewrite (visit_at _ _ _ _ _ Hv), decide_True by done.
    rewrite (visit_CompleteSites _ _ _ _ Hv).
    split; [done|]. unfold IndMap_at. destruct (marks _ _ _); set_solver.
  - assert (csKey c ≠ csKey cs) as Hne.
    { intros Heq. apply Hfresh. rewrite Heq. by apply list_elem_of_fmap_2. }
    destruct (IH _ Hnd Hin Hrun) as [-> ->].
    unfold IndMap_at. rewrite (visit_at _ _ _ _ _ Hv), decide_False by done.
    rewrite (visit_CompleteSites _ _ _ _ Hv).
    split; [done|]. destruct (marks T c _); set_solver.
Qed.

Lemma filter_ext_elem {A} (P Q : A → Prop) `{!∀ x, Decision (P x)}
    `{!∀ x, Decision (Q x)} (l : list A) :
  (∀ x, x ∈ l → P x ↔ Q x) → filter P l = filter Q l.
Proof.
  induction l as [|x l IH]; intros Hext; [done|].
  rewrite !filter_cons.
  rewrite IH by (intros y Hy; apply Hext; by right).
  destruct (decide (P x)) as [HP|HP], (decide (Q x)) as [HQ|HQ]; try done.
  - destruct HQ. apply Hext; [by left|done].
  - destruct HP. apply Hext; [by left|done].
Qed.

Lemma visitSites_CompleteEmpty T l st st' :
  NoDup (csKey <$> l) → visitSites T l st = Some st' →
  CompleteEmpty st'
  = CompleteEmpty st
    + length (filter (λ cs, countsEmpty T cs (IndMap_at cs st) = true) l).
Proof.
  revert st. induction l as [|c l IH]; intros st Hnd; simpl.
  { intros [= <-]. simpl. lia. }
  destruct (visitCallSite T c st) as [st1|] eqn:Hv; [|done]. intros Hrun.
  rewrite fmap_cons in Hnd. apply NoDup_cons in Hnd as [Hfresh Hnd].
  rewrite (IH _ Hnd Hrun), (visit_CompleteEmpty _ _ _ _ Hv), filter_cons.
  rewrite (filter_ext_elem (λ cs, countsEmpty T cs (IndMap_at cs st1) = true)
                           (λ cs, countsEmpty T cs (IndMap_at cs st) = true)).
  - case_decide as Hc; simpl in Hc.
    + rewrite Hc. simpl. lia.
    + apply not_true_is_false in Hc. rewrite Hc. lia.
  - intros cs Hcs. unfold IndMap_at.
    rewrite (visit_at _ _ _ _ _ Hv), decide_False; [done|].
    intros Heq. apply Hfresh. rewrite Heq. by apply list_elem_of_fmap_2.
Qed.


Lemma visitSites_marked T l st st' cs :
  cs ∈ l → visitSites T l st = Some st' →
  (∀ prior, marks T cs prior = true) → csKey cs ∈ CompleteSites st'.
Proof.
  revert st. induction l as [|c l IH]; intros st Hin; simpl.
  { by apply elem_of_nil in Hin. }
  destruct (visitCallSite T c st) as [st1|] eqn:Hv; [|done]. intros Hrun Hm.
  apply elem_of_cons in Hin as [->|Hin]; [|by eapply IH].
  destruct (visitSites_mono _ _ _ _ Hrun) as [Hsub _]. apply Hsub.
  rewrite (visit_CompleteSites _ _ _ _ Hv), Hm. set_solver.
Qed.

(** Which keys are bound: a visit binds no key but that of its site. *)

Lemma IndMap_push_back_find_ne k cs F st :
  csKey cs ≠ k →
  om_find k (IndMap (IndMap_push_back cs F st)) = om_find k (IndMap st).
Proof. intros Hne. unfold IndMap_push_back. simpl. by rewrite om_find_put_ne. Qed.

Lemma IndMap_touch_find_ne k cs st :
  csKey cs ≠ k → om_find k (IndMap (IndMap_touch cs st)) = om_find k (IndMap st).
Proof.
  intros Hne. unfold IndMap_touch. destruct (om_find (csKey cs) _); [done|].
  simpl. by rewrite om_find_put_ne.
Qed.

Lemma push_scc_find_ne k T cs F st :
  csKey cs ≠ k → om_find k (IndMap (push_scc T cs F st)) = om_find k (IndMap st).
Proof.
  intros Hne. unfold push_scc. revert st.
  induction (scc_range T F) as [|f l IH]; intros st; simpl; [done|].
  rewrite IH. destruct (SM_find _ _); [|done].
  by apply IndMap_push_back_find_ne.
Qed.

Lemma afterCandidates_find_ne k T cs st :
  csKey cs ≠ k → om_find k (IndMap (afterCandidates T cs st)) = om_find k (IndMap st).
Proof.
  intros Hne. unfold afterCandidates. rewrite push_scc_find_ne by done.
  assert (∀ st0, om_find k (IndMap (foldl (λ st F, push_scc T cs F st) st0
                                        (callee_range T cs)))
                 = om_find k (IndMap st0)) as Hfold.
  { induction (callee_range T cs) as [|F l IH]; intros st0; simpl; [done|].
    by rewrite IH, push_scc_find_ne. }
  by rewrite Hfold.
Qed.

Lemma finishIndirect_find_ne k closed cs st :
  csKey cs ≠ k →
  om_find k (IndMap (finishIndirect closed cs st)) = om_find k (IndMap st).
Proof.
  intros Hne. unfold finishIndirect. destruct closed; [|done].
  repeat match goal with
         | |- context [if ?b then _ else _] => destruct b
         end; repeat (simpl; rewrite ?IndMap_touch_find_ne by done); done.
Qed.

Lemma visit_find_ne T cs st st' k :
  visitCallSite T cs st = Some st' → csKey cs ≠ k →
  om_find k (IndMap st') = om_find k (IndMap st).
Proof.
  rewrite visitCallSite_eq. intros Hv Hne.
  destruct (isSkippedSite cs); [by injection Hv as <-|].
  destruct (dyn_cast_Function _).
  { injection Hv as <-. cbn [IndMap insert_CompleteSites].
    by rewrite IndMap_push_back_find_ne. }
  destruct (isa_ConstantPointerNull _); [by injection Hv as <-|].
  destruct (getNodeForValue _ _ _); [|done].
  injection Hv as <-.
  by rewrite finishIndirect_find_ne, afterCandidates_find_ne.
Qed.

Lemma visit_skipped T cs st :
  isSkippedSite cs = true → visitCallSite T cs st = Some (push_AllSites cs st).
Proof. intros Hs. by rewrite visitCallSite_eq, Hs. Qed.

Lemma visitSites_find_ne T l st st' k :
  visitSites T l st = Some st' → k ∉ csKey <$> l →
  om_find k (IndMap st') = om_find k (IndMap st).
Proof.
  revert st. induction l as [|cs l IH]; intros st; simpl.
  - by intros [= <-].
  - destruct (visitCallSite T cs st) as [st1|] eqn:Hv; [|done].
    intros Hrun [Hne Hnin]%not_elem_of_cons.
    rewrite (IH _ Hrun Hnin). by eapply visit_find_ne.
Qed.

Lemma visitSites_skipped_find T l st st' cs :
  NoDup (csKey <$> l) → cs ∈ l → isSkippedSite cs = true →
  visitSites T l st = Some st' →
  om_find (csKey cs) (IndMap st') = om_find (csKey cs) (IndMap st).
Proof.
  revert st. induction l as [|c l IH]; intros st Hnd Hin Hs; simpl.
  { by apply elem_of_nil in Hin. }
  destruct (visitCallSite T c st) as [st1|] eqn:Hv; [|done]. intros Hrun.
  rewrite fmap_cons in Hnd. apply NoDup_cons in Hnd as [Hfresh Hnd].
  apply elem_of_cons in Hin as [->|Hin].
  - rewrite (visitSites_find_ne _ _ _ _ _ Hrun Hfresh).
    rewrite visit_skipped in Hv by done. by injection Hv as <-.
  - rewrite (IH _ Hnd Hin Hs Hrun). eapply visit_find_ne; [done|].
    intros Heq. apply Hfresh. rewrite Heq. by apply list_elem_of_fmap_2.
Qed.

Lemma visitSites_node T l st st' cs :
  cs ∈ l → isIndirectSite cs = true → visitSites T l st = Some st' →
  is_Some (getNodeForValue T (getCaller cs) (getCalledValue cs)).
Proof.
  revert st. induction l as [|c l IH]; intros st Hin Hind; simpl.
  { by apply elem_of_nil in Hin. }
  destruct (visitCallSite T c st) as [st1|] eqn:Hv; [|done]. intros Hrun.
  apply elem_of_cons in Hin as [->|Hin]; [|by eapply IH].
  rewrite visitCallSite_eq in Hv. unfold isIndirectSite in Hind.
  rewrite direct_dyn_cast in Hind.
  destruct (isSkippedSite c); [done|].
  destruct (dyn_cast_Function _); [done|].
  destruct (isa_ConstantPointerNull _); [done|].
  by destruct (getNodeForValue _ _ _).
Qed.

Lemma added_indirect T cs : isIndirectSite cs = true → added T cs = candidates T cs.
Proof.
  unfold isIndirectSite, added. rewrite direct_dyn_cast.
  destruct (isSkippedSite cs); [done|].
  destruct (dyn_cast_Function _); [done|].
  by destruct (isa_ConstantPointerNull _).
Qed.

Lemma marks_indirect T cs prior :
  isIndirectSite cs = true →
  marks T cs prior = nodeIsClosed T cs && negb (length (prior ++ candidates T cs) =? 0).
Proof.
  unfold isIndirectSite, marks.
  destruct (isSkippedSite cs); [done|].
  destruct (isDirectSite cs); [done|].
  by destruct (isa_ConstantPointerNull _).
Qed.

Lemma isComplete_true cs st : isComplete cs st = true ↔ csKey cs ∈ CompleteSites st.
Proof. unfold isComplete. apply bool_decide_eq_true. Qed.

Lemma length_zero_nil {A} (l : list A) : (length l =? 0) = true ↔ l = [].
Proof. rewrite Nat.eqb_eq. by destruct l. Qed.

(** *** Direct and null sites *)

(** C4 (as amended): every call site of the module whose called value
    is a function once pointer casts are stripped, or is a null constant
    once pointer casts are stripped (and is not itself undef or inline
    asm), is in [CompleteSites] after the finder has run; the visit of a
    site whose called value is undef only records the site in
    [AllSites]. *)
Theorem direct_and_null_sites_complete T M st st' cs :
  findIndTargets T M st = Some st' →
  cs ∈ moduleCallSites M →
  (isDirectSite cs = true ∨ isNullSite cs = true → isComplete cs st' = true)
  ∧ (isa_UndefValue (getCalledValue cs) = true →
     ∀ st0, visitCallSite T cs st0 = Some (push_AllSites cs st0)).
Proof.
  rewrite findIndTargets_visitSites. intros Hrun Hin. split.
  - intros Hkind. apply isComplete_true.
    eapply visitSites_marked; [done..|]. intros prior. unfold marks.
    destruct Hkind as [Hd|Hn].
    + by rewrite (direct_not_skipped _ Hd), Hd.
    + unfold isNullSite in Hn. apply andb_true_iff in Hn as [Hs ->].
      apply negb_true_iff in Hs as ->. simpl. by rewrite orb_true_r.
  - intros Hu st0. apply visit_skipped. unfold isSkippedSite. by rewrite Hu.
Qed.

Lemma direct_and_null_sites_complete_witness :
  ∃ st' cs1 cs2 cs3,
    findIndTargets sample_DSA sample_module CTF_init = Some st'
    ∧ sample_site 0 = Some cs1 ∧ sample_site 1 = Some cs2 ∧ sample_site 2 = Some cs3
    ∧ isComplete cs1 st' = true ∧ isComplete cs2 st' = true
    ∧ isComplete cs3 st' = true.
Proof.
  destruct (findIndTargets sample_DSA sample_module CTF_init) as [st'|] eqn:Hrun;
    [|by vm_compute in Hrun].
  exists st'.
  destruct (sample_site 0) as [cs1|] eqn:H1; [|by vm_compute in H1].
  destruct (sample_site 1) as [cs2|] eqn:H2; [|by vm_compute in H2].
  destruct (sample_site 2) as [cs3|] eqn:H3; [|by vm_compute in H3].
  exists cs1, cs2, cs3. repeat split.
  - apply (direct_and_null_sites_complete sample_DSA sample_module CTF_init st' cs1 Hrun).
    + by eapply list_elem_of_lookup_2.
    + left. vm_compute in H1. by injection H1 as <-.
  - apply (direct_and_null_sites_complete sample_DSA sample_module CTF_init st' cs2 Hrun).
    + by eapply list_elem_of_lookup_2.
    + left. vm_compute in H2. by injection H2 as <-.
  - apply (direct_and_null_sites_complete sample_DSA sample_module CTF_init st' cs3 Hrun).
    + by eapply list_elem_of_lookup_2.
    + right. vm_compute in H3. by injection H3 as <-.
Defined.

(** C4 as stated fails: the site of the sample module that calls undef
    is not in [CompleteSites] after the run. *)
Lemma undef_site_not_complete : ¬ trivial_sites_complete sample_DSA sample_module.
Proof.
  intros Hclaim.
  destruct (findIndTargets sample_DSA sample_module CTF_init) as [st'|] eqn:Hrun;
    [|by vm_compute in Hrun].
  destruct (sample_site 3) as [cs|] eqn:Hcs; [|by vm_compute in Hcs].
  assert (isComplete cs st' = true) as Hc.
  { apply Hclaim; [done| by eapply list_elem_of_lookup_2 |].
    right; right. vm_compute in Hcs. by injection Hcs as <-. }
  vm_compute in Hcs. injection Hcs as <-.
  vm_compute in Hrun. injection Hrun as <-.
  by vm_compute in Hc.
Qed.

(** *** Indirect sites *)

(** C5: after the finder has run on a module (whose call instructions
    have distinct addresses), an indirect site holds its candidate list
    in [IndMap]; it is in [CompleteSites] exactly when the node of its
    called value is neither incomplete nor external and that list is not
    empty; and [CompleteEmpty] counts the indirect sites whose node is
    neither incomplete nor external and whose list is empty. *)
Theorem indirect_site_completeness T M st' cs :
  NoDup (csKey <$> moduleCallSites M) →
  findIndTargets T M CTF_init = Some st' →
  cs ∈ moduleCallSites M →
  isIndirectSite cs = true →
  is_Some (getNodeForValue T (getCaller cs) (getCalledValue cs))
  ∧ IndMap_at cs st' = candidates T cs
  ∧ (isComplete cs st' = true ↔ nodeIsClosed T cs = true ∧ candidates T cs ≠ [])
  ∧ CompleteEmpty st'
    = length (filter (λ c, isIndirectSite c = true ∧ nodeIsClosed T c = true
                           ∧ candidates T c = [])
                     (moduleCallSites M)).
Proof.
  rewrite findIndTargets_visitSites. intros Hnd Hrun Hin Hind.
  destruct (visitSites_nodup _ _ _ _ _ Hnd Hin Hrun) as [Hvec HCS].
  rewrite added_indirect in Hvec by done.
  split; [by eapply visitSites_node|]. split; [done|]. split.
  - rewrite isComplete_true, HCS, marks_indirect by done.
    simpl. rewrite andb_true_iff, negb_true_iff, <-not_true_iff_false.
    rewrite length_zero_nil. set_solver.
  - rewrite (visitSites_CompleteEmpty _ _ _ _ Hnd Hrun). simpl. f_equal.
    apply filter_ext_elem. intros c _. unfold countsEmpty. simpl.
    rewrite !andb_true_iff, length_zero_nil. tauto.
Qed.

Lemma indirect_site_completeness_witness :
  ∃ st' cs6 cs7 cs8,
    findIndTargets sample_DSA sample_module CTF_init = Some st'
    ∧ sample_site 5 = Some cs6 ∧ sample_site 6 = Some cs7 ∧ sample_site 7 = Some cs8
    ∧ (isComplete cs6 st' = true ↔ nodeIsClosed sample_DSA cs6 = true
                                   ∧ candidates sample_DSA cs6 ≠ [])
    ∧ IndMap_at cs7 st' = candidates sample_DSA cs7
    ∧ IndMap_at cs8 st' = candidates sample_DSA cs8
    ∧ CompleteEmpty st' = 1.
Proof.
  assert (NoDup (csKey <$> moduleCallSites sample_module)) as Hnd.
  { vm_compute. repeat (constructor; [set_solver|]). constructor. }
  destruct (findIndTargets sample_DSA sample_module CTF_init) as [st'|] eqn:Hrun;
    [|by vm_compute in Hrun].
  exists st'.
  destruct (sample_site 5) as [cs6|] eqn:H6; [|by vm_compute in H6].
  destruct (sample_site 6) as [cs7|] eqn:H7; [|by vm_compute in H7].
  destruct (sample_site 7) as [cs8|] eqn:H8; [|by vm_compute in H8].
  exists cs6, cs7, cs8.
  assert (isIndirectSite cs6 = true) as Hi6
    by (vm_compute in H6; by injection H6 as <-).
  assert (isIndirectSite cs7 = true) as Hi7
    by (vm_compute in H7; by injection H7 as <-).
  assert (isIndirectSite cs8 = true) as Hi8
    by (vm_compute in H8; by injection H8 as <-).
  pose proof (indirect_site_completeness sample_DSA sample_module st' cs6 Hnd Hrun
                (list_elem_of_lookup_2 _ _ _ H6) Hi6) as (_ & _ & Hc6 & Hce).
  pose proof (indirect_site_completeness sample_DSA sample_module st' cs7 Hnd Hrun
                (list_elem_of_lookup_2 _ _ _ H7) Hi7) as (_ & Hv7 & _ & _).
  pose proof (indirect_site_completeness sample_DSA sample_module st' cs8 Hnd Hrun
                (list_elem_of_lookup_2 _ _ _ H8) Hi8) as (_ & Hv8 & _ & _).
  split; [done|]. split; [done|]. split; [done|]. split; [done|].
  split; [exact Hc6|]. split; [exact Hv7|]. split; [exact Hv8|].
  rewrite Hce. by vm_compute.
Defined.



(** *** Inline asm *)

(** C10: the visit of a site whose called value is inline asm records
    the site in [AllSites] and changes nothing else (no counter, no
    entry of [IndMap], no element of [CompleteSites]); after a run from
    the initial state over a module with distinct instruction addresses
    the site has no entry in [IndMap] and is not in [CompleteSites]. *)
Theorem inline_asm_site_skipped T M st' cs :
  NoDup (csKey <$> moduleCallSites M) →
  findIndTargets T M CTF_init = Some st' →
  cs ∈ moduleCallSites M →
  isa_InlineAsm (getCalledValue cs) = true →
  om_find (csKey cs) (IndMap st') = None
  ∧ isComplete cs st' = false
  ∧ ∀ st, visitCallSite T cs st = Some (push_AllSites cs st).
Proof.
  rewrite findIndTargets_visitSites. intros Hnd Hrun Hin Hasm.
  assert (isSkippedSite cs = true) as Hs.
  { unfold isSkippedSite. rewrite Hasm. apply orb_true_r. }
  split; [|split].
  - by rewrite (visitSites_skipped_find _ _ _ _ _ Hnd Hin Hs Hrun).
  - apply not_true_iff_false. rewrite isComplete_true.
    destruct (visitSites_nodup _ _ _ _ _ Hnd Hin Hrun) as [_ ->].
    unfold marks. rewrite Hs. simpl. set_solver.
  - intros st. by apply visit_skipped.
Qed.

Lemma inline_asm_site_skipped_witness :
  ∃ st' cs, findIndTargets sample_DSA sample_module CTF_init = Some st'
            ∧ sample_site 4 = Some cs
            ∧ om_find (csKey cs) (IndMap st') = None
            ∧ isComplete cs st' = false.
Proof.
  assert (NoDup (csKey <$> moduleCallSites sample_module)) as Hnd.
  { vm_compute. repeat (constructor; [set_solver|]). constructor. }
  destruct (findIndTargets sample_DSA sample_module CTF_init) as [st'|] eqn:Hrun;
    [|by vm_compute in Hrun].
  destruct (sample_site 4) as [cs|] eqn:Hcs; [|by vm_compute in Hcs].
  exists st', cs. split; [done|]. split; [done|].
  assert (isa_InlineAsm (getCalledValue cs) = true) as Hasm
    by (vm_compute in Hcs; by injection Hcs as <-).
  pose proof (inline_asm_site_skipped sample_DSA sample_module st' cs Hnd Hrun
                (list_elem_of_lookup_2 _ _ _ Hcs) Hasm) as (Hfind & Hc & _).
  by split.
Defined.

(** *** [IndMap] stays ordered by address *)

Lemma IndMap_push_back_sorted cs F st :
  om_sorted (IndMap st) → om_sorted (IndMap (IndMap_push_back cs F st)).
Proof. intros Hs. unfold IndMap_push_back. simpl. by apply om_put_sorted. Qed.

Lemma IndMap_touch_sorted cs st :
  om_sorted (IndMap st) → om_sorted (IndMap (IndMap_touch cs st)).
Proof.
  intros Hs. unfold IndMap_touch. destruct (om_find _ _); [done|].
  simpl. by apply om_put_sorted.
Qed.

Lemma push_scc_sorted T cs F st :
  om_sorted (IndMap st) → om_sorted (IndMap (push_scc T cs F st)).
Proof.
  unfold push_scc. revert st.
  induction (scc_range T F) as [|f l IH]; intros st Hs; simpl; [done|].
  apply IH. destruct (SM_find _ _); [|done]. by apply IndMap_push_back_sorted.
Qed.

Lemma afterCandidates_sorted T cs st :
  om_sorted (IndMap st) → om_sorted (IndMap (afterCandidates T cs st)).
Proof.
  intros Hs. unfold afterCandidates. apply push_scc_sorted.
  assert (∀ st0, om_sorted (IndMap st0) →
                 om_sorted (IndMap (foldl (λ st F, push_scc T cs F st) st0
                                          (callee_range T cs)))) as Hfold.
  { induction (callee_range T cs) as [|F l IH]; intros st0 Hs0; simpl; [done|].
    by apply IH, push_scc_sorted. }
  by apply Hfold.
Qed.

Lemma finishIndirect_sorted closed cs st :
  om_sorted (IndMap st) → om_sorted (IndMap (finishIndirect closed cs st)).
Proof.
  intros Hs. unfold finishIndirect. destruct closed; [|done].
  repeat match goal with
         | |- context [if ?b then _ else _] => destruct b
         end; repeat (simpl; apply IndMap_touch_sorted); done.
Qed.

Lemma visit_sorted T cs st st' :
  om_sorted (IndMap st) → visitCallSite T cs st = Some st' → om_sorted (IndMap st').
Proof.
  intros Hs. rewrite visitCallSite_eq.
  destruct (isSkippedSite cs); [by intros [= <-]|].
  destruct (dyn_cast_Function _).
  { intros [= <-]. cbn [IndMap insert_CompleteSites].
    by apply IndMap_push_back_sorted. }
  destruct (isa_ConstantPointerNull _); [by intros [= <-]|].
  destruct (getNodeForValue _ _ _); [|done].
  intros [= <-]. by apply finishIndirect_sorted, afterCandidates_sorted.
Qed.

(** After a run from the initial state [IndMap] lists its sites by
    ascending instruction address, the order in which [print] walks
    them. *)
Lemma findIndTargets_sorted T M st' :
  findIndTargets T M CTF_init = Some st' → om_sorted (IndMap st').
Proof.
  rewrite findIndTargets_visitSites.
  assert (om_sorted (IndMap CTF_init)) as Hs by constructor.
  revert Hs. generalize CTF_init as st.
  induction (moduleCallSites M) as [|cs l IH]; intros st Hs; simpl.
  - by intros [= <-].
  - destruct (visitCallSite T cs st) as [st1|] eqn:Hv; [|done].
    apply IH. by eapply visit_sorted.
Qed.

(** *** The report *)

Lemma string_app_cons (x : ascii) (a b : string) :
  String x a +:+ b = String x (a +:+ b).
Proof. reflexivity. Qed.

Lemma string_app_assoc (a b c : string) : (a +:+ b) +:+ c = a +:+ (b +:+ c).
Proof.
  induction a as [|x a IH]; [done|]. rewrite !string_app_cons. by f_equal.
Qed.

Lemma string_app_empty_r (a : string) : a +:+ "" = a.
Proof.
  induction a as [|x a IH]; [done|]. rewrite string_app_cons. by f_equal.
Qed.

Lemma print_names_text O v : print_names O v = O +:+ names_text v.
Proof.
  revert O. induction v as [|i v IH]; intros O; simpl.
  - by rewrite string_app_empty_r.
  - rewrite IH. by rewrite !string_app_assoc.
Qed.

Lemma called_function_direct cs :
  is_Some (getCalledFunction cs) → isDirectSite cs = true.
Proof.
  unfold getCalledFunction, isDirectSite.
  destruct (getCalledValue cs); simpl; by intros [? [=]] || done.
Qed.

Lemma print_entries_lines st O m :
  print_entries st O m
  = O +:+ flatten (site_line st <$> filter (λ e, isDirectSite e.1 = false) m.*2).
Proof.
  revert O. induction m as [|[k [cs v]] m IH]; intros O; simpl.
  - by rewrite string_app_empty_r.
  - rewrite filter_cons. simpl. case_bool_decide as Hcf.
    + rewrite (called_function_direct _ Hcf). by rewrite decide_False.
    + fold (isDirectSite cs). destruct (isDirectSite cs) eqn:Hd.
      * by rewrite decide_False.
      * rewrite decide_True by done. rewrite IH. simpl.
        rewrite print_names_text. unfold site_line. simpl.
        destruct (isComplete cs st); simpl; by rewrite !string_app_assoc.
Qed.

(** C8 (as amended): the report is the header line followed by one line
    for each entry of [IndMap] whose called value is not a function once
    pointer casts are stripped (direct calls are not printed), in the
    order of [IndMap]; the line of a site that is not complete starts
    with the marker, the line of a complete site starts with the text
    of its instruction. *)
Theorem report_lists_recorded_indirect_sites st :
  print st = report_header +:+ flatten (site_line st <$> reported_entries st)
  ∧ (∀ e, e ∈ reported_entries st →
          e ∈ (IndMap st).*2 ∧ isDirectSite e.1 = false
          ∧ (isComplete e.1 st = false → ∃ rest, site_line st e = "* " +:+ rest)
          ∧ (isComplete e.1 st = true →
             ∃ rest, site_line st e = iText (getInstruction e.1) +:+ ":" +:+ rest))
  ∧ (∀ e, e ∈ (IndMap st).*2 → isDirectSite e.1 = false → e ∈ reported_entries st).
Proof.
  split; [|split].
  - unfold print. by rewrite print_entries_lines.
  - intros e [Hd He]%list_elem_of_filter. repeat split; try done.
    + intros Hc. unfold site_line. rewrite Hc. eexists.
      by rewrite !string_app_assoc.
    + intros Hc. unfold site_line. rewrite Hc. by eexists.
  - intros e He Hd. by apply list_elem_of_filter.
Qed.

Lemma report_lists_recorded_indirect_sites_witness :
  ∃ st, findIndTargets sample_DSA sample_module CTF_init = Some st
        ∧ print st = report_header +:+ flatten (site_line st <$> reported_entries st)
        ∧ length (reported_entries st) = 3.
Proof.
  destruct (findIndTargets sample_DSA sample_module CTF_init) as [st|] eqn:Hrun;
    [|by vm_compute in Hrun].
  exists st. split; [done|]. split.
  - exact (proj1 (report_lists_recorded_indirect_sites st)).
  - vm_compute in Hrun. injection Hrun as <-. by vm_compute.
Defined.

(** C8 as stated fails: after the finder has run on the module of
    [fp2.ll], which has two call sites, the report has the header and
    one line: the direct call in [@main] is not printed. *)
Lemma direct_site_not_reported : ¬ one_line_per_site fp2_DSA fp2_module.
Proof.
  intros Hclaim.
  destruct (findIndTargets fp2_DSA fp2_module CTF_init) as [st'|] eqn:Hrun;
    [|by vm_compute in Hrun].
  specialize (Hclaim st' Hrun).
  vm_compute in Hrun. injection Hrun as <-. by vm_compute in Hclaim.
Qed.

(** *** More on what a visit changes *)

Lemma frame_fields st st' :
  frame st = frame st' →
  AllSites st = AllSites st' ∧ DirCall st = DirCall st'
  ∧ IndCall st = IndCall st' ∧ CompleteInd st = CompleteInd st'.
Proof. unfold frame. by intros [=]. Qed.

Lemma IndMap_touch_fields cs st :
  AllSites (IndMap_touch cs st) = AllSites st
  ∧ DirCall (IndMap_touch cs st) = DirCall st
  ∧ IndCall (IndMap_touch cs st) = IndCall st.
Proof. unfold IndMap_touch. by destruct (om_find _ _). Qed.

Lemma finishIndirect_fields closed cs st :
  AllSites (finishIndirect closed cs st) = AllSites st
  ∧ DirCall (finishIndirect closed cs st) = DirCall st
  ∧ IndCall (finishIndirect closed cs st) = IndCall st.
Proof.
  unfold finishIndirect. destruct closed; [|done].
  repeat match goal with
         | |- context [if ?b then _ else _] => destruct b
         end;
    repeat (simpl;
            match goal with
            | |- context [AllSites (IndMap_touch ?c ?s)] =>
                destruct (IndMap_touch_fields c s) as (-> & -> & ->)
            end); done.
Qed.

Lemma visit_fields T cs st st' :
  visitCallSite T cs st = Some st' →
  AllSites st' = AllSites st ++ [cs]
  ∧ DirCall st' = DirCall st + (if isDirectSite cs || isNullSite cs then 1 else 0)
  ∧ IndCall st' = IndCall st + (if isIndirectSite cs then 1 else 0).
Proof.
  rewrite visitCallSite_eq. unfold isNullSite, isIndirectSite.
  pose proof (direct_not_skipped cs) as Hds.
  rewrite direct_dyn_cast in Hds |- *.
  destruct (isSkippedSite cs) eqn:Hs.
  { intros [= <-]. simpl.
    destruct (dyn_cast_Function _); [by specialize (Hds eq_refl)|].
    simpl. repeat split; lia || done. }
  destruct (dyn_cast_Function _).
  { intros [= <-]. simpl. repeat split; lia || done. }
  destruct (isa_ConstantPointerNull _).
  { intros [= <-]. simpl. repeat split; lia || done. }
  destruct (getNodeForValue _ _ _); [|done].
  intros [= <-].
  destruct (finishIndirect_fields
              (negb (isIncompleteNode n) && negb (isExternalNode n)) cs
              (afterCandidates T cs st)) as (-> & -> & ->).
  destruct (frame_fields _ _ (afterCandidates_frame T cs st)) as (-> & -> & -> & _).
  simpl. repeat split; lia || done.
Qed.

Lemma site_kinds cs :
  (if isDirectSite cs || isNullSite cs then 1 else 0)
  + (if isIndirectSite cs then 1 else 0)
  + (if isSkippedSite cs then 1 else 0) = 1.
Proof.
  unfold isNullSite, isIndirectSite.
  pose proof (direct_not_skipped cs) as Hds.
  destruct (isSkippedSite cs), (isDirectSite cs),
    (isa_ConstantPointerNull _); simpl; try done;
    by specialize (Hds eq_refl).
Qed.

Lemma length_filter_cons_bool {A} (f : A → bool) (x : A) (l : list A) :
  length (filter (λ y, f y = true) (x :: l))
  = (if f x then 1 else 0) + length (filter (λ y, f y = true) l).
Proof. rewrite filter_cons. destruct (f x); by simpl. Qed.

(** *** Every call is recorded and counted *)

(** X1: the finder appends to [AllSites] every call and invoke
    instruction of every function with a body, in the order of the
    module, whatever its called value is; declarations add nothing. *)
Theorem all_sites_recorded T M st st' :
  findIndTargets T M st = Some st' →
  AllSites st' = AllSites st ++ moduleCallSites M
  ∧ (∀ cs, cs ∈ moduleCallSites M →
           isCallOrInvoke (getInstruction cs) = true
           ∧ ∃ Fn, Fn ∈ M ∧ isDeclaration Fn = false ∧ getCaller cs = fName Fn).
Proof.
  rewrite findIndTargets_visitSites. intros Hrun. split.
  - revert st Hrun. induction (moduleCallSites M) as [|cs l IH]; intros st; simpl.
    + intros [= <-]. by rewrite app_nil_r.
    + destruct (visitCallSite T cs st) as [st1|] eqn:Hv; [|done].
      intros Hrun. rewrite (IH _ Hrun).
      destruct (visit_fields _ _ _ _ Hv) as (-> & _). by rewrite <-app_assoc.
  - intros cs. unfold moduleCallSites, functionCallSites, blockCallSites.
    rewrite list_elem_of_bind. intros (Fn & Hcs & [HFn Hin]%list_elem_of_filter).
    apply list_elem_of_bind in Hcs as (F & Hcs & HF).
    apply list_elem_of_fmap in Hcs as (B & -> & [HB _]%list_elem_of_filter).
    split; [done|]. by exists Fn.
Qed.

Lemma all_sites_recorded_witness :
  ∃ st', findIndTargets sample_DSA sample_module CTF_init = Some st'
         ∧ length (AllSites st') = 8.
Proof.
  destruct (findIndTargets sample_DSA sample_module CTF_init) as [st'|] eqn:Hrun;
    [|by vm_compute in Hrun].
  exists st'. split; [done|].
  by rewrite (proj1 (all_sites_recorded sample_DSA sample_module CTF_init st' Hrun)).
Defined.

(** X2: [DirCall] grows by the number of sites that call a function or
    null, [IndCall] by the number of indirect sites, and together with
    the skipped sites (undef, inline asm) they account for every call
    site of the module. *)
Theorem counters_partition_sites T M st st' :
  findIndTargets T M st = Some st' →
  DirCall st' = DirCall st
                + length (filter (λ cs, isDirectSite cs || isNullSite cs = true)
                                 (moduleCallSites M))
  ∧ IndCall st' = IndCall st
                  + length (filter (λ cs, isIndirectSite cs = true) (moduleCallSites M))
  ∧ (DirCall st' - DirCall st) + (IndCall st' - IndCall st)
    + length (filter (λ cs, isSkippedSite cs = true) (moduleCallSites M))
    = length (moduleCallSites M).
Proof.
  rewrite findIndTargets_visitSites.
  revert st. induction (moduleCallSites M) as [|cs l IH]; intros st; simpl.
  { intros [= <-]. simpl. lia. }
  destruct (visitCallSite T cs st) as [st1|] eqn:Hv; [|done]. intros Hrun.
  destruct (IH _ Hrun) as (HD & HI & Hsum).
  destruct (visit_fields _ _ _ _ Hv) as (_ & HD1 & HI1).
  rewrite !length_filter_cons_bool.
  pose proof (site_kinds cs). lia.
Qed.

Lemma counters_partition_sites_witness :
  ∃ st', findIndTargets sample_DSA sample_module CTF_init = Some st'
         ∧ DirCall st' = 3 ∧ IndCall st' = 3.
Proof.
  destruct (findIndTargets sample_DSA sample_module CTF_init) as [st'|] eqn:Hrun;
    [|by vm_compute in Hrun].
  exists st'. split; [done|].
  destruct (counters_partition_sites sample_DSA sample_module CTF_init st' Hrun)
    as (-> & -> & _).
  by vm_compute.
Defined.

(** *** The assertion *)

Lemma visit_None T cs st :
  visitCallSite T cs st = None ↔ assertionFails T cs.
Proof.
  rewrite visitCallSite_eq. unfold assertionFails, isIndirectSite.
  rewrite direct_dyn_cast.
  destruct (isSkippedSite cs); [by split; [|intros [? _]]|].
  destruct (dyn_cast_Function _); [by split; [|intros [? _]]|].
  destruct (isa_ConstantPointerNull _); [by split; [|intros [? _]]|].
  destruct (getNodeForValue _ _ _); [by split; [|intros [_ ?]]|done].
Qed.

(** X3: the finder stops on its assertion exactly when the module has
    an indirect call site whose called value has no node in the graph
    of its caller; otherwise it returns. *)
Theorem fails_iff_indirect_site_without_node T M st :
  findIndTargets T M st = None ↔ ∃ cs, cs ∈ moduleCallSites M ∧ assertionFails T cs.
Proof.
  rewrite findIndTargets_visitSites.
  revert st. induction (moduleCallSites M) as [|cs l IH]; intros st; simpl.
  { split; [done|]. by intros (cs & ?%elem_of_nil & _). }
  destruct (visitCallSite T cs st) as [st1|] eqn:Hv.
  - rewrite IH. split.
    + intros (c & Hc & Hf). exists c. split; [by right|done].
    + intros (c & Hc & Hf). apply elem_of_cons in Hc as [Heq|Hc]; [|by exists c].
      subst c. apply (visit_None T cs st) in Hf. congruence.
  - split; [|done]. intros _. exists cs. split; [by left|].
    by apply (visit_None T cs st).
Qed.

(** *** The entries of [IndMap] *)

Lemma om_find_elem {V} k (v : V) m : om_find k m = Some v → (k, v) ∈ m.
Proof.
  induction m as [|[k' v'] m IH]; simpl; [done|].
  repeat case_decide; try done.
  - intros [= ->]. subst. by left.
  - intros Hf. right. by apply IH.
Qed.

Lemma om_elem_find {V} k (v : V) m : om_sorted m → (k, v) ∈ m → om_find k m = Some v.
Proof.
  induction 1 as [|k' v' m Hall Hs IH]; [by intros ?%elem_of_nil|].
  intros [[= -> ->]|Hin]%elem_of_cons; simpl.
  - by rewrite decide_True.
  - pose proof (proj1 (Forall_forall _ _) Hall _ Hin) as Hlt. simpl in Hlt.
    rewrite decide_False by lia. rewrite decide_False by lia. by apply IH.
Qed.

Lemma IndMap_touch_IndMap cs st :
  IndMap (IndMap_touch cs st)
  = match om_find (csKey cs) (IndMap st) with
    | Some _ => IndMap st
    | None => om_put (csKey cs) (cs, []) (IndMap st)
    end.
Proof. unfold IndMap_touch. by destruct (om_find _ _). Qed.

Lemma IndMap_touch_bound cs st e :
  om_find (csKey cs) (IndMap st) = Some e → IndMap (IndMap_touch cs st) = IndMap st.
Proof. intros He. by rewrite IndMap_touch_IndMap, He. Qed.

Lemma IndMap_touch_is_bound cs st :
  is_Some (om_find (csKey cs) (IndMap (IndMap_touch cs st))).
Proof.
  rewrite IndMap_touch_IndMap.
  destruct (om_find (csKey cs) (IndMap st)) eqn:He; [by rewrite He|].
  by rewrite om_find_put_eq.
Qed.

Lemma finishIndirect_IndMap closed cs st :
  IndMap (finishIndirect closed cs st)
  = if closed then IndMap (IndMap_touch cs st) else IndMap st.
Proof.
  unfold finishIndirect. destruct closed; [|done].
  assert (∀ s1, IndMap s1 = IndMap (IndMap_touch cs st) →
                IndMap (IndMap_touch cs s1) = IndMap (IndMap_touch cs st)) as Htwice.
  { intros s1 Hs1. destruct (IndMap_touch_is_bound cs st) as [e He].
    rewrite <-Hs1 in He. by rewrite (IndMap_touch_bound _ _ _ He). }
  repeat match goal with
         | |- context [if ?b then _ else _] => destruct b
         end; cbn [IndMap incr_CompleteEmpty]; by apply Htwice.
Qed.

Lemma push_scc_nil T cs F st :
  scc_in_SM T F = [] → IndMap (push_scc T cs F st) = IndMap st.
Proof.
  unfold scc_in_SM, push_scc. revert st.
  induction (scc_range T F) as [|f l IH]; intros st; [done|].
  rewrite filter_cons. simpl.
  destruct (SM_find T (getLeaderForGlobal T f)) eqn:Hf; case_decide; try done.
  apply IH.
Qed.

Lemma afterCandidates_nil T cs st :
  candidates T cs = [] → IndMap (afterCandidates T cs st) = IndMap st.
Proof.
  unfold candidates, afterCandidates. intros [Hc Hs]%app_eq_nil.
  rewrite push_scc_nil by done.
  assert (∀ st0, IndMap (foldl (λ st F, push_scc T cs F st) st0 (callee_range T cs))
                 = IndMap st0) as Hfold.
  { induction (callee_range T cs) as [|F l IH]; intros st0; simpl; [done|].
    rewrite bind_cons in Hc. apply app_eq_nil in Hc as [HF Hl].
    by rewrite IH, push_scc_nil. }
  by rewrite Hfold.
Qed.

Lemma push_scc_own T cs F st c v :
  om_find (csKey cs) (IndMap (push_scc T cs F st)) = Some (c, v) →
  c = cs ∨ om_find (csKey cs) (IndMap st) = Some (c, v).
Proof.
  unfold push_scc. revert st.
  induction (scc_range T F) as [|f l IH]; intros st; simpl; [by right|].
  intros Hf. apply IH in Hf as [Hc|Hf]; [by left|].
  destruct (SM_find _ _); [|by right].
  unfold IndMap_push_back in Hf. simpl in Hf.
  rewrite om_find_put_eq in Hf. left. congruence.
Qed.

Lemma afterCandidates_own T cs st c v :
  om_find (csKey cs) (IndMap (afterCandidates T cs st)) = Some (c, v) →
  c = cs ∨ om_find (csKey cs) (IndMap st) = Some (c, v).
Proof.
  assert (∀ st0, om_find (csKey cs)
                   (IndMap (foldl (λ st F, push_scc T cs F st) st0
                                  (callee_range T cs))) = Some (c, v) →
                 c = cs ∨ om_find (csKey cs) (IndMap st0) = Some (c, v)) as Hfold.
  { induction (callee_range T cs) as [|F l IH]; intros st0; simpl; [by right|].
    intros H0. apply IH in H0 as [Hc|H0]; [by left|].
    by apply push_scc_own in H0. }
  unfold afterCandidates. intros Hf.
  apply push_scc_own in Hf as [Hc|Hf]; [by left|].
  apply Hfold in Hf as [Hc|Hf]; [by left | by right].
Qed.

Lemma vec_at_bound k m : vec_at k m ≠ [] → is_Some (om_find k m).
Proof. unfold vec_at. by destruct (om_find k m). Qed.

Lemma length_nonzero {A} (l : list A) : (length l =? 0) = false ↔ l ≠ [].
Proof. rewrite Nat.eqb_neq. by destruct l. Qed.

(** The entry of a site whose key was not bound before its visit. *)
Lemma visit_entry_fresh T cs st st' :
  om_find (csKey cs) (IndMap st) = None →
  visitCallSite T cs st = Some st' →
  om_find (csKey cs) (IndMap st') = entryOf T cs.
Proof.
  intros Hfresh. rewrite visitCallSite_eq.
  unfold entryOf, hasEntry, added, isIndirectSite, nodeIsClosed.
  pose proof (direct_not_skipped cs) as Hds.
  rewrite direct_dyn_cast in Hds |- *.
  destruct (isSkippedSite cs).
  { intros [= <-]. destruct (dyn_cast_Function _); [by specialize (Hds eq_refl)|].
    done. }
  destruct (dyn_cast_Function _) as [CF|].
  { intros [= <-]. cbn [IndMap insert_CompleteSites IndMap_push_back set_IndMap].
    rewrite om_find_put_eq. unfold IndMap_at, vec_at. cbn [IndMap incr_DirCall push_AllSites].
    by rewrite Hfresh. }
  destruct (isa_ConstantPointerNull _); [by intros [= <-]|].
  destruct (getNodeForValue _ _ _) as [N|]; [|done].
  intros [= <-]. rewrite finishIndirect_IndMap. simpl.
  destruct (length (candidates T cs) =? 0) eqn:Hlen; simpl.
  - apply length_zero_nil in Hlen. rewrite Hlen.
    destruct (negb (isIncompleteNode N) && negb (isExternalNode N)).
    + rewrite IndMap_touch_IndMap, afterCandidates_nil, Hfresh by done.
      by rewrite om_find_put_eq.
    + by rewrite afterCandidates_nil.
  - apply length_nonzero in Hlen.
    assert (vec_at (csKey cs) (IndMap (afterCandidates T cs st)) = candidates T cs)
      as Hvec.
    { rewrite afterCandidates_at, decide_True by done.
      unfold vec_at. by rewrite Hfresh. }
    destruct (vec_at_bound (csKey cs) (IndMap (afterCandidates T cs st)))
      as [[c v] He]; [by rewrite Hvec|].
    assert (IndMap (if negb (isIncompleteNode N) && negb (isExternalNode N)
                    then IndMap_touch cs (afterCandidates T cs st)
                    else afterCandidates T cs st)
            = IndMap (afterCandidates T cs st)) as Hsame.
    { destruct (_ && _); [by eapply IndMap_touch_bound | done]. }
    destruct (negb (isIncompleteNode N) && negb (isExternalNode N));
      rewrite ?(IndMap_touch_bound _ _ _ He), He;
      unfold vec_at in Hvec; rewrite He in Hvec; subst v;
      apply afterCandidates_own in He as [->|He]; done || congruence.
Qed.

Lemma visitSites_entries T l st st' cs :
  NoDup (csKey <$> l) → cs ∈ l →
  om_find (csKey cs) (IndMap st) = None →
  visitSites T l st = Some st' →
  om_find (csKey cs) (IndMap st') = entryOf T cs.
Proof.
  revert st. induction l as [|c l IH]; intros st Hnd Hin Hfresh; simpl.
  { by apply elem_of_nil in Hin. }
  destruct (visitCallSite T c st) as [st1|] eqn:Hv; [|done]. intros Hrun.
  rewrite fmap_cons in Hnd. apply NoDup_cons in Hnd as [Hnew Hnd].
  apply elem_of_cons in Hin as [->|Hin].
  - rewrite (visitSites_find_ne _ _ _ _ _ Hrun Hnew).
    by eapply visit_entry_fresh.
  - apply (IH st1); try done.
    rewrite (visit_find_ne _ _ _ _ _ Hv); [done|].
    intros Heq. apply Hnew. rewrite Heq. by apply list_elem_of_fmap_2.
Qed.

(** X4: after a run from the initial state over a module with distinct
    instruction addresses, [IndMap] binds a call site exactly when it
    is a direct call, or an indirect call that has a candidate or whose
    node is neither incomplete nor external; the entry holds the called
    function, respectively the candidate list.  Sites calling null,
    undef or inline asm, and addresses that are no call site, are not
    bound. *)
Theorem IndMap_entries T M st' :
  NoDup (csKey <$> moduleCallSites M) →
  findIndTargets T M CTF_init = Some st' →
  (∀ cs, cs ∈ moduleCallSites M →
         om_find (csKey cs) (IndMap st')
         = if isDirectSite cs
           then (λ CF, (cs, [CF]))
                  <$> dyn_cast_Function (stripPointerCasts (getCalledValue cs))
           else if isIndirectSite cs
                   && (negb (length (candidates T cs) =? 0) || nodeIsClosed T cs)
                then Some (cs, candidates T cs)
                else None)
  ∧ (∀ k, k ∉ csKey <$> moduleCallSites M → om_find k (IndMap st') = None).
Proof.
  rewrite findIndTargets_visitSites. intros Hnd Hrun. split.
  - intros cs Hin.
    rewrite (visitSites_entries T _ CTF_init st' cs Hnd Hin eq_refl Hrun).
    unfold entryOf, hasEntry.
    destruct (isDirectSite cs) eqn:Hd; simpl.
    + unfold added. rewrite (direct_not_skipped _ Hd).
      rewrite direct_dyn_cast in Hd. by destruct (dyn_cast_Function _).
    + destruct (isIndirectSite cs) eqn:Hi; [|done]. simpl.
      by rewrite added_indirect.
  - intros k Hk. by rewrite (visitSites_find_ne _ _ _ _ _ Hrun Hk).
Qed.

Lemma IndMap_entries_witness :
  ∃ st' cs1 cs3 cs7,
    findIndTargets sample_DSA sample_module CTF_init = Some st'
    ∧ sample_site 0 = Some cs1 ∧ sample_site 2 = Some cs3 ∧ sample_site 6 = Some cs7
    ∧ om_find (csKey cs1) (IndMap st') = Some (cs1, ["foo"])
    ∧ om_find (csKey cs3) (IndMap st') = None
    ∧ om_find (csKey cs7) (IndMap st') = Some (cs7, []).
Proof.
  assert (NoDup (csKey <$> moduleCallSites sample_module)) as Hnd.
  { vm_compute. repeat (constructor; [set_solver|]). constructor. }
  destruct (findIndTargets sample_DSA sample_module CTF_init) as [st'|] eqn:Hrun;
    [|by vm_compute in Hrun].
  destruct (sample_site 0) as [cs1|] eqn:H1; [|by vm_compute in H1].
  destruct (sample_site 2) as [cs3|] eqn:H3; [|by vm_compute in H3].
  destruct (sample_site 6) as [cs7|] eqn:H7; [|by vm_compute in H7].
  exists st', cs1, cs3, cs7.
  destruct (IndMap_entries sample_DSA sample_module st' Hnd Hrun) as [Hent _].
  split; [done|]. split; [done|]. split; [done|]. split; [done|].
  rewrite (Hent cs1 (list_elem_of_lookup_2 _ _ _ H1)).
  rewrite (Hent cs3 (list_elem_of_lookup_2 _ _ _ H3)).
  rewrite (Hent cs7 (list_elem_of_lookup_2 _ _ _ H7)).
  vm_compute in H1, H3, H7.
  injection H1 as <-. injection H3 as <-. injection H7 as <-.
  by vm_compute.
Defined.

Lemma key_in_sites (l : list CallSite) k :
  k ∈ csKey <$> l → ∃ cs, cs ∈ l ∧ csKey cs = k.
Proof. intros (cs & -> & Hcs)%list_elem_of_fmap. by exists cs. Qed.

(** X5: after a run from the initial state over a module with distinct
    instruction addresses, the report lists exactly the indirect call
    sites that have a candidate or whose node is neither incomplete nor
    external, each with its candidate list. *)
Theorem report_lists_exactly_resolved_indirect_sites T M st' e :
  NoDup (csKey <$> moduleCallSites M) →
  findIndTargets T M CTF_init = Some st' →
  e ∈ reported_entries st'
  ↔ ∃ cs, cs ∈ moduleCallSites M ∧ isIndirectSite cs = true
          ∧ (candidates T cs ≠ [] ∨ nodeIsClosed T cs = true)
          ∧ e = (cs, candidates T cs).
Proof.
  intros Hnd Hrun.
  pose proof (findIndTargets_sorted _ _ _ Hrun) as Hsorted.
  rewrite findIndTargets_visitSites in Hrun.
  unfold reported_entries. rewrite list_elem_of_filter, list_elem_of_fmap. split.
  - intros (Hd & [k e'] & -> & Hin). simpl in Hd.
    apply (om_elem_find _ _ _ Hsorted) in Hin.
    destruct (decide (k ∈ csKey <$> moduleCallSites M)) as [Hk|Hk]; cycle 1.
    { rewrite (visitSites_find_ne _ _ _ _ _ Hrun Hk) in Hin. done. }
    apply key_in_sites in Hk as (cs & Hcs & <-).
    rewrite (visitSites_entries T _ CTF_init st' cs Hnd Hcs eq_refl Hrun) in Hin.
    unfold entryOf, hasEntry in Hin.
    destruct (isDirectSite cs) eqn:Hdc; simpl in Hin.
    { injection Hin as <-. simpl in Hd. congruence. }
    destruct (isIndirectSite cs) eqn:Hi; [|done]. simpl in Hin.
    destruct (negb (length (candidates T cs) =? 0) || nodeIsClosed T cs) eqn:Hc;
      [|done].
    injection Hin as <-. rewrite added_indirect by done. simpl.
    exists cs. split; [done|]. split; [done|]. split; [|done].
    apply orb_true_iff in Hc as [Hc|Hc]; [left|by right].
    by apply length_nonzero, negb_true_iff.
  - intros (cs & Hcs & Hi & Hc & ->). simpl.
    assert (isDirectSite cs = false) as Hd.
    { unfold isIndirectSite in Hi. by destruct (isDirectSite cs), (isSkippedSite cs). }
    split; [done|]. exists (csKey cs, (cs, candidates T cs)). split; [done|].
    apply om_find_elem.
    rewrite (visitSites_entries T _ CTF_init st' cs Hnd Hcs eq_refl Hrun).
    unfold entryOf, hasEntry. rewrite Hd, Hi, added_indirect by done. simpl.
    destruct Hc as [Hc|Hc].
    + apply length_nonzero in Hc. by rewrite Hc.
    + by rewrite Hc, orb_true_r.
Qed.

Lemma report_lists_exactly_resolved_indirect_sites_witness :
  ∃ st' cs6, findIndTargets sample_DSA sample_module CTF_init = Some st'
             ∧ sample_site 5 = Some cs6
             ∧ (cs6, ["foo"]) ∈ reported_entries st'.
Proof.
  assert (NoDup (csKey <$> moduleCallSites sample_module)) as Hnd.
  { vm_compute. repeat (constructor; [set_solver|]). constructor. }
  destruct (findIndTargets sample_DSA sample_module CTF_init) as [st'|] eqn:Hrun;
    [|by vm_compute in Hrun].
  destruct (sample_site 5) as [cs6|] eqn:H6; [|by vm_compute in H6].
  exists st', cs6. split; [done|]. split; [done|].
  apply (report_lists_exactly_resolved_indirect_sites sample_DSA sample_module st'
           (cs6, ["foo"]) Hnd Hrun).
  exists cs6. split; [by eapply list_elem_of_lookup_2|].
  vm_compute in H6. injection H6 as <-.
  split; [done|]. split; [by left|done].
Defined.

(** X6: an indirect call site whose node is neither incomplete nor
    external but that has no candidate is counted in [CompleteEmpty]
    (its visit increments the counter by one, and the counter ends as
    the number of such sites), is not inserted into [CompleteSites],
    and gets an empty entry in [IndMap]; the report therefore lists it
    with the marker of incomplete sites. *)
Theorem complete_empty_site_is_reported_incomplete T M st' cs :
  NoDup (csKey <$> moduleCallSites M) →
  findIndTargets T M CTF_init = Some st' →
  cs ∈ moduleCallSites M →
  isIndirectSite cs = true → nodeIsClosed T cs = true → candidates T cs = [] →
  isComplete cs st' = false
  ∧ om_find (csKey cs) (IndMap st') = Some (cs, [])
  ∧ (cs, []) ∈ reported_entries st'
  ∧ (∃ rest, site_line st' (cs, []) = "* " +:+ rest)
  ∧ (∃ before after st1 st2,
       moduleCallSites M = before ++ cs :: after
       ∧ visitSites T before CTF_init = Some st1
       ∧ visitCallSite T cs st1 = Some st2
       ∧ visitSites T after st2 = Some st'
       ∧ CompleteEmpty st2 = S (CompleteEmpty st1))
  ∧ CompleteEmpty st'
    = length (filter (λ c, isIndirectSite c && nodeIsClosed T c
                           && (length (candidates T c) =? 0) = true)
                     (moduleCallSites M))
  ∧ 0 < CompleteEmpty st'.
Proof.
  intros Hnd Hrun Hin Hi Hc Hcand.
  rewrite findIndTargets_visitSites in Hrun.
  assert (∃ before after st1 st2,
            moduleCallSites M = before ++ cs :: after
            ∧ visitSites T before CTF_init = Some st1
            ∧ visitCallSite T cs st1 = Some st2
            ∧ visitSites T after st2 = Some st'
            ∧ CompleteEmpty st2 = S (CompleteEmpty st1)) as Hvisit.
  { destruct (list_elem_of_split _ _ Hin) as (before & after & Hsplit).
    rewrite Hsplit in Hrun, Hnd. rewrite visitSites_app in Hrun.
    destruct (visitSites T before CTF_init) as [st1|] eqn:H1; [|done].
    simpl in Hrun.
    destruct (visitCallSite T cs st1) as [st2|] eqn:H2; [|done].
    exists before, after, st1, st2. repeat (split; [done|]).
    rewrite (visit_CompleteEmpty _ _ _ _ H2).
    rewrite fmap_app, fmap_cons in Hnd.
    apply NoDup_app in Hnd as (_ & Hfresh & _).
    assert (csKey cs ∉ csKey <$> before) as Hnew.
    { intros Hk. apply (Hfresh _ Hk), list_elem_of_here. }
    unfold IndMap_at.
    rewrite (proj1 (visitSites_other _ _ _ _ _ H1 Hnew)).
    unfold countsEmpty. change (vec_at _ (IndMap CTF_init)) with (@nil FuncId).
    by rewrite Hi, Hc, Hcand. }
  assert (CompleteEmpty st'
          = length (filter (λ c, isIndirectSite c && nodeIsClosed T c
                                 && (length (candidates T c) =? 0) = true)
                           (moduleCallSites M))) as Hcount.
  { by rewrite (visitSites_CompleteEmpty _ _ _ _ Hnd Hrun). }
  assert (0 < CompleteEmpty st') as Hpos.
  { rewrite Hcount.
    assert (cs ∈ filter (λ c, isIndirectSite c && nodeIsClosed T c
                              && (length (candidates T c) =? 0) = true)
                        (moduleCallSites M)) as Hmem.
    { apply list_elem_of_filter. split; [|done]. by rewrite Hi, Hc, Hcand. }
    destruct (filter _ _); [by apply elem_of_nil in Hmem | simpl; lia]. }
  assert (isComplete cs st' = false) as Hnc.
  { apply not_true_iff_false. rewrite isComplete_true.
    destruct (visitSites_nodup _ _ _ _ _ Hnd Hin Hrun) as [_ ->].
    rewrite marks_indirect, Hc, Hcand by done. simpl. set_solver. }
  assert (om_find (csKey cs) (IndMap st') = Some (cs, [])) as Hent.
  { rewrite (visitSites_entries T _ CTF_init st' cs Hnd Hin eq_refl Hrun).
    unfold entryOf, hasEntry. rewrite Hi, Hc, added_indirect, Hcand by done.
    by rewrite !orb_true_r. }
  split; [done|]. split; [done|]. split; [|split; [|done]].
  - unfold reported_entries. apply list_elem_of_filter. split.
    + simpl. unfold isIndirectSite in Hi.
      by destruct (isDirectSite cs), (isSkippedSite cs).
    + apply list_elem_of_fmap. exists (csKey cs, (cs, [])).
      split; [done|]. by apply om_find_elem.
  - unfold site_line. simpl. rewrite Hnc. eexists.
    by rewrite !string_app_assoc.
Qed.

Lemma complete_empty_site_is_reported_incomplete_witness :
  ∃ st' cs7, findIndTargets sample_DSA sample_module CTF_init = Some st'
             ∧ sample_site 6 = Some cs7
             ∧ isComplete cs7 st' = false
             ∧ (cs7, []) ∈ reported_entries st'
             ∧ 0 < CompleteEmpty st'.
Proof.
  assert (NoDup (csKey <$> moduleCallSites sample_module)) as Hnd.
  { vm_compute. repeat (constructor; [set_solver|]). constructor. }
  destruct (findIndTargets sample_DSA sample_module CTF_init) as [st'|] eqn:Hrun;
    [|by vm_compute in Hrun].
  destruct (sample_site 6) as [cs7|] eqn:H7; [|by vm_compute in H7].
  exists st', cs7. split; [done|]. split; [done|].
  assert (isIndirectSite cs7 = true ∧ nodeIsClosed sample_DSA cs7 = true
          ∧ candidates sample_DSA cs7 = []) as (Hi & Hc & Hcand)
    by (vm_compute in H7; by injection H7 as <-).
  destruct (complete_empty_site_is_reported_incomplete sample_DSA sample_module st' cs7
              Hnd Hrun (list_elem_of_lookup_2 _ _ _ H7) Hi Hc Hcand)
    as (Hnc & _ & Hrep & _ & _ & _ & Hpos).
  by repeat split.
Defined.

(** *** Nothing is ever taken back *)

Lemma om_put_bound_mono {V} k k' (v : V) m :
  is_Some (om_find k m) → is_Some (om_find k (om_put k' v m)).
Proof.
  intros Hb. destruct (decide (k' = k)) as [->|Hne].
  - by rewrite om_find_put_eq.
  - by rewrite om_find_put_ne.
Qed.

Lemma push_scc_bound_mono k T cs F st :
  is_Some (om_find k (IndMap st)) → is_Some (om_find k (IndMap (push_scc T cs F st))).
Proof.
  unfold push_scc. revert st.
  induction (scc_range T F) as [|f l IH]; intros st Hb; simpl; [done|].
  apply IH. destruct (SM_find _ _); [|done]. by apply om_put_bound_mono.
Qed.

Lemma afterCandidates_bound_mono k T cs st :
  is_Some (om_find k (IndMap st)) →
  is_Some (om_find k (IndMap (afterCandidates T cs st))).
Proof.
  assert (∀ st0, is_Some (om_find k (IndMap st0)) →
                 is_Some (om_find k (IndMap (foldl (λ st F, push_scc T cs F st) st0
                                                   (callee_range T cs))))) as Hfold.
  { induction (callee_range T cs) as [|F l IH]; intros st0 Hb; simpl; [done|].
    by apply IH, push_scc_bound_mono. }
  intros Hb. unfold afterCandidates. by apply push_scc_bound_mono, Hfold.
Qed.

Lemma visit_bound_mono T cs st st' k :
  visitCallSite T cs st = Some st' →
  is_Some (om_find k (IndMap st)) → is_Some (om_find k (IndMap st')).
Proof.
  rewrite visitCallSite_eq. intros Hv Hb.
  destruct (isSkippedSite cs); [by injection Hv as <-|].
  destruct (dyn_cast_Function _).
  { injection Hv as <-. by apply om_put_bound_mono. }
  destruct (isa_ConstantPointerNull _); [by injection Hv as <-|].
  destruct (getNodeForValue _ _ _); [|done].
  injection Hv as <-. rewrite finishIndirect_IndMap.
  apply (afterCandidates_bound_mono k T cs) in Hb.
  destruct (_ && _); [|done]. rewrite IndMap_touch_IndMap.
  destruct (om_find (csKey cs) _); [done|]. by apply om_put_bound_mono.
Qed.

Lemma finishIndirect_CompleteInd closed cs st :
  CompleteInd (finishIndirect closed cs st)
  = if closed && negb (length (IndMap_at cs st) =? 0)
    then S (CompleteInd st) else CompleteInd st.
Proof.
  assert (∀ c s, CompleteInd (IndMap_touch c s) = CompleteInd s) as Htouch.
  { intros c s. by destruct (frame_fields _ _ (IndMap_touch_frame c s)) as (_ & _ & _ & ->). }
  unfold finishIndirect. destruct closed; [|done]. cbn [andb].
  destruct (length (IndMap_at cs st) =? 0) eqn:Hlen;
    rewrite !IndMap_touch_touch, Hlen; cbn [negb].
  - rewrite !IndMap_touch_touch, Hlen. cbn [CompleteInd incr_CompleteEmpty].
    by rewrite !Htouch.
  - unfold IndMap_at at 1. cbn [IndMap incr_CompleteInd insert_CompleteSites].
    fold (IndMap_at cs (IndMap_touch cs st)). rewrite IndMap_touch_touch, Hlen.
    rewrite Htouch. cbn [CompleteInd incr_CompleteInd insert_CompleteSites].
    by rewrite Htouch.
Qed.

Lemma visit_CompleteInd T cs st st' :
  visitCallSite T cs st = Some st' →
  CompleteInd st'
  = CompleteInd st
    + (if isIndirectSite cs && nodeIsClosed T cs
          && negb (length (IndMap_at cs st ++ candidates T cs) =? 0)
       then 1 else 0).
Proof.
  rewrite visitCallSite_eq. unfold isIndirectSite, nodeIsClosed.
  rewrite direct_dyn_cast.
  destruct (isSkippedSite cs); [intros [= <-]; simpl; lia|].
  destruct (dyn_cast_Function _); [intros [= <-]; simpl; lia|].
  destruct (isa_ConstantPointerNull _); [intros [= <-]; simpl; lia|].
  destruct (getNodeForValue _ _ _) as [N|]; [|done].
  intros [= <-]. rewrite finishIndirect_CompleteInd. simpl.
  unfold IndMap_at. rewrite afterCandidates_at, decide_True by done.
  destruct (frame_fields _ _ (afterCandidates_frame T cs st)) as (_ & _ & _ & ->).
  simpl. destruct (_ && _); lia.
Qed.

(** X7: the finder only adds to what the pass holds: whatever the
    state it starts from (for instance that of an earlier run), sites
    that were complete stay complete, every candidate list keeps what
    it held as a prefix, bound sites stay bound, and no counter
    decreases. *)
Theorem finder_only_adds T M st st' :
  findIndTargets T M st = Some st' →
  CompleteSites st ⊆ CompleteSites st'
  ∧ (∀ k, vec_at k (IndMap st) `prefix_of` vec_at k (IndMap st'))
  ∧ (∀ k, is_Some (om_find k (IndMap st)) → is_Some (om_find k (IndMap st')))
  ∧ DirCall st ≤ DirCall st' ∧ IndCall st ≤ IndCall st'
  ∧ CompleteInd st ≤ CompleteInd st' ∧ CompleteEmpty st ≤ CompleteEmpty st'.
Proof.
  rewrite findIndTargets_visitSites. intros Hrun.
  destruct (visitSites_mono _ _ _ _ Hrun) as [Hsub Hpre].
  split; [done|]. split; [done|].
  revert st Hrun Hsub Hpre.
  induction (moduleCallSites M) as [|cs l IH]; intros st; simpl.
  { intros [= <-] _ _. repeat split; done || lia. }
  destruct (visitCallSite T cs st) as [st1|] eqn:Hv; [|done]. intros Hrun _ _.
  destruct (visitSites_mono _ _ _ _ Hrun) as [Hsub1 Hpre1].
  destruct (IH st1 Hrun Hsub1 Hpre1) as (Hb & HD & HI & HCI & HCE).
  destruct (visit_fields _ _ _ _ Hv) as (_ & HD1 & HI1).
  pose proof (visit_CompleteInd _ _ _ _ Hv) as HCI1.
  pose proof (visit_CompleteEmpty _ _ _ _ Hv) as HCE1.
  split; [|destruct (countsEmpty _ _ _); lia].
  intros k Hk. apply Hb. by eapply visit_bound_mono.
Qed.

Lemma finder_only_adds_witness :
  ∃ st1 st2 cs1,
    findIndTargets sample_DSA sample_module CTF_init = Some st1
    ∧ findIndTargets sample_DSA sample_module st1 = Some st2
    ∧ sample_site 0 = Some cs1
    ∧ IndMap_at cs1 st1 = ["foo"] ∧ IndMap_at cs1 st2 = ["foo"; "foo"]
    ∧ CompleteSites st1 ⊆ CompleteSites st2.
Proof.
  destruct (findIndTargets sample_DSA sample_module CTF_init) as [st1|] eqn:Hrun1;
    [|by vm_compute in Hrun1].
  destruct (findIndTargets sample_DSA sample_module st1) as [st2|] eqn:Hrun2;
    [|vm_compute in Hrun1; injection Hrun1 as <-; by vm_compute in Hrun2].
  destruct (sample_site 0) as [cs1|] eqn:H1; [|by vm_compute in H1].
  exists st1, st2, cs1.
  split; [done|]. split; [done|]. split; [done|].
  pose proof (finder_only_adds sample_DSA sample_module st1 st2 Hrun2) as (Hsub & _).
  vm_compute in H1. injection H1 as <-.
  vm_compute in Hrun1. injection Hrun1 as <-.
  vm_compute in Hrun2. injection Hrun2 as <-.
  split; [by vm_compute|]. split; [by vm_compute|]. exact Hsub.
Defined.

(** *** The counters against the sets *)

Lemma visitSites_counters T l st st' :
  visitSites T l st = Some st' →
  DirCall st' = DirCall st
                + length (filter (λ cs, isDirectSite cs || isNullSite cs = true) l)
  ∧ IndCall st' = IndCall st + length (filter (λ cs, isIndirectSite cs = true) l).
Proof.
  revert st. induction l as [|cs l IH]; intros st; simpl.
  { intros [= <-]. simpl. lia. }
  destruct (visitCallSite T cs st) as [st1|] eqn:Hv; [|done]. intros Hrun.
  destruct (IH _ Hrun) as (HD & HI).
  destruct (visit_fields _ _ _ _ Hv) as (_ & HD1 & HI1).
  rewrite !length_filter_cons_bool. lia.
Qed.

Lemma visitSites_CompleteInd T l st st' :
  NoDup (csKey <$> l) → visitSites T l st = Some st' →
  CompleteInd st'
  = CompleteInd st
    + length (filter (λ cs, isIndirectSite cs && nodeIsClosed T cs
                            && negb (length (IndMap_at cs st ++ candidates T cs) =? 0)
                            = true) l).
Proof.
  revert st. induction l as [|c l IH]; intros st Hnd; simpl.
  { intros [= <-]. simpl. lia. }
  destruct (visitCallSite T c st) as [st1|] eqn:Hv; [|done]. intros Hrun.
  rewrite fmap_cons in Hnd. apply NoDup_cons in Hnd as [Hnew Hnd].
  rewrite (IH _ Hnd Hrun), (visit_CompleteInd _ _ _ _ Hv), length_filter_cons_bool.
  rewrite (filter_ext_elem
             (λ cs, isIndirectSite cs && nodeIsClosed T cs
                    && negb (length (IndMap_at cs st1 ++ candidates T cs) =? 0) = true)
             (λ cs, isIndirectSite cs && nodeIsClosed T cs
                    && negb (length (IndMap_at cs st ++ candidates T cs) =? 0) = true)).
  - lia.
  - intros cs Hcs. unfold IndMap_at.
    rewrite (visit_at _ _ _ _ _ Hv), decide_False; [done|].
    intros Heq. apply Hnew. rewrite Heq. by apply list_elem_of_fmap_2.
Qed.

Lemma visitSites_size T l st st' :
  NoDup (csKey <$> l) →
  (∀ cs, cs ∈ l → csKey cs ∉ CompleteSites st) →
  visitSites T l st = Some st' →
  size (CompleteSites st')
  = size (CompleteSites st)
    + length (filter (λ cs, marks T cs (IndMap_at cs st) = true) l).
Proof.
  revert st. induction l as [|c l IH]; intros st Hnd Hfresh; simpl.
  { intros [= <-]. simpl. lia. }
  destruct (visitCallSite T c st) as [st1|] eqn:Hv; [|done]. intros Hrun.
  rewrite fmap_cons in Hnd. apply NoDup_cons in Hnd as [Hnew Hnd].
  assert (∀ cs, cs ∈ l → csKey c ≠ csKey cs) as Hne.
  { intros cs Hcs Heq. apply Hnew. rewrite Heq. by apply list_elem_of_fmap_2. }
  pose proof (visit_CompleteSites _ _ _ _ Hv) as HCS.
  rewrite (IH st1 Hnd); [| |done].
  - rewrite length_filter_cons_bool.
    rewrite (filter_ext_elem (λ cs, marks T cs (IndMap_at cs st1) = true)
                             (λ cs, marks T cs (IndMap_at cs st) = true)).
    + rewrite HCS. destruct (marks T c (IndMap_at c st)); [|lia].
      rewrite size_union, size_singleton; [lia|].
      pose proof (Hfresh c (list_elem_of_here _ _)). set_solver.
    + intros cs Hcs. unfold IndMap_at.
      by rewrite (visit_at _ _ _ _ _ Hv), decide_False by by apply Hne.
  - intros cs Hcs. rewrite HCS.
    pose proof (Hfresh cs (list_elem_of_further _ _ _ Hcs)).
    pose proof (Hne cs Hcs). destruct (marks _ _ _); set_solver.
Qed.

Lemma marks_split T cs :
  (if marks T cs [] then 1 else 0)
  = (if isDirectSite cs || isNullSite cs then 1 else 0)
    + (if isIndirectSite cs && nodeIsClosed T cs
          && negb (length ([] ++ candidates T cs) =? 0) then 1 else 0).
Proof.
  unfold marks, isNullSite, isIndirectSite.
  pose proof (direct_not_skipped cs) as Hds.
  destruct (isSkippedSite cs), (isDirectSite cs), (isa_ConstantPointerNull _),
    (nodeIsClosed T cs), (length _ =? 0); simpl; try done;
    by specialize (Hds eq_refl).
Qed.

(** X8: after a run from the initial state over a module with distinct
    instruction addresses, [CompleteSites] has as many elements as
    [DirCall] and [CompleteInd] count together; [CompleteInd] and
    [CompleteEmpty] together count the indirect sites whose node is
    neither incomplete nor external, so their sum is at most
    [IndCall]. *)
Theorem counters_match_sets T M st' :
  NoDup (csKey <$> moduleCallSites M) →
  findIndTargets T M CTF_init = Some st' →
  size (CompleteSites st') = DirCall st' + CompleteInd st'
  ∧ CompleteInd st' + CompleteEmpty st'
    = length (filter (λ cs, isIndirectSite cs && nodeIsClosed T cs = true)
                     (moduleCallSites M))
  ∧ CompleteInd st' + CompleteEmpty st' ≤ IndCall st'.
Proof.
  rewrite findIndTargets_visitSites. intros Hnd Hrun.
  destruct (visitSites_counters _ _ _ _ Hrun) as (HD & HI).
  pose proof (visitSites_CompleteInd _ _ _ _ Hnd Hrun) as HCI.
  pose proof (visitSites_CompleteEmpty _ _ _ _ Hnd Hrun) as HCE.
  pose proof (visitSites_size _ _ _ _ Hnd (λ cs _, not_elem_of_empty _) Hrun) as Hsz.
  rewrite HD, HI, HCI, HCE, Hsz. clear.
  change (size (CompleteSites CTF_init)) with (size (∅ : gset nat)).
  rewrite size_empty.
  change (DirCall CTF_init) with 0. change (CompleteInd CTF_init) with 0.
  change (CompleteEmpty CTF_init) with 0. change (IndCall CTF_init) with 0.
  induction (moduleCallSites M) as [|cs l IH]; [done|].
  rewrite !length_filter_cons_bool.
  change (IndMap_at cs CTF_init) with (@nil FuncId).
  pose proof (marks_split T cs) as Hm. unfold countsEmpty in *.
  destruct IH as (IH1 & IH2 & IH3).
  assert ((if isIndirectSite cs && nodeIsClosed T cs
              && negb (length ([] ++ candidates T cs) =? 0) then 1 else 0)
          + (if isIndirectSite cs && nodeIsClosed T cs
                && (length ([] ++ candidates T cs) =? 0) then 1 else 0)
          = (if isIndirectSite cs && nodeIsClosed T cs then 1 else 0)
          ∧ (if isIndirectSite cs && nodeIsClosed T cs then 1 else 0)
            ≤ (if isIndirectSite cs then 1 else 0)) as [Hs Hle].
  { destruct (isIndirectSite cs), (nodeIsClosed T cs), (length _ =? 0);
      simpl; lia. }
  lia.
Qed.

Lemma counters_match_sets_witness :
  ∃ st', findIndTargets sample_DSA sample_module CTF_init = Some st'
         ∧ size (CompleteSites st') = DirCall st' + CompleteInd st'
         ∧ CompleteInd st' + CompleteEmpty st' ≤ IndCall st'.
Proof.
  assert (NoDup (csKey <$> moduleCallSites sample_module)) as Hnd.
  { vm_compute. repeat (constructor; [set_solver|]). constructor. }
  destruct (findIndTargets sample_DSA sample_module CTF_init) as [st'|] eqn:Hrun;
    [|by vm_compute in Hrun].
  exists st'. split; [done|].
  destruct (counters_match_sets sample_DSA sample_module st' Hnd Hrun)
    as (Hsz & _ & Hle).
  by split.
Defined.

(** *** The length of the report *)

Lemma count_lines_app (a b : string) :
  count_lines (a +:+ b) = count_lines a + count_lines b.
Proof.
  induction a as [|x a IH]; [done|]. rewrite string_app_cons. simpl.
  rewrite IH. lia.
Qed.

Lemma hexDigit_no_line_end d : Ascii.eqb (hexDigit d) "010"%char = false.
Proof. do 16 (destruct d as [|d]; [reflexivity|]). by destruct d. Qed.

Lemma write_hex_aux_lines fuel n acc :
  count_lines (write_hex_aux fuel n acc) = count_lines acc.
Proof.
  revert n acc. induction fuel as [|fuel IH]; intros n acc; [done|].
  cbn [write_hex_aux]. destruct (n / 16 =? 0).
  - cbn [count_lines]. by rewrite hexDigit_no_line_end.
  - rewrite IH. cbn [count_lines]. by rewrite hexDigit_no_line_end.
Qed.

Lemma write_ptr_lines p : count_lines (write_ptr p) = 0.
Proof.
  unfold write_ptr. rewrite count_lines_app, write_hex_aux_lines. reflexivity.
Qed.

Lemma names_text_lines (v : list FuncId) : Forall one_line v → count_lines (names_text v) = 0.
Proof.
  induction 1 as [|i v Hi _ IH]; [done|]. simpl.
  rewrite !count_lines_app, IH, Hi. reflexivity.
Qed.

Lemma site_line_lines st (e : CallSite * list FuncId) :
  one_line (iText (getInstruction e.1)) → one_line (iName (getInstruction e.1)) →
  one_line (getCaller e.1) → Forall one_line e.2 →
  count_lines (site_line st e) = 1.
Proof.
  intros Ht Hn Hc Hv. unfold site_line.
  rewrite !count_lines_app, Ht, (names_text_lines _ Hv).
  destruct (isComplete e.1 st); [reflexivity|].
  rewrite !count_lines_app, write_ptr_lines, Hn, Hc. reflexivity.
Qed.

(** X9: when the instruction texts, instruction names, caller names and
    candidate names of the reported entries hold no line end, the report
    has one line for the header and one line for each entry of [IndMap]
    whose called value is not a function. *)
Theorem report_line_count st :
  (∀ e, e ∈ reported_entries st →
        one_line (iText (getInstruction e.1))
        ∧ one_line (iName (getInstruction e.1))
        ∧ one_line (getCaller e.1)
        ∧ Forall one_line e.2) →
  count_lines (print st) = 1 + length (reported_entries st).
Proof.
  unfold print, reported_entries. rewrite print_entries_lines.
  rewrite count_lines_app. change (count_lines ("" +:+ report_header)) with 1.
  intros Hok. f_equal.
  induction (filter _ _) as [|e l IH]; [done|].
  rewrite fmap_cons. cbn [flatten foldr length]. rewrite count_lines_app.
  fold (flatten (site_line st <$> l)).
  destruct (Hok e (list_elem_of_here _ _)) as (Ht & Hn & Hc & Hv).
  rewrite (site_line_lines st e Ht Hn Hc Hv), IH; [done|].
  intros e' He'. apply Hok. by apply list_elem_of_further.
Qed.

Lemma report_line_count_witness :
  ∃ st', findIndTargets sample_DSA sample_module CTF_init = Some st'
         ∧ 0 < length (reported_entries st')
         ∧ count_lines (print st') = 1 + length (reported_entries st').
Proof.
  destruct (findIndTargets sample_DSA sample_module CTF_init) as [st'|] eqn:Hrun;
    [|by vm_compute in Hrun].
  exists st'. split; [done|]. split.
  { vm_compute in Hrun. injection Hrun as <-. vm_compute. lia. }
  apply (report_line_count st').
  vm_compute in Hrun. injection Hrun as <-.
  intros e He. vm_compute in He.
  repeat (apply elem_of_cons in He as [->|He];
          [by repeat split; repeat constructor|]).
  by apply elem_of_nil in He.
Defined.

End CallTargetsFacts.

(** ** Facts about the Steensgaard driver *)

Module SteensFacts.
Import Steens.

(** *** Forwarding chains and normalisation *)

Lemma chain_det nodes n r k r' k' :
  chain nodes n r k → chain nodes n r' k' → r = r' ∧ k = k'.
Proof.
  intros Hc. revert r' k'.
  induction Hc as [n Hn|n t r k Hn Hc IH]; intros r' k' Hc'.
  - inversion Hc'; subst; [done|congruence].
  - inversion Hc' as [|? t' ? k2 Hn' Hc2]; subst; [congruence|].
    assert (t' = t) as -> by congruence.
    destruct (IH _ _ Hc2) as [-> ->]. done.
Qed.

Lemma chain_end_fwd nodes n r k : chain nodes n r k → fwd nodes r = None.
Proof. induction 1; done. Qed.

Lemma getNode_fuel_chain nodes n r k fuel :
  chain nodes n r k → k ≤ fuel → getNode_fuel fuel nodes n = r.
Proof.
  intros Hc. revert fuel.
  induction Hc as [n Hn|n t r k Hn Hc IH]; intros fuel Hle.
  - destruct fuel; [done|]. simpl. unfold fwd in Hn.
    destruct (nodes !! n) as [node|]; [|done]. simpl in Hn. by rewrite Hn.
  - destruct fuel; [lia|]. simpl. unfold fwd in Hn.
    destruct (nodes !! n) as [node|]; [|done]. simpl in Hn. rewrite Hn.
    apply IH. lia.
Qed.

Lemma nfwd_le_size nodes : nfwd nodes ≤ size nodes.
Proof. apply map_subseteq_size, map_filter_subseteq. Qed.

Lemma WF_getNode nodes n :
  WF nodes → ∃ k, chain nodes n (getNode nodes n) k ∧ k ≤ nfwd nodes.
Proof.
  intros Hwf. destruct (Hwf n) as (r & k & Hc & Hk).
  exists k. split; [|done]. unfold getNode.
  rewrite (getNode_fuel_chain _ _ _ _ _ Hc); [done|].
  pose proof (nfwd_le_size nodes). lia.
Qed.

Lemma WF_getNode_fwd nodes n : WF nodes → fwd nodes (getNode nodes n) = None.
Proof.
  intros Hwf. destruct (WF_getNode _ n Hwf) as (k & Hc & _).
  by eapply chain_end_fwd.
Qed.

Lemma getNode_chain nodes n r k :
  WF nodes → chain nodes n r k → getNode nodes n = r.
Proof.
  intros Hwf Hc. destruct (WF_getNode _ n Hwf) as (k' & Hc' & _).
  by destruct (chain_det _ _ _ _ _ _ Hc' Hc).
Qed.

(** *** One unification *)

Section Unify.
Variables (nodes : NodeStore) (r s : NodeId) (Nr Ns : DSNode).
Hypothesis Hr : nodes !! r = Some Nr.
Hypothesis Hs : nodes !! s = Some Ns.
Hypothesis Hfr : Forward Nr = None.
Hypothesis Hfs : Forward Ns = None.
Hypothesis Hne : r ≠ s.

Lemma unified_lookup n :
  unified nodes r s Nr Ns !! n
  = if decide (n = s) then Some (forwardedTo r Ns)
    else if decide (n = r) then Some (mergedInto Nr Ns)
    else nodes !! n.
Proof.
  unfold unified. rewrite lookup_insert. case_decide; [by subst; rewrite decide_True|].
  rewrite decide_False by done. rewrite lookup_insert.
  case_decide; [by subst; rewrite decide_True|]. by rewrite decide_False.
Qed.

Lemma fwd_unified n :
  fwd (unified nodes r s Nr Ns) n = if decide (n = s) then Some r else fwd nodes n.
Proof.
  unfold fwd. rewrite unified_lookup.
  repeat case_decide; subst; simpl; try done. by rewrite Hr.
Qed.

Lemma chain_unified n x k :
  chain nodes n x k →
  if decide (x = s) then chain (unified nodes r s Nr Ns) n r (S k)
  else chain (unified nodes r s Nr Ns) n x k.
Proof.
  assert (fwd nodes s = None) as Hfwds by (unfold fwd; by rewrite Hs).
  assert (fwd nodes r = None) as Hfwdr by (unfold fwd; by rewrite Hr).
  induction 1 as [n Hn|n t x k Hn Hc IH].
  - case_decide as Hx.
    + subst. eapply chain_step.
      * by rewrite fwd_unified, decide_True.
      * apply chain_end. by rewrite fwd_unified, decide_False.
    + apply chain_end. by rewrite fwd_unified, decide_False.
  - assert (n ≠ s) as Hns by congruence.
    case_decide; eapply chain_step; try done;
      by rewrite fwd_unified, decide_False.
Qed.

Lemma size_unified : size (unified nodes r s Nr Ns) = size nodes.
Proof.
  unfold unified. rewrite !map_size_insert.
  rewrite lookup_insert_ne, Hs, Hr by done. done.
Qed.

Lemma nfwd_unified : nfwd (unified nodes r s Nr Ns) = S (nfwd nodes).
Proof.
  unfold nfwd, unified.
  rewrite map_filter_insert_True by (simpl; eauto).
  rewrite map_filter_insert_False by (simpl; by intros [? [=]]).
  rewrite map_filter_delete, map_size_insert_None.
  - rewrite map_size_delete_None; [done|].
    apply map_lookup_filter_None. right. intros x Hx. simpl.
    assert (x = Nr) as -> by congruence. rewrite Hfr. by intros [? ?].
  - rewrite lookup_delete_ne by done.
    apply map_lookup_filter_None. right. intros x Hx. simpl.
    assert (x = Ns) as -> by congruence. rewrite Hfs. by intros [? ?].
Qed.

Lemma WF_unified : WF nodes → WF (unified nodes r s Nr Ns).
Proof.
  intros Hwf n. destruct (Hwf n) as (x & k & Hc & Hk).
  pose proof (chain_unified _ _ _ Hc) as Hc'. rewrite nfwd_unified.
  case_decide; eexists _, _; (split; [exact Hc'|lia]).
Qed.

Lemma getNode_unified n :
  WF nodes →
  getNode (unified nodes r s Nr Ns) n
  = if decide (getNode nodes n = s) then r else getNode nodes n.
Proof.
  intros Hwf. destruct (WF_getNode _ n Hwf) as (k & Hc & _).
  pose proof (chain_unified _ _ _ Hc) as Hc'.
  case_decide; by eapply getNode_chain; [apply WF_unified|].
Qed.

Lemma nfwd_lt_size : nfwd nodes < size nodes.
Proof.
  pose proof (nfwd_le_size (unified nodes r s Nr Ns)) as Hle.
  rewrite nfwd_unified, size_unified in Hle. lia.
Qed.

Lemma functionsOf_mergedInto F :
  F ∈ functionsOf (mergedInto Nr Ns) ↔ F ∈ functionsOf Nr ∨ F ∈ functionsOf Ns.
Proof.
  unfold functionsOf, mergedInto, unionGlobals. simpl.
  rewrite !list_elem_of_omap. setoid_rewrite elem_of_app.
  setoid_rewrite list_elem_of_difference. split.
  - intros (g & [Hg|[Hg _]] & HF); eauto.
  - intros [(g & Hg & HF)|(g & Hg & HF)]; [eauto|].
    destruct (decide (g ∈ Globals Nr)); eauto.
Qed.

Lemma grows_unified : WF nodes → grows nodes (unified nodes r s Nr Ns).
Proof.
  intros Hwf n F. unfold funcsAt. rewrite getNode_unified by done.
  assert (F ∈ (list_to_set (functionsOf Nr) : FuncSet) ∪ list_to_set (functionsOf Ns)
          → F ∈ (list_to_set (functionsOf (mergedInto Nr Ns)) : FuncSet)) as Hm.
  { rewrite elem_of_union, !elem_of_list_to_set. apply functionsOf_mergedInto. }
  case_decide as Hn.
  - rewrite Hn, Hs, unified_lookup, decide_False, decide_True by done.
    intros HF. apply Hm. set_solver.
  - rewrite unified_lookup, decide_False by done. case_decide as Hn'; [|done].
    rewrite Hn', Hr. intros HF. apply Hm. set_solver.
Qed.

Lemma bounded_unified U : bounded U nodes → bounded U (unified nodes r s Nr Ns).
Proof.
  intros Hb n node. rewrite unified_lookup.
  repeat case_decide; intros Hn; simplify_eq.
  - set_solver.
  - intros F. rewrite elem_of_list_to_set, functionsOf_mergedInto.
    intros [HF|HF].
    + eapply (Hb r); [done|]. by apply elem_of_list_to_set.
    + eapply (Hb s); [done|]. by apply elem_of_list_to_set.
  - by eapply Hb.
Qed.
End Unify.

(** *** Merging *)

Lemma extends_refl nodes : WF nodes → extends nodes nodes.
Proof. intros Hwf. split; [done|]. split; [by intros n|done]. Qed.

Lemma extends_trans n1 n2 n3 : extends n1 n2 → extends n2 n3 → extends n1 n3.
Proof.
  intros (_ & Hg1 & Hb1) (Hwf & Hg2 & Hb2). split; [done|]. split.
  - intros n. etrans; [apply Hg1 | apply Hg2].
  - intros U HU. by apply Hb2, Hb1.
Qed.

Lemma lookup_not_forwarded nodes n node :
  fwd nodes n = None → nodes !! n = Some node → Forward node = None.
Proof. unfold fwd. intros Hf Hn. by rewrite Hn in Hf. Qed.

Lemma mergeStep_spec nodes a b nodes' pending :
  WF nodes → mergeStep nodes a b = Some (nodes', pending) →
  extends nodes nodes' ∧ nfwd nodes' = S (nfwd nodes) ∧ size nodes' = size nodes.
Proof.
  intros Hwf. unfold mergeStep. case_decide as Hne; [done|].
  destruct (nodes !! getNode nodes a) as [N1|] eqn:H1; [|done].
  destruct (nodes !! getNode nodes b) as [N2|] eqn:H2; [|done].
  pose proof (lookup_not_forwarded _ _ _ (WF_getNode_fwd _ a Hwf) H1) as Hf1.
  pose proof (lookup_not_forwarded _ _ _ (WF_getNode_fwd _ b Hwf) H2) as Hf2.
  destruct (Size N2 <=? Size N1)%N; intros [= <- <-].
  - fold (unified nodes (getNode nodes a) (getNode nodes b) N1 N2).
    split; [split; [|split]|split].
    + by apply WF_unified.
    + by apply grows_unified.
    + intros U. by apply bounded_unified.
    + by apply nfwd_unified.
    + by apply size_unified.
  - fold (unified nodes (getNode nodes b) (getNode nodes a) N2 N1).
    split; [split; [|split]|split].
    + by apply WF_unified.
    + by apply grows_unified.
    + intros U. by apply bounded_unified.
    + by apply nfwd_unified.
    + by apply size_unified.
Qed.

Lemma mergeLoop_nil fuel nodes : mergeLoop fuel nodes [] = Some nodes.
Proof. by destruct fuel. Qed.

Lemma mergeLoop_cons fuel nodes a b rest :
  mergeLoop fuel nodes ((a, b) :: rest)
  = match mergeStep nodes a b with
    | None => mergeLoop fuel nodes rest
    | Some (nodes', pending) =>
        match fuel with
        | 0 => None
        | S fuel' => mergeLoop fuel' nodes' (pending ++ rest)
        end
    end.
Proof. by destruct fuel. Qed.

(** A merge never runs out of fuel when it starts with at least as much
    as there are nodes that are not forwarded. *)
Lemma mergeLoop_ok fuel nodes work :
  WF nodes → size nodes ≤ nfwd nodes + fuel →
  ∃ nodes', mergeLoop fuel nodes work = Some nodes' ∧ extends nodes nodes'.
Proof.
  revert nodes work.
  induction fuel as [|fuel IHf]; intros nodes work Hwf Hfuel;
    induction work as [|[a b] rest IHw].
  - exists nodes. split; [apply mergeLoop_nil | by apply extends_refl].
  - rewrite mergeLoop_cons.
    destruct (mergeStep nodes a b) as [[nodes' pending]|] eqn:Hstep; [|exact IHw].
    destruct (mergeStep_spec _ _ _ _ _ Hwf Hstep) as (_ & Hn & Hsz).
    pose proof (nfwd_le_size nodes'). lia.
  - exists nodes. split; [apply mergeLoop_nil | by apply extends_refl].
  - rewrite mergeLoop_cons.
    destruct (mergeStep nodes a b) as [[nodes' pending]|] eqn:Hstep; [|exact IHw].
    destruct (mergeStep_spec _ _ _ _ _ Hwf Hstep) as (Hext & Hn & Hsz).
    destruct (IHf nodes' (pending ++ rest)) as (nodes2 & Hrun & Hext2).
    + apply Hext.
    + lia.
    + exists nodes2. split; [done|]. by eapply extends_trans.
Qed.

Lemma mergeWith_ok nodes h1 h2 :
  WF nodes → ∃ nodes', mergeWith nodes h1 h2 = Some nodes' ∧ extends nodes nodes'.
Proof.
  intros Hwf. unfold mergeWith.
  destruct h1 as [a|], h2 as [b|];
    try (exists nodes; split; [done | by apply extends_refl]).
  apply mergeLoop_ok; [done | lia].
Qed.

Lemma mergeAll_ok nodes pairs :
  WF nodes → ∃ nodes', mergeAll nodes pairs = Some nodes' ∧ extends nodes nodes'.
Proof.
  revert nodes. induction pairs as [|[h1 h2] pairs IH]; intros nodes Hwf; simpl.
  - exists nodes. split; [done | by apply extends_refl].
  - destruct (mergeWith_ok nodes h1 h2 Hwf) as (nodes1 & -> & Hext1).
    destruct (IH nodes1) as (nodes2 & -> & Hext2); [apply Hext1|].
    exists nodes2. split; [done|]. by eapply extends_trans.
Qed.

Lemma set_Nodes_id G : set_Nodes (Nodes G) G = G.
Proof. by destruct G. Qed.

Lemma mergeInGraph_ok M G CS F :
  WF (Nodes G) →
  ∃ nodes', mergeInGraph M G CS F = Some (set_Nodes nodes' G)
            ∧ extends (Nodes G) nodes'.
Proof.
  intros Hwf. unfold mergeInGraph.
  destruct (mergeAll_ok (Nodes G) (callBindings M G CS F) Hwf) as (nodes' & -> & Hext).
  by exists nodes'.
Qed.

Lemma mergeTargets_ok M G CS targets :
  WF (Nodes G) →
  ∃ nodes', mergeTargets M G CS targets = Some (set_Nodes nodes' G)
            ∧ extends (Nodes G) nodes'.
Proof.
  revert G. induction targets as [|F targets IH]; intros G Hwf; simpl.
  - exists (Nodes G). rewrite set_Nodes_id. split; [done | by apply extends_refl].
  - destruct (isDeclaration M F); simpl; [by apply IH|].
    destruct (mergeInGraph_ok M G CS F Hwf) as (nodes1 & -> & Hext1).
    destruct (IH (set_Nodes nodes1 G)) as (nodes2 & -> & Hext2); [apply Hext1|].
    exists nodes2. split; [done|]. by eapply extends_trans.
Qed.

Lemma mergeCalls_ok M CG G i Calls :
  WF (Nodes G) →
  ∃ nodes', mergeCalls M CG G i Calls = Some (set_Nodes nodes' G)
            ∧ extends (Nodes G) nodes'.
Proof.
  revert G i. induction Calls as [|CS Calls IH]; intros G i Hwf; simpl.
  - exists (Nodes G). rewrite set_Nodes_id. split; [done | by apply extends_refl].
  - destruct (mergeTargets_ok M G CS (elements (default ∅ (CG !! i))) Hwf)
      as (nodes1 & -> & Hext1).
    destruct (IH (set_Nodes nodes1 G) (S i)) as (nodes2 & -> & Hext2); [apply Hext1|].
    exists nodes2. split; [done|]. by eapply extends_trans.
Qed.

Lemma loopBody_ok M st :
  WF (Nodes (ResultGraph st)) →
  ∃ nodes', loopBody M st
            = Some {| ResultGraph := set_Nodes nodes' (ResultGraph st);
                      CallGraph := CallGraph st |}
            ∧ extends (Nodes (ResultGraph st)) nodes'.
Proof.
  intros Hwf. unfold loopBody.
  destruct (mergeCalls_ok M (CallGraph st) (ResultGraph st) 0
              (FunctionCalls (ResultGraph st)) Hwf) as (nodes' & -> & Hext).
  by exists nodes'.
Qed.

(** Merging two nodes merges what their fields point to. *)
Example merge_follows_edges :
  ∃ nodes', mergeWith two_cells (Some 1) (Some 2) = Some nodes'
            ∧ getNode nodes' 3 = getNode nodes' 4
            ∧ funcsAt nodes' 4 = {["f"; "g"]}.
Proof.
  destruct (mergeWith two_cells (Some 1) (Some 2)) as [nodes'|] eqn:Hm;
    [|by vm_compute in Hm].
  exists nodes'. split; [done|].
  vm_compute in Hm. injection Hm as <-. by vm_compute.
Qed.

(** *** Callee sets *)

Lemma eraseUncallable_filter M CS l :
  eraseUncallable M CS l = filter (λ F, functionIsCallable M (Site CS) F = true) l.
Proof.
  induction l as [|F l IH]; [done|]. simpl. rewrite filter_cons, IH.
  destruct (functionIsCallable M (Site CS) F) eqn:HF.
  - by rewrite decide_True.
  - by rewrite decide_False.
Qed.

Lemma getAllCallees_union M G CS Callees :
  getAllCallees M G CS Callees = Callees ∪ candidateSet M G CS.
Proof.
  unfold getAllCallees, candidateSet, addFullFunctionSet.
  destruct (CalleeF CS) as [F|].
  - apply set_eq. intros F'. destruct (isDeclaration M F) eqn:HF; simpl.
    + rewrite elem_of_union, elem_of_filter, elem_of_singleton.
      split; [by left|]. intros [?|[? ->]]; [done|congruence].
    + rewrite !elem_of_union, elem_of_filter, elem_of_singleton.
      split; [intros [->|?]; eauto|]. intros [?|[_ ->]]; eauto.
  - f_equal. rewrite eraseUncallable_filter. apply set_eq. intros F.
    rewrite elem_of_list_to_set, list_elem_of_filter, elem_of_elements.
    destruct (getCalleeNode G CS) as [node|].
    + rewrite elem_of_filter. set_solver.
    + set_solver.
Qed.

Lemma candidateSet_indirect M G CS :
  CalleeF CS = None →
  candidateSet M G CS
  = filter (λ F, functionIsCallable M (Site CS) F = true)
           (match CalleeN CS with
            | Some n => funcsAt (Nodes G) n
            | None => ∅
            end).
Proof.
  intros Hind. unfold candidateSet, getCalleeNode, funcsAt. rewrite Hind.
  destruct (CalleeN CS) as [n|]; [|set_solver].
  destruct (Nodes G !! getNode (Nodes G) n); [done|set_solver].
Qed.

Lemma candidateSet_direct M G nodes' CS :
  is_Some (CalleeF CS) →
  candidateSet M (set_Nodes nodes' G) CS = candidateSet M G CS.
Proof. intros [F HF]. unfold candidateSet. by rewrite HF. Qed.

Lemma candidateSet_grows M G nodes' CS :
  grows (Nodes G) nodes' →
  candidateSet M G CS ⊆ candidateSet M (set_Nodes nodes' G) CS.
Proof.
  intros Hg. destruct (CalleeF CS) as [F|] eqn:HF.
  - by rewrite candidateSet_direct.
  - rewrite !candidateSet_indirect by done. simpl.
    destruct (CalleeN CS) as [n|]; [|done].
    intros F. rewrite !elem_of_filter. intros [? ?]. split; [done|]. by apply Hg.
Qed.

Lemma funcsAt_bounded U nodes n : bounded U nodes → funcsAt nodes n ⊆ U.
Proof.
  intros Hb. unfold funcsAt.
  destruct (nodes !! getNode nodes n) as [node|] eqn:Hn; [by eapply Hb|set_solver].
Qed.

Lemma candidateSet_size M G CS U :
  bounded U (Nodes G) → size (candidateSet M G CS) ≤ S (size U).
Proof.
  intros Hb. destruct (CalleeF CS) as [F|] eqn:HF.
  - unfold candidateSet. rewrite HF.
    etrans; [apply (subseteq_size _ {[F]})|]; [set_solver|].
    rewrite size_singleton. lia.
  - rewrite candidateSet_indirect by done.
    etrans; [apply (subseteq_size _ U)|lia].
    destruct (CalleeN CS) as [n|]; [|set_solver].
    pose proof (funcsAt_bounded U (Nodes G) n Hb). set_solver.
Qed.

Lemma allFunctions_bounded nodes : bounded (allFunctions nodes) nodes.
Proof.
  intros n node Hn F HF. unfold allFunctions. apply elem_of_union_list.
  exists (list_to_set (functionsOf node)). split; [|done].
  apply list_elem_of_fmap. exists (n, node). split; [done|].
  by apply elem_of_map_to_list.
Qed.

(** *** [buildCallGraph] *)

Lemma buildCallGraph_from_spec M G Calls i CG changed :
  (∀ j CS, Calls !! j = Some CS →
           (buildCallGraph_from M G i Calls CG changed).2 !! (i + j)
           = Some (candidateSet M G CS))
  ∧ (∀ k, k < i ∨ i + length Calls ≤ k →
          (buildCallGraph_from M G i Calls CG changed).2 !! k = CG !! k)
  ∧ ((buildCallGraph_from M G i Calls CG changed).1 = true
     ↔ changed = true
       ∨ ∃ j CS, Calls !! j = Some CS
                 ∧ default ∅ (CG !! (i + j)) ≠ candidateSet M G CS).
Proof.
  revert i CG changed.
  induction Calls as [|CurCall Calls IH]; intros i CG changed; simpl.
  { split; [done|]. split; [done|]. split; [by left|].
    intros [?|(j & CS & ? & _)]; done. }
  rewrite getAllCallees_union, (left_id_L ∅ (∪)).
  destruct (IH (S i) (<[i := candidateSet M G CurCall]> CG)
               (changed || negb (bool_decide (default ∅ (CG !! i)
                                              = candidateSet M G CurCall))))
    as (Hnew & Hold & Hch).
  split; [|split].
  - intros [|j] CS Hj; simpl in Hj.
    + injection Hj as <-. rewrite Hold by lia.
      by rewrite Nat.add_0_r, lookup_insert_eq.
    + replace (i + S j) with (S i + j) by lia. by apply Hnew.
  - intros k Hk. rewrite Hold by lia. apply lookup_insert_ne. lia.
  - rewrite Hch, orb_true_iff, negb_true_iff, bool_decide_eq_false. split.
    + intros [[?|Hne]|(j & CS & Hj & Hne)]; [by left| |].
      * right. exists 0, CurCall. by rewrite Nat.add_0_r.
      * right. exists (S j), CS. split; [done|].
        replace (i + S j) with (S i + j) by lia.
        by rewrite lookup_insert_ne in Hne by lia.
    + intros [?|([|j] & CS & Hj & Hne)]; [by left; left| |]; simpl in Hj.
      * injection Hj as <-. rewrite Nat.add_0_r in Hne. by left; right.
      * right. exists j, CS. split; [done|].
        replace (S i + j) with (i + S j) by lia.
        by rewrite lookup_insert_ne by lia.
Qed.

Lemma buildCallGraph_spec M st :
  ResultGraph (buildCallGraph M st).2 = ResultGraph st
  ∧ (∀ j CS, FunctionCalls (ResultGraph st) !! j = Some CS →
             CallGraph (buildCallGraph M st).2 !! j
             = Some (candidateSet M (ResultGraph st) CS))
  ∧ (∀ k, length (FunctionCalls (ResultGraph st)) ≤ k →
          CallGraph (buildCallGraph M st).2 !! k = CallGraph st !! k)
  ∧ ((buildCallGraph M st).1 = true
     ↔ ∃ j CS, FunctionCalls (ResultGraph st) !! j = Some CS
               ∧ default ∅ (CallGraph st !! j) ≠ candidateSet M (ResultGraph st) CS).
Proof.
  unfold buildCallGraph.
  pose proof (buildCallGraph_from_spec M (ResultGraph st) (FunctionCalls (ResultGraph st))
                0 (CallGraph st) false) as (Hnew & Hold & Hch).
  destruct (buildCallGraph_from _ _ _ _ _ _) as [changed CG]. simpl in *.
  split; [done|]. split; [done|]. split.
  - intros k Hk. apply Hold. lia.
  - rewrite Hch. split; [intros [?|?]; done | by right].
Qed.

(** *** The fixpoint loop *)

Lemma sum_list_le (f g : nat → nat) (l : list nat) :
  (∀ i, i ∈ l → f i ≤ g i) → sum_list (f <$> l) ≤ sum_list (g <$> l).
Proof.
  induction l as [|x l IH]; intros Hle; [done|].
  pose proof (Hle x (list_elem_of_here _ _)).
  assert (sum_list (f <$> l) ≤ sum_list (g <$> l))
    by (apply IH; intros i Hi; apply Hle; by right).
  rewrite !fmap_cons. simpl. lia.
Qed.

Lemma sum_list_lt (f g : nat → nat) (l : list nat) :
  (∀ i, i ∈ l → f i ≤ g i) → (∃ i, i ∈ l ∧ f i < g i) →
  sum_list (f <$> l) < sum_list (g <$> l).
Proof.
  induction l as [|x l IH]; intros Hle (i & Hi & Hlt).
  { by apply elem_of_nil in Hi. }
  pose proof (Hle x (list_elem_of_here _ _)).
  assert (∀ i, i ∈ l → f i ≤ g i) as Hle' by (intros j Hj; apply Hle; by right).
  rewrite !fmap_cons. simpl.
  apply elem_of_cons in Hi as [->|Hi].
  - pose proof (sum_list_le f g l Hle'). lia.
  - assert (sum_list (f <$> l) < sum_list (g <$> l)) by (apply IH; eauto). lia.
Qed.

Lemma sum_list_bound (f : nat → nat) (l : list nat) (B : nat) :
  (∀ i, i ∈ l → f i ≤ B) → sum_list (f <$> l) ≤ length l * B.
Proof.
  induction l as [|x l IH]; intros Hle; [done|].
  pose proof (Hle x (list_elem_of_here _ _)).
  assert (sum_list (f <$> l) ≤ length l * B)
    by (apply IH; intros i Hi; apply Hle; by right).
  rewrite fmap_cons. simpl. lia.
Qed.

(** From a state that satisfies the invariant the loop ends within as
    many rounds as the callee sets can still grow. *)
Lemma fixpointLoop_from_inv M U d st :
  loopInv M U st →
  length (FunctionCalls (ResultGraph st)) * S (size U)
    - totalCallees (CallGraph st) (length (FunctionCalls (ResultGraph st))) ≤ d →
  ∃ st', fixpointLoop (S d) M st = Some st'.
Proof.
  revert st. induction d as [|d IH]; intros st (Hwf & Hb & Hsub) Hd.
  all: cbn [fixpointLoop];
    destruct (buildCallGraph_spec M st) as (HG & Hnew & _ & Hch);
    destruct (buildCallGraph M st) as [changed st1]; simpl in *;
    destruct changed; [|by eexists].
  all: destruct (proj1 Hch eq_refl) as (j & CS & Hj & Hne).
  all: assert (totalCallees (CallGraph st) (length (FunctionCalls (ResultGraph st)))
               < totalCallees (CallGraph st1) (length (FunctionCalls (ResultGraph st)))) as Hlt.
  1,3: unfold totalCallees; apply sum_list_lt.
  1,3: intros i [_ Hi]%elem_of_seq;
       destruct (lookup_lt_is_Some_2 _ _ Hi) as [CSi HCSi];
       rewrite (Hnew _ _ HCSi); simpl; apply subseteq_size; by apply Hsub.
  1,2: exists j; split;
       [apply elem_of_seq; split; [lia|]; simpl; by eapply lookup_lt_Some|];
       rewrite (Hnew _ _ Hj); simpl; apply subset_size;
       split; [by apply Hsub|]; intros Hsup; apply Hne;
       apply (anti_symm (⊆)); [by apply Hsub | done].
  all: assert (totalCallees (CallGraph st1) (length (FunctionCalls (ResultGraph st)))
               ≤ length (FunctionCalls (ResultGraph st)) * S (size U)) as Hle.
  1,3: unfold totalCallees;
       etrans; [apply (sum_list_bound _ _ (S (size U)))|by rewrite length_seq];
       intros i [_ Hi]%elem_of_seq;
       destruct (lookup_lt_is_Some_2 _ _ Hi) as [CSi HCSi];
       rewrite (Hnew _ _ HCSi); simpl; by apply candidateSet_size.
  - lia.
  - rewrite <-HG in Hwf.
    destruct (loopBody_ok M st1 Hwf) as (nodes' & -> & Hext).
    rewrite HG in Hext. destruct Hext as (Hwf' & Hg & Hb').
    apply IH.
    + split; [done|]. split; [by apply Hb'|]. simpl. rewrite HG.
      intros i CSi HCSi. rewrite (Hnew _ _ HCSi). simpl.
      by apply candidateSet_grows.
    + simpl. rewrite HG. simpl. lia.
Qed.

Lemma fixpointLoop_more_fuel M fuel k st st' :
  fixpointLoop fuel M st = Some st' → fixpointLoop (fuel + k) M st = Some st'.
Proof.
  revert st. induction fuel as [|fuel IH]; intros st; [done|]. simpl.
  destruct (buildCallGraph M st) as [[] st1]; [|done].
  destruct (loopBody M st1) as [st2|]; [apply IH | done].
Qed.

Lemma loopHead_WF M k st st' :
  WF (Nodes (ResultGraph st)) → loopHead k M st = Some st' →
  WF (Nodes (ResultGraph st'))
  ∧ FunctionCalls (ResultGraph st') = FunctionCalls (ResultGraph st).
Proof.
  intros Hwf. revert st'. induction k as [|k IH]; intros st'; simpl.
  { by intros [= <-]. }
  destruct (loopHead k M st) as [st0|]; [|done].
  destruct (IH st0 eq_refl) as [Hwf0 Hcalls].
  destruct (buildCallGraph_spec M st0) as (HG & _).
  destruct (buildCallGraph M st0) as [[] st1]; [|done]. simpl in HG.
  rewrite <-HG in Hwf0, Hcalls.
  destruct (loopBody_ok M st1 Hwf0) as (nodes' & -> & Hext).
  intros [= <-]. simpl. split; [apply Hext | done].
Qed.

Lemma WF_unforwarded nodes :
  map_Forall (λ _ node, Forward node = None) nodes → WF nodes.
Proof.
  intros Hall n. exists n, 0. split; [|lia]. apply chain_end. unfold fwd.
  destruct (nodes !! n) as [node|] eqn:Hn; [|done]. simpl. by eapply Hall.
Qed.

Lemma fp2_start_WF : WF (Nodes (ResultGraph fp2_start)).
Proof.
  apply WF_unforwarded.
  apply (bool_decide_unpack (map_Forall (λ (_ : nat) (node : DSNode),
                                          Forward node = None) _)).
  by vm_compute.
Qed.

(** *** The statements about the driver *)

(** C6: the set [getAllCallees] computes for a call site is the set of
    the design: for a direct site the called function unless it is a
    declaration, for an indirect site the functions of the globals of
    the callee node that [functionIsCallable] accepts; what it leaves
    in [Callees] is that set united with what was there; and it is the
    set every evaluation of [buildCallGraph] stores for the site. *)
Theorem getAllCallees_is_candidate_set M G CS :
  getAllCallees M G CS ∅ = candidateSet M G CS
  ∧ (∀ Callees, getAllCallees M G CS Callees = Callees ∪ candidateSet M G CS)
  ∧ (∀ F, F ∈ getAllCallees M G CS ∅ ↔
          match CalleeF CS with
          | Some CF => F = CF ∧ isDeclaration M CF = false
          | None =>
              ∃ node, getCalleeNode G CS = Some node
                      ∧ GFunction F ∈ Globals node
                      ∧ functionIsCallable M (Site CS) F = true
          end)
  ∧ (∀ CG j, FunctionCalls G !! j = Some CS →
             CallGraph (buildCallGraph M {| ResultGraph := G; CallGraph := CG |}).2 !! j
             = Some (candidateSet M G CS)).
Proof.
  split; [|split; [|split]]; cycle 3.
  { intros CG j Hj.
    by apply (buildCallGraph_spec M {| ResultGraph := G; CallGraph := CG |}). }
  - by rewrite getAllCallees_union, (left_id_L ∅ (∪)).
  - apply getAllCallees_union.
  - intros F. rewrite getAllCallees_union, (left_id_L ∅ (∪)). unfold candidateSet.
    destruct (CalleeF CS) as [CF|].
    + rewrite elem_of_filter, elem_of_singleton. split.
      * by intros [? ->].
      * by intros [-> ?].
    + destruct (getCalleeNode G CS) as [node|].
      * rewrite elem_of_filter, elem_of_list_to_set. unfold functionsOf.
        rewrite list_elem_of_omap. split.
        -- intros (Hc & g & Hg & HF). exists node. destruct g; simplify_eq. done.
        -- intros (? & [= <-] & Hg & Hc). split; [done|]. by exists (GFunction F).
      * split; [set_solver|]. by intros (? & ? & _).
Qed.

(** C2: in the fixpoint loop started from a well-formed result graph,
    the callee set that the next evaluation of [buildCallGraph] stores
    for a site contains the one the evaluation before it stored. *)
Theorem callee_sets_monotone M st k i X Y :
  WF (Nodes (ResultGraph st)) →
  calleesAt k M st i = Some X →
  calleesAt (S k) M st i = Some Y →
  X ⊆ Y.
Proof.
  intros Hwf. unfold calleesAt. simpl.
  destruct (loopHead k M st) as [st0|] eqn:Hhead; [|done].
  destruct (loopHead_WF _ _ _ _ Hwf Hhead) as [Hwf0 _].
  destruct (buildCallGraph_spec M st0) as (HG & Hnew & _).
  destruct (buildCallGraph M st0) as [changed st1]. simpl in *.
  intros HX. destruct changed; [|done].
  rewrite <-HG in Hwf0.
  destruct (loopBody_ok M st1 Hwf0) as (nodes' & -> & Hext).
  set (st2 := {| ResultGraph := set_Nodes nodes' (ResultGraph st1);
                 CallGraph := CallGraph st1 |}).
  destruct (buildCallGraph_spec M st2) as (_ & Hnew2 & Hold2 & _).
  simpl in Hnew2, Hold2. intros HY.
  destruct (FunctionCalls (ResultGraph st1) !! i) as [CS|] eqn:HCS.
  - rewrite (Hnew2 _ _ HCS) in HY. rewrite HG in HCS.
    rewrite (Hnew _ _ HCS) in HX. simplify_eq.
    rewrite <-HG. apply candidateSet_grows, Hext.
  - apply lookup_ge_None in HCS. rewrite (Hold2 _ HCS) in HY. by simplify_eq.
Qed.

(** C3: from a well-formed result graph the fixpoint loop ends: there
    is a final state that every run reaches whose fuel is at least two
    plus the number of call sites times one more than the number of
    functions in the globals lists of the graph. *)
Theorem fixpoint_loop_terminates M st :
  WF (Nodes (ResultGraph st)) →
  ∃ st', ∀ fuel,
    2 + length (FunctionCalls (ResultGraph st))
        * S (size (allFunctions (Nodes (ResultGraph st)))) ≤ fuel →
    fixpointLoop fuel M st = Some st'.
Proof.
  intros Hwf.
  set (U := allFunctions (Nodes (ResultGraph st))).
  set (d := length (FunctionCalls (ResultGraph st)) * S (size U)).
  assert (∃ st', fixpointLoop (2 + d) M st = Some st') as [st' Hrun].
  { cbn [fixpointLoop Nat.add].
    destruct (buildCallGraph_spec M st) as (HG & Hnew & _).
    destruct (buildCallGraph M st) as [changed st1]. simpl in HG, Hnew.
    destruct changed; [|by eexists].
    assert (WF (Nodes (ResultGraph st1))) as Hwf1 by by rewrite HG.
    destruct (loopBody_ok M st1 Hwf1) as (nodes' & -> & Hext).
    rewrite HG in Hext. destruct Hext as (Hwf' & Hg & Hb').
    apply (fixpointLoop_from_inv M U).
    - split; [done|]. split; [apply Hb', allFunctions_bounded|].
      simpl. rewrite HG. intros j CS HCS. rewrite (Hnew _ _ HCS). simpl.
      by apply candidateSet_grows.
    - simpl. rewrite HG. simpl. unfold d. lia. }
  exists st'. intros fuel Hfuel. fold U d in Hfuel. clearbody d.
  replace fuel with ((2 + d) + (fuel - (2 + d))) by lia.
  by apply fixpointLoop_more_fuel.
Qed.

Lemma getAllCallees_is_candidate_set_witness :
  ∃ CS, FunctionCalls (ResultGraph fp2_start) !! 1 = Some CS
        ∧ CallGraph (buildCallGraph fp2_module fp2_start).2 !! 1
          = Some (candidateSet fp2_module (ResultGraph fp2_start) CS)
        ∧ candidateSet fp2_module (ResultGraph fp2_start) CS = {["call"]}.
Proof.
  destruct (FunctionCalls (ResultGraph fp2_start) !! 1) as [CS|] eqn:HCS;
    [|by vm_compute in HCS].
  exists CS. split; [done|]. split.
  - exact (proj2 (proj2 (proj2 (getAllCallees_is_candidate_set
                                  fp2_module (ResultGraph fp2_start) CS)))
             (CallGraph fp2_start) 1 HCS).
  - vm_compute in HCS. injection HCS as <-. by vm_compute.
Defined.

Lemma callee_sets_monotone_witness :
  calleesAt 0 fp2_module fp2_start 0 = Some ∅
  ∧ calleesAt 1 fp2_module fp2_start 0 = Some {["foo"]}
  ∧ (∅ : FuncSet) ⊆ {["foo"]}.
Proof.
  assert (calleesAt 0 fp2_module fp2_start 0 = Some ∅) as H1 by by vm_compute.
  assert (calleesAt 1 fp2_module fp2_start 0 = Some {["foo"]}) as H2 by by vm_compute.
  split; [done|]. split; [done|].
  exact (callee_sets_monotone fp2_module fp2_start 0 0 ∅ {["foo"]} fp2_start_WF H1 H2).
Defined.

Lemma fixpoint_loop_terminates_witness :
  ∃ st', fixpointLoop 8 fp2_module fp2_start = Some st'.
Proof.
  destruct (fixpoint_loop_terminates fp2_module fp2_start fp2_start_WF) as [st' Hrun].
  exists st'. apply Hrun. vm_compute. lia.
Defined.

(** *** The test module [fp2.ll] *)

(** C1: on the module of [fp2.ll], with the local graphs of its three
    functions, the pass runs to completion with any fuel of at least
    three, returns false, and in its result graph the scalar-map
    handles of [main:mval] and [foo:fval], of [main:mval2] and
    [main:mval], and of [call:cval] and [main:mval] normalise to the
    same node. *)
Theorem fp2_same_nodes (k : nat) :
  ∃ st, runOnModuleInternal (3 + k) fp2_module fp2_local = Some (false, st)
        ∧ sameNode (ResultGraph st) (local "main" "mval") (local "foo" "fval") = true
        ∧ sameNode (ResultGraph st) (local "main" "mval2") (local "main" "mval") = true
        ∧ sameNode (ResultGraph st) (local "call" "cval") (local "main" "mval") = true.
Proof.
  unfold runOnModuleInternal. fold fp2_start.
  destruct (fixpointLoop 3 fp2_module fp2_start) as [st'|] eqn:Hrun;
    [|by vm_compute in Hrun].
  rewrite (fixpointLoop_more_fuel _ _ k _ _ Hrun).
  eexists. split; [done|].
  vm_compute in Hrun. injection Hrun as <-. by vm_compute.
Qed.

(** *** More of the driver: [buildCallGraph] and the loop exit *)

Lemma buildCallGraph_stable M st :
  (∀ j CS, FunctionCalls (ResultGraph st) !! j = Some CS →
           CallGraph st !! j = Some (candidateSet M (ResultGraph st) CS)) →
  buildCallGraph M st = (false, st).
Proof.
  intros Hcur.
  destruct (buildCallGraph_spec M st) as (HG & Hnew & Hold & Hch).
  destruct (buildCallGraph M st) as [changed st1]. simpl in *. f_equal.
  - destruct changed; [|done].
    destruct (proj1 Hch eq_refl) as (j & CS & Hj & Hne).
    by rewrite (Hcur _ _ Hj) in Hne.
  - destruct st1 as [G1 CG1], st as [G CG]. simpl in *. f_equal; [done|].
    apply map_eq. intros k.
    destruct (decide (k < length (FunctionCalls G))) as [Hk|Hk].
    + destruct (lookup_lt_is_Some_2 _ _ Hk) as [CS HCS].
      by rewrite (Hnew _ _ HCS), (Hcur _ _ HCS).
    + apply Hold. lia.
Qed.

Lemma fixpointLoop_current fuel M st st' :
  fixpointLoop fuel M st = Some st' →
  ∀ j CS, FunctionCalls (ResultGraph st') !! j = Some CS →
          CallGraph st' !! j = Some (candidateSet M (ResultGraph st') CS).
Proof.
  revert st. induction fuel as [|fuel IH]; intros st; [done|]. simpl.
  destruct (buildCallGraph_spec M st) as (HG & Hnew & _).
  destruct (buildCallGraph M st) as [[] st1]; simpl in *.
  - destruct (loopBody M st1) as [st2|]; [apply IH | done].
  - intros [= <-]. by rewrite HG.
Qed.

(** What the loop leaves for [fp2.ll]. *)
Lemma fp2_loop_facts :
  ∃ st' CS, fixpointLoop 3 fp2_module fp2_start = Some st'
            ∧ FunctionCalls (ResultGraph st') !! 0 = Some CS
            ∧ CallGraph st' !! 0 = Some {["foo"]}
            ∧ "foo" ∈ candidateSet fp2_module (ResultGraph st') CS
            ∧ (Some 8, Some 2) ∈ callBindings fp2_module (ResultGraph st') CS "foo".
Proof.
  assert (match fixpointLoop 3 fp2_module fp2_start with
          | Some st' =>
              match FunctionCalls (ResultGraph st') !! 0 with
              | Some CS =>
                  bool_decide
                    (CallGraph st' !! 0 = Some {["foo"]}
                     ∧ "foo" ∈ candidateSet fp2_module (ResultGraph st') CS
                     ∧ (Some 8, Some 2)
                         ∈ callBindings fp2_module (ResultGraph st') CS "foo")
              | None => false
              end
          | None => false
          end = true) as Hf by (vm_compute; reflexivity).
  destruct (fixpointLoop 3 fp2_module fp2_start) as [st'|]; [|done].
  destruct (FunctionCalls (ResultGraph st') !! 0) as [CS|] eqn:HCS; [|done].
  apply bool_decide_eq_true in Hf as (H1 & H2 & H3). by exists st', CS.
Qed.

(** X10: [buildCallGraph] evaluated a second time on the state it
    leaves reports no change and leaves the state as it is. *)
Theorem buildCallGraph_idempotent M st :
  buildCallGraph M (buildCallGraph M st).2 = (false, (buildCallGraph M st).2).
Proof.
  apply buildCallGraph_stable. intros j CS.
  destruct (buildCallGraph_spec M st) as (HG & Hnew & _).
  rewrite HG. apply Hnew.
Qed.

(** X11: when the fixpoint loop is left, the stored callee set of every
    site is the candidate set the final graph gives for it, and one
    more evaluation of [buildCallGraph] would report no change. *)
Theorem loop_exit_call_graph_current fuel M st st' :
  fixpointLoop fuel M st = Some st' →
  (∀ j CS, FunctionCalls (ResultGraph st') !! j = Some CS →
           CallGraph st' !! j = Some (candidateSet M (ResultGraph st') CS))
  ∧ buildCallGraph M st' = (false, st').
Proof.
  intros Hrun. pose proof (fixpointLoop_current _ _ _ _ Hrun) as Hcur.
  split; [done|]. by apply buildCallGraph_stable.
Qed.

Lemma loop_exit_call_graph_current_witness :
  ∃ st', fixpointLoop 3 fp2_module fp2_start = Some st'
         ∧ CallGraph st' !! 0 = Some {["foo"]}
         ∧ buildCallGraph fp2_module st' = (false, st').
Proof.
  destruct fp2_loop_facts as (st' & CS & Hrun & _ & HCG & _).
  exists st'. split; [done|]. split; [done|].
  exact (proj2 (loop_exit_call_graph_current 3 fp2_module fp2_start st' Hrun)).
Defined.

(** *** What merging does to normalisation *)

Lemma coarser_refl nodes : coarser nodes nodes.
Proof. by split. Qed.

Lemma coarser_trans n1 n2 n3 : coarser n1 n2 → coarser n2 n3 → coarser n1 n3.
Proof.
  intros [Hd1 Hs1] [Hd2 Hs2]. split; [congruence|].
  intros a b Hab. by apply Hs2, Hs1.
Qed.

Lemma validHandle_coarser nodes nodes' h :
  coarser nodes nodes' → validHandle nodes h → validHandle nodes' h.
Proof. intros [Hd _] Hv n Hn. rewrite Hd. by apply Hv. Qed.

Lemma pairsValid_coarser nodes nodes' pairs :
  coarser nodes nodes' → pairsValid nodes pairs → pairsValid nodes' pairs.
Proof.
  intros Hc Hv h1 h2 Hin. destruct (Hv _ _ Hin).
  split; by eapply validHandle_coarser.
Qed.

Lemma pairsMerged_coarser nodes nodes' pairs :
  coarser nodes nodes' → pairsMerged nodes pairs → pairsMerged nodes' pairs.
Proof.
  intros [_ Hs] Hm h1 h2 Hin a b Ha Hb. apply Hs. by eapply Hm.
Qed.

Lemma getNode_valid nodes n :
  WF nodes → closed nodes → n ∈ dom nodes → getNode nodes n ∈ dom nodes.
Proof.
  intros Hwf Hcl. destruct (WF_getNode _ n Hwf) as (k & Hc & _).
  induction Hc as [n Hn|n t r k Hn Hc IH]; [done|].
  intros _. apply IH. unfold fwd in Hn.
  destruct (nodes !! n) as [node|] eqn:Hnode; [|done]. simpl in Hn.
  by apply (Hcl _ _ Hnode).
Qed.

Section UnifyMore.
Variables (nodes : NodeStore) (r s : NodeId) (Nr Ns : DSNode).
Hypothesis Hr : nodes !! r = Some Nr.
Hypothesis Hs : nodes !! s = Some Ns.
Hypothesis Hfr : Forward Nr = None.
Hypothesis Hfs : Forward Ns = None.
Hypothesis Hne : r ≠ s.
Hypothesis Hwf : WF nodes.

Lemma dom_unified : dom (unified nodes r s Nr Ns) = dom nodes.
Proof using All.
  unfold unified. rewrite !dom_insert_L.
  apply elem_of_dom_2 in Hr, Hs. set_solver.
Qed.

Lemma coarser_unified : coarser nodes (unified nodes r s Nr Ns).
Proof using All.
  split; [apply dom_unified|]. intros a b Hab.
  rewrite !(getNode_unified nodes r s Nr Ns Hr Hs Hfr Hfs Hne) by done.
  by rewrite Hab.
Qed.

Lemma closed_unified : closed nodes → closed (unified nodes r s Nr Ns).
Proof using All.
  intros Hcl n node. unfold validHandle. rewrite dom_unified.
  rewrite unified_lookup by done.
  repeat case_decide; intros Hn; simplify_eq; simpl.
  - split; [|apply map_Forall_empty]. intros t [= <-]. by eapply elem_of_dom_2.
  - split; [by intros ? ?|]. intros o t [Ht|[_ Ht]]%lookup_union_Some_raw.
    + by apply (Hcl _ _ Hr) in Ht.
    + by apply (Hcl _ _ Hs) in Ht.
  - by apply (Hcl n).
Qed.

Lemma edgeWork_valid a b :
  closed nodes → (a, b) ∈ edgeWork Nr Ns → a ∈ dom nodes ∧ b ∈ dom nodes.
Proof using All.
  intros Hcl. unfold edgeWork. rewrite list_elem_of_omap.
  intros ([o t] & Hin & Hab). apply elem_of_map_to_list in Hin. simpl in Hab.
  destruct (Links Nr !! o) as [t'|] eqn:Ho; [|done]. injection Hab as <- <-.
  split; [by apply (Hcl _ _ Hr) in Ho | by apply (Hcl _ _ Hs) in Hin].
Qed.

Lemma getNode_unified_r a :
  getNode nodes a = r → getNode (unified nodes r s Nr Ns) a = r.
Proof using All.
  intros Ha. rewrite (getNode_unified nodes r s Nr Ns Hr Hs Hfr Hfs Hne) by done.
  rewrite Ha. by rewrite decide_False.
Qed.

Lemma getNode_unified_s b :
  getNode nodes b = s → getNode (unified nodes r s Nr Ns) b = r.
Proof using All.
  intros Hb. rewrite (getNode_unified nodes r s Nr Ns Hr Hs Hfr Hfs Hne) by done.
  by rewrite decide_True.
Qed.
End UnifyMore.

Lemma mergeStep_inv nodes a b nodes' pending :
  WF nodes → mergeStep nodes a b = Some (nodes', pending) →
  ∃ r s Nr Ns,
    nodes !! r = Some Nr ∧ nodes !! s = Some Ns
    ∧ Forward Nr = None ∧ Forward Ns = None ∧ r ≠ s
    ∧ nodes' = unified nodes r s Nr Ns ∧ pending = edgeWork Nr Ns
    ∧ (getNode nodes a = r ∧ getNode nodes b = s
       ∨ getNode nodes a = s ∧ getNode nodes b = r).
Proof.
  intros Hwf. unfold mergeStep. case_decide as Hne; [done|].
  destruct (nodes !! getNode nodes a) as [N1|] eqn:H1; [|done].
  destruct (nodes !! getNode nodes b) as [N2|] eqn:H2; [|done].
  pose proof (lookup_not_forwarded _ _ _ (WF_getNode_fwd _ a Hwf) H1) as Hf1.
  pose proof (lookup_not_forwarded _ _ _ (WF_getNode_fwd _ b Hwf) H2) as Hf2.
  destruct (Size N2 <=? Size N1)%N; intros [= <- <-].
  - exists (getNode nodes a), (getNode nodes b), N1, N2. eauto 10.
  - exists (getNode nodes b), (getNode nodes a), N2, N1. eauto 10.
Qed.

Lemma mergeStep_None nodes a b :
  WF nodes → closed nodes → a ∈ dom nodes → b ∈ dom nodes →
  mergeStep nodes a b = None → getNode nodes a = getNode nodes b.
Proof.
  intros Hwf Hcl Ha Hb. unfold mergeStep. case_decide as Hne; [done|].
  apply (getNode_valid _ _ Hwf Hcl), elem_of_dom in Ha as [N1 ->].
  apply (getNode_valid _ _ Hwf Hcl), elem_of_dom in Hb as [N2 ->].
  by destruct (Size N2 <=? Size N1)%N.
Qed.

(** What a merge leaves: a well-formed store with the same nodes in
    which nothing has been split; and when the store is closed and the
    work names nodes of it, every pair of the work has been unified. *)
Lemma mergeLoop_post fuel nodes work nodes' :
  WF nodes → mergeLoop fuel nodes work = Some nodes' →
  WF nodes' ∧ coarser nodes nodes'
  ∧ (closed nodes →
     (∀ a b, (a, b) ∈ work → a ∈ dom nodes ∧ b ∈ dom nodes) →
     closed nodes'
     ∧ ∀ a b, (a, b) ∈ work → getNode nodes' a = getNode nodes' b).
Proof.
  revert fuel nodes work nodes'.
  assert (∀ nodes a b rest nodes',
            WF nodes → mergeStep nodes a b = None →
            (WF nodes' ∧ coarser nodes nodes'
             ∧ (closed nodes →
                (∀ a b, (a, b) ∈ rest → a ∈ dom nodes ∧ b ∈ dom nodes) →
                closed nodes'
                ∧ ∀ a b, (a, b) ∈ rest → getNode nodes' a = getNode nodes' b)) →
            WF nodes' ∧ coarser nodes nodes'
            ∧ (closed nodes →
               (∀ a' b', (a', b') ∈ (a, b) :: rest
                         → a' ∈ dom nodes ∧ b' ∈ dom nodes) →
               closed nodes'
               ∧ ∀ a' b', (a', b') ∈ (a, b) :: rest
                          → getNode nodes' a' = getNode nodes' b')) as Hskip.
  { intros nodes a b rest nodes' Hwf Hstep (Hwf' & Hco & Hrest).
    split; [done|]. split; [done|]. intros Hcl Hval.
    destruct Hrest as [Hcl' Hm]; [done| |].
    { intros a' b' Hin. apply Hval. by apply list_elem_of_further. }
    split; [done|]. intros a' b' [Heq|Hin]%elem_of_cons; [|by apply Hm].
    injection Heq as -> ->. apply Hco.
    destruct (Hval a b (list_elem_of_here _ _)).
    by apply mergeStep_None. }
  assert (∀ nodes a b rest nodes1 pending nodes',
            WF nodes → mergeStep nodes a b = Some (nodes1, pending) →
            (WF nodes' ∧ coarser nodes1 nodes'
             ∧ (closed nodes1 →
                (∀ a b, (a, b) ∈ pending ++ rest
                        → a ∈ dom nodes1 ∧ b ∈ dom nodes1) →
                closed nodes'
                ∧ ∀ a b, (a, b) ∈ pending ++ rest
                         → getNode nodes' a = getNode nodes' b)) →
            WF nodes' ∧ coarser nodes nodes'
            ∧ (closed nodes →
               (∀ a' b', (a', b') ∈ (a, b) :: rest
                         → a' ∈ dom nodes ∧ b' ∈ dom nodes) →
               closed nodes'
               ∧ ∀ a' b', (a', b') ∈ (a, b) :: rest
                          → getNode nodes' a' = getNode nodes' b')) as Htake.
  { intros nodes a b rest nodes1 pending nodes' Hwf Hstep (Hwf' & Hco & Hrest).
    destruct (mergeStep_inv _ _ _ _ _ Hwf Hstep)
      as (r & s & Nr & Ns & Hr & Hs & Hfr & Hfs & Hne & -> & -> & Hab).
    pose proof (coarser_unified nodes r s Nr Ns Hr Hs Hfr Hfs Hne Hwf) as Hco1.
    split; [done|]. split; [by eapply coarser_trans|]. intros Hcl Hval.
    destruct Hrest as [Hcl' Hm].
    { by apply closed_unified. }
    { intros a' b'. rewrite (dom_unified nodes r s Nr Ns Hr Hs Hfr Hfs Hne Hwf).
      intros [Hin|Hin]%elem_of_app.
      - by apply (edgeWork_valid nodes r s Nr Ns Hr Hs Hfr Hfs Hne Hwf).
      - apply Hval. by apply list_elem_of_further. }
    split; [done|]. intros a' b' [Heq|Hin]%elem_of_cons.
    - injection Heq as -> ->. apply Hco.
      destruct Hab as [[Ha Hb]|[Ha Hb]].
      + rewrite (getNode_unified_r nodes r s Nr Ns Hr Hs Hfr Hfs Hne Hwf a Ha).
        by rewrite (getNode_unified_s nodes r s Nr Ns Hr Hs Hfr Hfs Hne Hwf b Hb).
      + rewrite (getNode_unified_s nodes r s Nr Ns Hr Hs Hfr Hfs Hne Hwf a Ha).
        by rewrite (getNode_unified_r nodes r s Nr Ns Hr Hs Hfr Hfs Hne Hwf b Hb).
    - apply Hm. apply elem_of_app. by right. }
  induction fuel as [|fuel IHf]; intros nodes work;
    induction work as [|[a b] rest IHw]; intros nodes' Hwf.
  - rewrite mergeLoop_nil. intros [= <-]. split; [done|].
    split; [apply coarser_refl|]. intros Hcl _. split; [done|].
    intros a b Hin. by apply elem_of_nil in Hin.
  - rewrite mergeLoop_cons.
    destruct (mergeStep nodes a b) as [[nodes1 pending]|] eqn:Hstep; [done|].
    intros Hrun. by apply Hskip, IHw.
  - rewrite mergeLoop_nil. intros [= <-]. split; [done|].
    split; [apply coarser_refl|]. intros Hcl _. split; [done|].
    intros a b Hin. by apply elem_of_nil in Hin.
  - rewrite mergeLoop_cons.
    destruct (mergeStep nodes a b) as [[nodes1 pending]|] eqn:Hstep.
    + intros Hrun. eapply Htake; [done..|]. apply IHf; [|done].
      by apply (mergeStep_spec _ _ _ _ _ Hwf Hstep).
    + intros Hrun. by apply Hskip, IHw.
Qed.

Lemma mergeWith_post nodes h1 h2 nodes' :
  WF nodes → mergeWith nodes h1 h2 = Some nodes' →
  WF nodes' ∧ coarser nodes nodes'
  ∧ (closed nodes → validHandle nodes h1 → validHandle nodes h2 →
     closed nodes' ∧ merged nodes' h1 h2).
Proof.
  intros Hwf. unfold mergeWith.
  destruct h1 as [a|], h2 as [b|];
    try (intros [= <-]; split; [done|]; split; [apply coarser_refl|];
         intros Hcl _ _; split; [done|]; by intros ? ? ? ?).
  intros Hrun.
  destruct (mergeLoop_post _ _ _ _ Hwf Hrun) as (Hwf' & Hco & Hpost).
  split; [done|]. split; [done|]. intros Hcl Ha Hb.
  destruct Hpost as [Hcl' Hm]; [done| |].
  { intros a' b' [= -> ->]%list_elem_of_singleton. split; [by apply Ha | by apply Hb]. }
  split; [done|]. intros a' b' [= <-] [= <-]. apply Hm, list_elem_of_here.
Qed.

Lemma mergeAll_post nodes pairs nodes' :
  WF nodes → mergeAll nodes pairs = Some nodes' →
  WF nodes' ∧ coarser nodes nodes'
  ∧ (closed nodes → pairsValid nodes pairs →
     closed nodes' ∧ pairsMerged nodes' pairs).
Proof.
  revert nodes. induction pairs as [|[h1 h2] pairs IH]; intros nodes Hwf; simpl.
  { intros [= <-]. split; [done|]. split; [apply coarser_refl|].
    intros Hcl _. split; [done|]. intros ? ? Hin. by apply elem_of_nil in Hin. }
  destruct (mergeWith nodes h1 h2) as [nodes1|] eqn:Hm; [|done]. intros Hrun.
  destruct (mergeWith_post _ _ _ _ Hwf Hm) as (Hwf1 & Hco1 & Hpost1).
  destruct (IH _ Hwf1 Hrun) as (Hwf' & Hco' & Hpost').
  split; [done|]. split; [by eapply coarser_trans|]. intros Hcl Hval.
  destruct (Hval h1 h2 (list_elem_of_here _ _)) as [Hv1 Hv2].
  destruct (Hpost1 Hcl Hv1 Hv2) as [Hcl1 Hm1].
  destruct Hpost' as [Hcl' Hm']; [done| |].
  { eapply pairsValid_coarser; [done|]. intros ? ? Hin.
    apply Hval. by apply list_elem_of_further. }
  split; [done|]. intros k1 k2 [Heq|Hin]%elem_of_cons; [|by apply Hm'].
  injection Heq as -> ->. intros a b Ha Hb. apply Hco'. by apply Hm1.
Qed.

Lemma callBindings_set_Nodes M G nodes' CS F :
  callBindings M (set_Nodes nodes' G) CS F = callBindings M G CS F.
Proof. reflexivity. Qed.

Lemma set_Nodes_twice n1 n2 G : set_Nodes n2 (set_Nodes n1 G) = set_Nodes n2 G.
Proof. reflexivity. Qed.

Lemma mergeInGraph_post M G CS F G' :
  WF (Nodes G) → mergeInGraph M G CS F = Some G' →
  G' = set_Nodes (Nodes G') G ∧ WF (Nodes G') ∧ coarser (Nodes G) (Nodes G')
  ∧ (closed (Nodes G) → pairsValid (Nodes G) (callBindings M G CS F) →
     closed (Nodes G') ∧ pairsMerged (Nodes G') (callBindings M G CS F)).
Proof.
  intros Hwf. unfold mergeInGraph.
  destruct (mergeAll (Nodes G) (callBindings M G CS F)) as [nodes'|] eqn:Hm; [|done].
  intros [= <-]. split; [done|]. by apply mergeAll_post.
Qed.

Lemma mergeTargets_post M G CS targets G' :
  WF (Nodes G) → mergeTargets M G CS targets = Some G' →
  G' = set_Nodes (Nodes G') G ∧ WF (Nodes G') ∧ coarser (Nodes G) (Nodes G')
  ∧ (closed (Nodes G) →
     (∀ F, pairsValid (Nodes G) (callBindings M G CS F)) →
     closed (Nodes G')
     ∧ ∀ F, F ∈ targets → isDeclaration M F = false →
            pairsMerged (Nodes G') (callBindings M G CS F)).
Proof.
  revert G. induction targets as [|F targets IH]; intros G Hwf; simpl.
  { intros [= <-]. split; [by rewrite set_Nodes_id|]. split; [done|].
    split; [apply coarser_refl|]. intros Hcl _. split; [done|].
    intros ? Hin. by apply elem_of_nil in Hin. }
  destruct (isDeclaration M F) eqn:HF; simpl.
  { intros Hrun. destruct (IH _ Hwf Hrun) as (HG' & Hwf' & Hco & Hpost).
    split; [done|]. split; [done|]. split; [done|]. intros Hcl Hval.
    destruct (Hpost Hcl Hval) as [Hcl' Hm]. split; [done|].
    intros F' [->|Hin]%elem_of_cons HF'; [congruence | by apply Hm]. }
  destruct (mergeInGraph M G CS F) as [G1|] eqn:Hm; [|done]. intros Hrun.
  destruct (mergeInGraph_post _ _ _ _ _ Hwf Hm) as (HG1 & Hwf1 & Hco1 & Hpost1).
  destruct (IH _ Hwf1 Hrun) as (HG' & Hwf' & Hco' & Hpost').
  split; [by rewrite HG', HG1|]. split; [done|].
  split; [by eapply coarser_trans|]. intros Hcl Hval.
  destruct (Hpost1 Hcl (Hval F)) as [Hcl1 Hm1].
  destruct Hpost' as [Hcl' Hm']; [done| |].
  { intros F'. rewrite HG1, callBindings_set_Nodes.
    eapply pairsValid_coarser; [|apply Hval]. by rewrite HG1 in Hco1. }
  split; [done|]. intros F' [->|Hin]%elem_of_cons HF'.
  - by eapply pairsMerged_coarser.
  - specialize (Hm' F' Hin HF'). by rewrite HG1, callBindings_set_Nodes in Hm'.
Qed.

Lemma mergeCalls_post M CG G i Calls G' :
  WF (Nodes G) → mergeCalls M CG G i Calls = Some G' →
  G' = set_Nodes (Nodes G') G ∧ WF (Nodes G') ∧ coarser (Nodes G) (Nodes G')
  ∧ (closed (Nodes G) →
     (∀ CS F, CS ∈ Calls → pairsValid (Nodes G) (callBindings M G CS F)) →
     closed (Nodes G')
     ∧ ∀ j CS F, Calls !! j = Some CS → F ∈ default ∅ (CG !! (i + j)) →
                 isDeclaration M F = false →
                 pairsMerged (Nodes G') (callBindings M G CS F)).
Proof.
  revert G i. induction Calls as [|CurCall Calls IH]; intros G i Hwf; simpl.
  { intros [= <-]. split; [by rewrite set_Nodes_id|]. split; [done|].
    split; [apply coarser_refl|]. intros Hcl _. by split. }
  destruct (mergeTargets M G CurCall (elements (default ∅ (CG !! i))))
    as [G1|] eqn:Hm; [|done]. intros Hrun.
  destruct (mergeTargets_post _ _ _ _ _ Hwf Hm) as (HG1 & Hwf1 & Hco1 & Hpost1).
  destruct (IH _ _ Hwf1 Hrun) as (HG' & Hwf' & Hco' & Hpost').
  split; [by rewrite HG', HG1|]. split; [done|].
  split; [by eapply coarser_trans|]. intros Hcl Hval.
  destruct (Hpost1 Hcl) as [Hcl1 Hm1].
  { intros F. apply Hval, list_elem_of_here. }
  destruct Hpost' as [Hcl' Hm']; [done| |].
  { intros CS F Hin. rewrite HG1, callBindings_set_Nodes.
    eapply pairsValid_coarser; [by rewrite HG1 in Hco1|].
    apply Hval. by apply list_elem_of_further. }
  split; [done|]. intros [|j] CS F Hj HF Hdecl; simpl in Hj.
  - injection Hj as <-. rewrite Nat.add_0_r in HF.
    eapply pairsMerged_coarser; [done|]. apply Hm1; [|done].
    by apply elem_of_elements.
  - replace (i + S j) with (S i + j) in HF by lia.
    specialize (Hm' j CS F Hj HF Hdecl).
    by rewrite HG1, callBindings_set_Nodes in Hm'.
Qed.

Lemma loopBody_post M st st' :
  WF (Nodes (ResultGraph st)) → loopBody M st = Some st' →
  CallGraph st' = CallGraph st
  ∧ ResultGraph st' = set_Nodes (Nodes (ResultGraph st')) (ResultGraph st)
  ∧ WF (Nodes (ResultGraph st'))
  ∧ coarser (Nodes (ResultGraph st)) (Nodes (ResultGraph st'))
  ∧ (closed (Nodes (ResultGraph st)) →
     (∀ CS F, CS ∈ FunctionCalls (ResultGraph st) →
              pairsValid (Nodes (ResultGraph st))
                         (callBindings M (ResultGraph st) CS F)) →
     closed (Nodes (ResultGraph st')) ∧ calleesMerged M st').
Proof.
  intros Hwf. unfold loopBody.
  destruct (mergeCalls M (CallGraph st) (ResultGraph st) 0
              (FunctionCalls (ResultGraph st))) as [G'|] eqn:Hm; [|done].
  intros [= <-]. simpl.
  destruct (mergeCalls_post _ _ _ _ _ _ Hwf Hm) as (HG' & Hwf' & Hco & Hpost).
  split; [done|]. split; [done|]. split; [done|]. split; [done|].
  intros Hcl Hval. destruct (Hpost Hcl Hval) as [Hcl' Hmerged].
  split; [done|]. intros j CS F. simpl. rewrite HG'. simpl.
  rewrite callBindings_set_Nodes. apply Hmerged.
Qed.

(** The fixpoint loop only merges: it changes the node store and
    nothing else of the graph, it keeps the nodes, and it never splits
    what normalised to one node.  From a closed store with valid
    bindings whose stored sets are merged, it ends in such a state. *)
Lemma fixpointLoop_post fuel M st st' :
  WF (Nodes (ResultGraph st)) → fixpointLoop fuel M st = Some st' →
  ResultGraph st' = set_Nodes (Nodes (ResultGraph st')) (ResultGraph st)
  ∧ WF (Nodes (ResultGraph st'))
  ∧ coarser (Nodes (ResultGraph st)) (Nodes (ResultGraph st'))
  ∧ (closed (Nodes (ResultGraph st)) →
     (∀ CS F, CS ∈ FunctionCalls (ResultGraph st) →
              pairsValid (Nodes (ResultGraph st))
                         (callBindings M (ResultGraph st) CS F)) →
     calleesMerged M st →
     closed (Nodes (ResultGraph st')) ∧ calleesMerged M st').
Proof.
  revert st. induction fuel as [|fuel IH]; intros st Hwf; [done|]. simpl.
  destruct (buildCallGraph_spec M st) as (HG & Hnew & _ & Hch).
  destruct (buildCallGraph M st) as [[] st1]; simpl in *.
  - destruct (loopBody M st1) as [st2|] eqn:Hbody; [|done]. intros Hrun.
    rewrite <-HG in Hwf.
    destruct (loopBody_post _ _ _ Hwf Hbody) as (HCG & HG2 & Hwf2 & Hco2 & Hpost2).
    destruct (IH _ Hwf2 Hrun) as (HG' & Hwf' & Hco' & Hpost').
    rewrite HG in *.
    split; [by rewrite HG', HG2|]. split; [done|].
    split; [by eapply coarser_trans|]. intros Hcl Hval _.
    destruct (Hpost2 Hcl Hval) as [Hcl2 Hm2].
    apply Hpost'; [done| |done].
    intros CS F. rewrite HG2. simpl. rewrite callBindings_set_Nodes.
    intros Hin. eapply pairsValid_coarser; [by rewrite HG2 in Hco2|].
    by apply Hval.
  - intros [= <-]. rewrite HG. split; [by rewrite set_Nodes_id|].
    split; [done|]. split; [apply coarser_refl|]. intros Hcl _ Hm.
    split; [done|]. intros j CS F. rewrite HG. intros Hj.
    rewrite (Hnew _ _ Hj). simpl. intros HF Hdecl.
    apply (Hm j CS F Hj); [|done].
    destruct (decide (default ∅ (CallGraph st !! j)
                      = candidateSet M (ResultGraph st) CS)) as [->|Hne]; [done|].
    pose proof (proj2 Hch (ex_intro _ j (ex_intro _ CS (conj Hj Hne)))) as Hbad.
    done.
Qed.

(** *** The statements about the loop *)

Lemma handleOf_valid {K} `{Countable K} nodes (m : gmap K DSNodeHandle) k :
  map_Forall (λ _ h, validHandle nodes h) m → validHandle nodes (handleOf m k).
Proof.
  intros Hm. unfold handleOf. destruct (m !! k) as [h|] eqn:Hk; [|done].
  by apply (Hm _ _ Hk).
Qed.



(** X12: the fixpoint loop only merges.  Whenever it returns, the
    scalar map, the return nodes, the vararg nodes and the call list
    of the graph are the ones it started with, the store has the same
    nodes, handles that normalised to one node still do, and the
    pairs of values that [sameNode] accepted are still accepted. *)
Theorem loop_only_merges fuel M st st' :
  WF (Nodes (ResultGraph st)) → fixpointLoop fuel M st = Some st' →
  ScalarMap (ResultGraph st') = ScalarMap (ResultGraph st)
  ∧ ReturnNodes (ResultGraph st') = ReturnNodes (ResultGraph st)
  ∧ VANodes (ResultGraph st') = VANodes (ResultGraph st)
  ∧ FunctionCalls (ResultGraph st') = FunctionCalls (ResultGraph st)
  ∧ dom (Nodes (ResultGraph st')) = dom (Nodes (ResultGraph st))
  ∧ (∀ a b, getNode (Nodes (ResultGraph st)) a = getNode (Nodes (ResultGraph st)) b →
            getNode (Nodes (ResultGraph st')) a = getNode (Nodes (ResultGraph st')) b)
  ∧ (∀ v1 v2, sameNode (ResultGraph st) v1 v2 = true →
              sameNode (ResultGraph st') v1 v2 = true).
Proof.
  intros Hwf Hrun.
  destruct (fixpointLoop_post _ _ _ _ Hwf Hrun) as (HG' & _ & [Hdom Hsame] & _).
  rewrite HG'. simpl. repeat (split; [done|]).
  intros v1 v2. unfold sameNode. simpl.
  destruct (handleOf (ScalarMap (ResultGraph st)) v1) as [n1|],
    (handleOf (ScalarMap (ResultGraph st)) v2) as [n2|]; try done.
  rewrite !bool_decide_eq_true. apply Hsame.
Qed.

Lemma loop_only_merges_witness :
  ∃ st', fixpointLoop 3 fp2_module fp2_start = Some st'
         ∧ FunctionCalls (ResultGraph st') = FunctionCalls (ResultGraph fp2_start)
         ∧ dom (Nodes (ResultGraph st')) = dom (Nodes (ResultGraph fp2_start)).
Proof.
  destruct fp2_loop_facts as (st' & _ & Hrun & _).
  exists st'. split; [done|].
  destruct (loop_only_merges 3 fp2_module fp2_start st' fp2_start_WF Hrun)
    as (_ & _ & _ & Hcalls & Hdom & _).
  by split.
Defined.



(** X14: when every call of the graph is direct, the loop is left at
    the latest when its condition is evaluated for the second time,
    whatever the stored callee sets were. *)
Theorem direct_calls_two_rounds M st k :
  WF (Nodes (ResultGraph st)) →
  Forall (λ CS, isDirectCall CS = true) (FunctionCalls (ResultGraph st)) →
  ∃ st', fixpointLoop (2 + k) M st = Some st'.
Proof.
  intros Hwf Hdir.
  assert (∃ st', fixpointLoop 2 M st = Some st') as [st' Hrun];
    [|exists st'; by apply fixpointLoop_more_fuel].
  cbn [fixpointLoop].
  destruct (buildCallGraph_spec M st) as (HG & Hnew & _).
  destruct (buildCallGraph M st) as [[] st1]; simpl in *; [|by eexists].
  rewrite <-HG in Hwf.
  destruct (loopBody_ok M st1 Hwf) as (nodes' & -> & _).
  rewrite buildCallGraph_stable; [by eexists|].
  simpl. rewrite HG. intros j CS Hj. rewrite (Hnew _ _ Hj). f_equal.
  symmetry. apply candidateSet_direct.
  rewrite Forall_forall in Hdir.
  specialize (Hdir CS (list_elem_of_lookup_2 _ _ _ Hj)).
  unfold isDirectCall in Hdir. destruct (CalleeF CS); [eauto|done].
Qed.

Lemma direct_calls_two_rounds_witness :
  ∃ st', fixpointLoop 2 fp2_module direct_only_start = Some st'.
Proof.
  apply (direct_calls_two_rounds fp2_module direct_only_start 0).
  - apply WF_unforwarded. apply (bool_decide_unpack _). by vm_compute.
  - apply (bool_decide_unpack _). by vm_compute.
Defined.

Lemma mergeTargets_declarations M G CS targets :
  Forall (λ F, isDeclaration M F = true) targets →
  mergeTargets M G CS targets = Some G.
Proof.
  induction 1 as [|F targets HF _ IH]; [done|]. simpl. by rewrite HF.
Qed.

Lemma mergeCalls_declarations M CG G i Calls :
  (∀ j F, j < length Calls → F ∈ default ∅ (CG !! (i + j)) →
          isDeclaration M F = true) →
  mergeCalls M CG G i Calls = Some G.
Proof.
  revert i. induction Calls as [|CS Calls IH]; intros i Hdecl; [done|]. simpl.
  rewrite mergeTargets_declarations.
  - apply IH. intros j F Hj HF. apply (Hdecl (S j) F); [simpl; lia|].
    by replace (i + S j) with (S i + j) by lia.
  - apply Forall_forall. intros F HF%elem_of_elements.
    apply (Hdecl 0 F); [simpl; lia|]. by rewrite Nat.add_0_r.
Qed.

(** X15: functions without a body are never merged.  When every
    function in the stored callee sets of the sites is a declaration,
    the body of the loop leaves the state as it is. *)
Theorem declarations_are_not_merged M st :
  (∀ j F, j < length (FunctionCalls (ResultGraph st)) →
          F ∈ default ∅ (CallGraph st !! j) → isDeclaration M F = true) →
  loopBody M st = Some st.
Proof.
  intros Hdecl. unfold loopBody.
  rewrite mergeCalls_declarations by done. by destruct st.
Qed.

Lemma declarations_are_not_merged_witness :
  "printf" ∈ default ∅ (CallGraph declared_only_state !! 0)
  ∧ loopBody fp2_module declared_only_state = Some declared_only_state.
Proof.
  split; [apply (bool_decide_unpack _); by vm_compute|].
  apply (declarations_are_not_merged fp2_module declared_only_state).
  intros j F Hj HF. simpl in Hj. assert (j = 0) as -> by lia.
  unfold declared_only_state in HF. simpl in HF.
  rewrite lookup_singleton_eq in HF. simpl in HF.
  apply elem_of_singleton in HF as ->. reflexivity.
Defined.

(** *** The pass as a whole *)







(** *** [ResolveFunctionCall] *)

Lemma guarded_merge_eq nodes (h1 h2 : DSNodeHandle) :
  (if negb (isNull h2) && negb (isNull h1) then mergeWith nodes h1 h2 else Some nodes)
  = mergeWith nodes h1 h2.
Proof. by destruct h1, h2. Qed.

Lemma mergeWith_total nodes h1 h2 :
  WF nodes → closed nodes → validHandle nodes h1 → validHandle nodes h2 →
  ∃ nodes', mergeWith nodes h1 h2 = Some nodes'
            ∧ WF nodes' ∧ closed nodes' ∧ coarser nodes nodes'
            ∧ merged nodes' h1 h2.
Proof.
  intros Hwf Hcl H1 H2.
  destruct (mergeWith_ok nodes h1 h2 Hwf) as (nodes' & Hm & _).
  destruct (mergeWith_post _ _ _ _ Hwf Hm) as (Hwf' & Hco & Hpost).
  destruct (Hpost Hcl H1 H2). by exists nodes'.
Qed.

Lemma zip_nil_r {A B} (l : list A) : zip l (@nil B) = [].
Proof. by destruct l. Qed.

Lemma resolveArgs_post ValMap F formals ptrArgs nodes :
  WF nodes → closed nodes →
  map_Forall (λ _ h, validHandle nodes h) ValMap →
  Forall (validHandle nodes) ptrArgs →
  ∃ nodes', resolveArgs ValMap F formals ptrArgs nodes = Some nodes'
            ∧ WF nodes' ∧ closed nodes' ∧ coarser nodes nodes'
            ∧ pairsMerged nodes' (zip (boundFormals ValMap F formals) ptrArgs).
Proof.
  revert ptrArgs nodes.
  induction formals as [|AI formals IH]; intros ptrArgs nodes Hwf Hcl HVM Hargs.
  { exists nodes. split; [done|]. split; [done|]. split; [done|].
    split; [apply coarser_refl|]. intros ? ? Hin. by apply elem_of_nil in Hin. }
  cbn [resolveArgs]. destruct ptrArgs as [|p ptrArgs].
  { exists nodes. split; [done|]. split; [done|]. split; [done|].
    split; [apply coarser_refl|]. rewrite zip_nil_r.
    intros ? ? Hin. by apply elem_of_nil in Hin. }
  unfold boundFormals. cbn [omap list_omap]. fold (boundFormals ValMap F formals).
  destruct (ValMap !! local F AI) as [h|] eqn:Hh; [|by apply IH].
  apply Forall_cons in Hargs as [Hp Hargs].
  destruct (mergeWith_total nodes h p Hwf Hcl (HVM _ _ Hh) Hp)
    as (nodes1 & -> & Hwf1 & Hcl1 & Hco1 & Hm1).
  destruct (IH ptrArgs nodes1) as (nodes' & -> & Hwf' & Hcl' & Hco' & Hm');
    [done|done| | |].
  { intros k h' Hk. eapply validHandle_coarser; [done|]. by apply (HVM _ _ Hk). }
  { eapply Forall_impl; [done|]. intros h'. by apply validHandle_coarser. }
  exists nodes'. split; [done|]. split; [done|]. split; [done|].
  split; [by eapply coarser_trans|].
  intros h1 h2 [[= -> ->]|Hin]%elem_of_cons; [|by apply Hm'].
  intros a b Ha Hb. apply Hco'. by apply Hm1.
Qed.

(** X17: [ResolveFunctionCall] on a well-formed, closed graph with
    valid handles returns; it changes the node store only and splits
    nothing; afterwards the return node and the vararg node of the
    function normalise to the same nodes as those of the site, and so
    does every formal the scalar map binds with the pointer argument
    at its position among the bound formals. *)
Theorem ResolveFunctionCall_binds G F formals Call :
  WF (Nodes G) → closed (Nodes G) → validGraph G → Call ∈ FunctionCalls G →
  ∃ G', ResolveFunctionCall G F formals Call = Some G'
        ∧ G' = set_Nodes (Nodes G') G
        ∧ coarser (Nodes G) (Nodes G')
        ∧ merged (Nodes G') (handleOf (ReturnNodes G) F) (RetVal Call)
        ∧ merged (Nodes G') (handleOf (VANodes G) F) (VarArgVal Call)
        ∧ pairsMerged (Nodes G')
                      (zip (boundFormals (ScalarMap G) F formals) (CallArgs Call)).
Proof.
  intros Hwf Hcl (HSM & HRN & HVA & HFC) HCall.
  rewrite Forall_forall in HFC. destruct (HFC _ HCall) as (HR & HV & HA).
  unfold ResolveFunctionCall. rewrite !guarded_merge_eq.
  destruct (mergeWith_total (Nodes G) (handleOf (ReturnNodes G) F) (RetVal Call))
    as (nodes1 & -> & Hwf1 & Hcl1 & Hco1 & Hm1); [done|done| |done|].
  { by apply handleOf_valid. }
  rewrite guarded_merge_eq.
  destruct (mergeWith_total nodes1 (handleOf (VANodes G) F) (VarArgVal Call))
    as (nodes2 & -> & Hwf2 & Hcl2 & Hco2 & Hm2); [done|done| | |].
  { eapply validHandle_coarser; [done|]. by apply handleOf_valid. }
  { by eapply validHandle_coarser. }
  pose proof (coarser_trans _ _ _ Hco1 Hco2) as Hco12.
  destruct (resolveArgs_post (ScalarMap G) F formals (CallArgs Call) nodes2)
    as (nodes3 & -> & Hwf3 & Hcl3 & Hco3 & Hm3); [done|done| | |].
  { intros k h Hk. eapply validHandle_coarser; [done|]. by apply (HSM _ _ Hk). }
  { eapply Forall_impl; [done|]. intros h. by apply validHandle_coarser. }
  eexists. split; [done|]. simpl. split; [done|].
  split; [by eapply coarser_trans|]. split; [|split; [|done]].
  - intros a b Ha Hb. apply Hco3, Hco2. by apply Hm1.
  - intros a b Ha Hb. apply Hco3. by apply Hm2.
Qed.

Lemma ResolveFunctionCall_binds_witness :
  ∃ G', ResolveFunctionCall (ResultGraph fp2_start) "foo" ["fval"] fp2_indirect_site
        = Some G'
        ∧ getNode (Nodes G') 8 = getNode (Nodes G') 3
        ∧ getNode (Nodes G') 8 = getNode (Nodes G') 2.
Proof.
  assert (closed (Nodes (ResultGraph fp2_start))) as Hcl.
  { apply (bool_decide_unpack _). by vm_compute. }
  assert (validGraph (ResultGraph fp2_start)) as Hval.
  { apply (bool_decide_unpack _). by vm_compute. }
  assert (fp2_indirect_site ∈ FunctionCalls (ResultGraph fp2_start)) as Hin.
  { apply list_elem_of_here. }
  destruct (ResolveFunctionCall_binds (ResultGraph fp2_start) "foo" ["fval"]
              fp2_indirect_site fp2_start_WF Hcl Hval Hin)
    as (G' & Hrun & _ & _ & Hret & _ & Hargs).
  exists G'. split; [done|]. split.
  - by apply Hret.
  - apply (Hargs (Some 8) (Some 2)); [apply list_elem_of_here|done..].
Defined.

Lemma resolveArgs_mergeAll ValMap F formals actuals vaF vaCS nodes :
  Forall (λ x, is_Some (ValMap !! local F x)) formals →
  length formals = length actuals →
  resolveArgs ValMap F formals actuals nodes
  = mergeAll nodes
      (argPairs ((λ x, handleOf ValMap (local F x)) <$> formals) actuals vaF vaCS).
Proof.
  intros Hb. revert actuals nodes.
  induction Hb as [|AI formals [h Hh] _ IH]; intros [|p actuals] nodes [=]; [done|].
  cbn [resolveArgs]. rewrite fmap_cons. cbn [argPairs mergeAll].
  unfold handleOf at 1. rewrite Hh.
  destruct (mergeWith nodes h p) as [nodes1|]; [by apply IH | done].
Qed.

(** X18: the older and the newer driver resolve a call alike.  For a
    function all of whose pointer formals the scalar map binds and a
    site with as many pointer arguments, [ResolveFunctionCall] gives
    the graph that [mergeInGraph] gives. *)
Theorem ResolveFunctionCall_agrees_with_mergeInGraph M G CS F fi :
  findFunction M F = Some fi →
  Forall (λ x, is_Some (ScalarMap G !! local F x)) (fnPtrArgs fi) →
  length (fnPtrArgs fi) = length (CallArgs CS) →
  ResolveFunctionCall G F (fnPtrArgs fi) CS = mergeInGraph M G CS F.
Proof.
  intros Hfi Hb Hlen. unfold ResolveFunctionCall, mergeInGraph, callBindings.
  rewrite Hfi, guarded_merge_eq. cbn [mergeAll].
  destruct (mergeWith (Nodes G) _ _) as [nodes1|]; [|done].
  rewrite guarded_merge_eq.
  destruct (mergeWith nodes1 _ _) as [nodes2|]; [|done].
  by rewrite (resolveArgs_mergeAll _ _ _ _ (handleOf (VANodes G) F) (VarArgVal CS)).
Qed.

Lemma ResolveFunctionCall_agrees_with_mergeInGraph_witness :
  ResolveFunctionCall (ResultGraph fp2_start) "foo" ["fval"] fp2_indirect_site
  = mergeInGraph fp2_module (ResultGraph fp2_start) fp2_indirect_site "foo".
Proof.
  apply (ResolveFunctionCall_agrees_with_mergeInGraph fp2_module
           (ResultGraph fp2_start) fp2_indirect_site "foo"
           {| fnName := "foo"; fnIsDeclaration := false;
              fnHasInternalLinkage := true; fnPtrArgs := ["fval"] |}).
  - reflexivity.
  - apply (bool_decide_unpack _). by vm_compute.
  - reflexivity.
Defined.

End SteensFacts.

(** ** Both passes are analyses *)


